(** * hackernews-companion: comment tree, projection, viewport and navigation

    A shallow embedding of the comment-tree engine of the terminal client:
    - [src/types.ts]                      the item, comment and post records;
    - [src/tui/utils.ts]                  [flattenComments], [truncate],
                                          [timeAgo], [wrapText];
    - [src/hackernews-post.ts]            [HackerNewsPost]: [getComments],
                                          [fetchCommentTree], the comment cache,
                                          [getAllCommentsFlat], [findComment];
    - [src/hackernews-client.ts]          [getPosts], [getPostsByIds],
                                          [getPostsByUser], [searchPosts];
    - [src/tui/components/PostView.tsx]   the visible-window computation;
    - [src/tui/components/FeedView.tsx]   the visible-window computation;
    - [src/tui/App.tsx]                   the keyboard handlers and the
                                          asynchronous loaders;
    - [src/events/EventLogger.ts]         the in-memory methods of the logger.

    JavaScript numbers that hold identifiers, indices and counts are modelled
    as [Z]; a [Set<number>] as [gset Z]; arrays as lists.  In the application
    the event logger is a write-only collaborator and is left out of the
    machine; its own methods are modelled apart. *)

From stdpp Require Import base gmap sets list strings pretty.
From Stdlib Require Import ZArith Lia.

Local Open Scope Z_scope.
Local Set Warnings "-register-all".

(* ===================================================================== *)
(** ** src/types.ts *)
(* ===================================================================== *)

Inductive FeedType := TOP | NEW | BEST | ASK | SHOW | JOB.

Inductive ItemType := STORY | COMMENT | JOBITEM | POLL | POLLOPT.

(** [HackerNewsItem]: every field is optional in the JSON payload; the
    declaration marks [id] as present, but both consumers test it
    ([item.id === undefined], [item.id ?? 0]), so it is optional here too. *)
Record HackerNewsItem := mkItem {
  item_id : option Z;
  item_deleted : option bool;
  item_type : option ItemType;
  item_by : option string;
  item_time : option Z;
  item_text : option string;
  item_dead : option bool;
  item_parent : option Z;
  item_kids : option (list Z);
  item_url : option string;
  item_score : option Z;
  item_title : option string;
  item_descendants : option Z
}.

(** [Comment]: [time] is the [Date], kept as milliseconds since the epoch. *)
Inductive Comment := mkComment {
  comment_id : Z;
  comment_author : string;
  comment_text : string;
  comment_time : Z;
  comment_parent : Z;
  replies : list Comment;
  comment_deleted : bool;
  comment_dead : bool
}.

(** JavaScript's [a ?? b]. *)
Definition nullish {A} (a : option A) (b : A) : A :=
  match a with Some x => x | None => b end.

(** JavaScript's [xs[i]] for an integer index: [undefined] out of range. *)
Definition at_index {A} (xs : list A) (i : Z) : option A :=
  if i <? 0 then None else xs !! Z.to_nat i.

(** [xs.length] as a number. *)
Definition len {A} (xs : list A) : Z := Z.of_nat (length xs).

(* ===================================================================== *)
(** ** src/tui/utils.ts *)
(* ===================================================================== *)

Module Utils.

(** [FlatComment extends Comment] with [depth] and [isCollapsed]. *)
Record FlatComment := mkFlat {
  flat_id : Z;
  flat_author : string;
  flat_text : string;
  flat_time : Z;
  flat_parent : Z;
  flat_replies : list Comment;
  flat_deleted : bool;
  flat_dead : bool;
  depth : Z;
  isCollapsed : bool
}.

(** The object literal [{ ...comment, depth, isCollapsed, replies: [] }]. *)
Definition flatOf (comment : Comment) (depth : Z) (isCollapsed : bool) : FlatComment :=
  {| flat_id := comment_id comment;
     flat_author := comment_author comment;
     flat_text := comment_text comment;
     flat_time := comment_time comment;
     flat_parent := comment_parent comment;
     flat_replies := [];
     flat_deleted := comment_deleted comment;
     flat_dead := comment_dead comment;
     depth := depth;
     isCollapsed := isCollapsed |}.

(** One iteration of the [for] loop of [flattenComments]: the entry pushed
    for [comment], followed by the projection of its replies when it is not
    collapsed and has some. *)
Fixpoint flattenComment (collapsedSet : gset Z) (depth : Z) (comment : Comment)
    {struct comment} : list FlatComment :=
  match comment with
  | mkComment i a t tm p rs dl dd =>
    let isCollapsed := bool_decide (i ∈ collapsedSet) in
    flatOf (mkComment i a t tm p rs dl dd) depth isCollapsed ::
    (if negb isCollapsed && bool_decide (0 < len rs)
     then flat_map (flattenComment collapsedSet (depth + 1)) rs
     else [])
  end.

(** [flattenComments(comments, collapsedSet, depth = 0)]. *)
Definition flattenComments (comments : list Comment) (collapsedSet : gset Z)
    (depth : Z) : list FlatComment :=
  flat_map (flattenComment collapsedSet depth) comments.

End Utils.

(* ===================================================================== *)
(** ** The network, as both the post and the client see it *)
(* ===================================================================== *)

(** What one [await fetch(url)] followed by [response.json()] can do: reject
    (connectivity or parse failure; [err] is [String(error)]), answer with
    [response.ok] false, or deliver a parsed body. *)
Inductive Response (A : Type) :=
  | Threw (err : string)
  | NotOk
  | Json (body : A).
Arguments Threw {A} err.
Arguments NotOk {A}.
Arguments Json {A} body.

(** The user document of [/v0/user/<name>.json]. *)
Record UserJson := mkUserJson {
  user_id : option string;
  user_created : option Z;
  user_karma : option Z;
  user_about : option string;
  user_submitted : option (list Z)
}.

(** The remote API: one answer per endpoint.  A JSON [null] body is [None]. *)
Record Network := mkNetwork {
  net_item : Z -> Response (option HackerNewsItem);
  net_stories : FeedType -> Response (list Z);
  net_user : string -> Response (option UserJson)
}.

(* ===================================================================== *)
(** ** src/hackernews-post.ts *)
(* ===================================================================== *)

Module Post.

(** Array objects are identified by their address in a heap, so that
    "the same collection instance" is equality of addresses. *)
Abbreviation loc := positive (only parsing).
Abbreviation Heap := (gmap positive (list Comment)) (only parsing).

Record HackerNewsPost := mkPost {
  post_id : Z;
  title : string;
  url : option string;
  author : string;
  score : Z;
  time : Z;
  commentCount : Z;
  text : option string;
  type : ItemType;
  commentIds : list Z;
  commentsCache : option loc
}.

(** [constructor(item)]: throws when the payload has no [id]. *)
Definition construct (item : HackerNewsItem) : string + HackerNewsPost :=
  match item_id item with
  | None => inl "Item must have an id"%string
  | Some i =>
    inr {| post_id := i;
           title := nullish (item_title item) EmptyString;
           url := item_url item;
           author := nullish (item_by item) "unknown"%string;
           score := nullish (item_score item) 0;
           time := nullish (item_time item) 0 * 1000;
           commentCount := nullish (item_descendants item) 0;
           text := item_text item;
           type := nullish (item_type item) STORY;
           commentIds := nullish (item_kids item) [];
           commentsCache := None |}
  end.

Definition with_cache (c : option loc) (p : HackerNewsPost) : HackerNewsPost :=
  {| post_id := post_id p; title := title p; url := url p; author := author p;
     score := score p; time := time p; commentCount := commentCount p;
     text := text p; type := type p; commentIds := commentIds p;
     commentsCache := c |}.

(** The loop shared by [getComments] and [fetchCommentTree]:
    [for (const id of ids) { const r = await f(id); if (r !== null) out.push(r); }].
    The outer [option] is [None] when an awaited call never settles. *)
Fixpoint collect (f : Z -> option (option Comment)) (ids : list Z)
    : option (list Comment) :=
  match ids with
  | [] => Some []
  | i :: rest =>
    match f i with
    | None => None
    | Some r =>
      match collect f rest with
      | None => None
      | Some out => Some (match r with Some c => c :: out | None => out end)
      end
    end
  end.

(** [item.deleted === true || item.dead === true]. *)
Definition removed (item : HackerNewsItem) : bool :=
  bool_decide (item_deleted item = Some true) || bool_decide (item_dead item = Some true).

(** The object literal that [fetchCommentTree] returns for a live item. *)
Definition commentOf (item : HackerNewsItem) (rs : list Comment) : Comment :=
  {| comment_id := nullish (item_id item) 0;
     comment_author := nullish (item_by item) "unknown"%string;
     comment_text := nullish (item_text item) EmptyString;
     comment_time := nullish (item_time item) 0 * 1000;
     comment_parent := nullish (item_parent item) 0;
     replies := rs;
     comment_deleted := nullish (item_deleted item) false;
     comment_dead := nullish (item_dead item) false |}.

(** [fetchCommentTree(commentId)].  The recursion follows [kids] with no
    other bound, so the model is indexed by [fuel], the number of nested
    calls allowed: [None] is "out of fuel", [Some None] is the [null] result,
    [Some (Some c)] a comment.  Every exception is caught and becomes [null]. *)
Fixpoint fetchCommentTree (net : Network) (fuel : nat) (commentId : Z)
    : option (option Comment) :=
  match fuel with
  | O => None
  | S fuel' =>
    match net_item net commentId with
    | Threw _ => Some None
    | NotOk => Some None
    | Json None => Some None
    | Json (Some item) =>
      if removed item then Some None
      else
        match
          (match item_kids item with
           | Some kids =>
             if bool_decide (0 < len kids)
             then collect (fetchCommentTree net fuel') kids
             else Some []
           | None => Some []
           end)
        with
        | None => None
        | Some rs => Some (Some (commentOf item rs))
        end
    end
  end.

(** [getComments()]: the cached array when there is one; otherwise a new
    array is filled from [commentIds], stored in the cache and returned. *)
Definition getComments (net : Network) (fuel : nat) (h : Heap) (p : HackerNewsPost)
    : option (Heap * HackerNewsPost * loc) :=
  match commentsCache p with
  | Some l => Some (h, p, l)
  | None =>
    match collect (fetchCommentTree net fuel) (commentIds p) with
    | None => None
    | Some comments =>
      let l := fresh (dom h) in
      Some (<[l := comments]> h, with_cache (Some l) p, l)
    end
  end.

(** [clearCommentsCache()]. *)
Definition clearCommentsCache (p : HackerNewsPost) : HackerNewsPost :=
  with_cache None p.

(** The local closure [flattenComments] of [getAllCommentsFlat]: pre-order,
    ignoring collapse state. *)
Fixpoint flattenAll (comment : Comment) : list Comment :=
  match comment with
  | mkComment i a t tm p rs dl dd =>
    mkComment i a t tm p rs dl dd ::
    (if bool_decide (0 < len rs) then flat_map flattenAll rs else [])
  end.

(** [getAllCommentsFlat()]. *)
Definition getAllCommentsFlat (net : Network) (fuel : nat) (h : Heap)
    (p : HackerNewsPost) : option (Heap * HackerNewsPost * list Comment) :=
  match getComments net fuel h p with
  | None => None
  | Some (h', p', l) => Some (h', p', flat_map flattenAll (nullish (h' !! l) []))
  end.

(** [findComment(commentId)]. *)
Definition findComment (net : Network) (fuel : nat) (h : Heap)
    (p : HackerNewsPost) (commentId : Z) : option (Heap * HackerNewsPost * option Comment) :=
  match getAllCommentsFlat net fuel h p with
  | None => None
  | Some (h', p', allComments) =>
    Some (h', p', List.find (fun c => bool_decide (comment_id c = commentId)) allComments)
  end.

(** [getTopLevelCommentCount()]. *)
Definition getTopLevelCommentCount (p : HackerNewsPost) : Z := len (commentIds p).

(** The methods of a post that read or write its comment cache, and the
    effect of one call on the heap and on the post object.  Each call meets
    the network as it is at that time. *)
Inductive Call :=
  | CallGetComments
  | CallGetAllCommentsFlat
  | CallFindComment (commentId : Z)
  | CallGetTopLevelCommentCount
  | CallClearCommentsCache.

Definition call (net : Network) (fuel : nat) (c : Call) (st : Heap * HackerNewsPost)
    : option (Heap * HackerNewsPost) :=
  match c with
  | CallGetComments =>
    match getComments net fuel st.1 st.2 with
    | Some (h, p, _) => Some (h, p) | None => None
    end
  | CallGetAllCommentsFlat =>
    match getAllCommentsFlat net fuel st.1 st.2 with
    | Some (h, p, _) => Some (h, p) | None => None
    end
  | CallFindComment commentId =>
    match findComment net fuel st.1 st.2 commentId with
    | Some (h, p, _) => Some (h, p) | None => None
    end
  | CallGetTopLevelCommentCount => Some st
  | CallClearCommentsCache => Some (st.1, clearCommentsCache st.2)
  end.

Fixpoint calls (cs : list (Network * nat * Call)) (st : Heap * HackerNewsPost)
    : option (Heap * HackerNewsPost) :=
  match cs with
  | [] => Some st
  | (net, fuel, c) :: rest =>
    match call net fuel c st with
    | Some st' => calls rest st'
    | None => None
    end
  end.

End Post.

(* ===================================================================== *)
(** ** src/hackernews-client.ts *)
(* ===================================================================== *)

Module Client.

Import Post.

(** The requests a call sends, in order. *)
Inductive Request :=
  | GetStories (feedType : FeedType)
  | GetItem (itemId : Z)
  | GetUser (username : string).

(** An asynchronous method of the client: it extends the log of requests
    sent so far and either rejects with an [Error] (its message, [inl]) or
    resolves with a value ([inr]). *)
Definition Async (A : Type) : Type := list Request -> list Request * (string + A).

Definition resolve {A} (a : A) : Async A := fun log => (log, inr a).
Definition throw {A} (message : string) : Async A := fun log => (log, inl message).
Definition bind {A B} (m : Async A) (k : A -> Async B) : Async B :=
  fun log =>
    match m log with
    | (log', inl message) => (log', inl message)
    | (log', inr a) => k a log'
    end.
Definition request {A} (r : Request) (answer : A) : Async A :=
  fun log => (log ++ [r], inr answer).

Notation "'await' x ':=' m 'in' k" := (bind m (fun x => k))
  (at level 10, x name, m at level 100, k at level 200).

(** The [FeedType] enum's string values. *)
Definition feedName (feedType : FeedType) : string :=
  match feedType with
  | TOP => "top" | NEW => "new" | BEST => "best"
  | ASK => "ask" | SHOW => "show" | JOB => "job"
  end%string.

(** [getPost(postId)]: never rejects; every failure is [null]. *)
Definition getPost (net : Network) (postId : Z) : Async (option HackerNewsPost) :=
  await response := request (GetItem postId) (net_item net postId) in
  resolve
    match response with
    | Threw _ => None
    | NotOk => None
    | Json None => None
    | Json (Some item) =>
      if removed item then None
      else match construct item with inl _ => None | inr post => Some post end
    end.

(** [getPostsByIds(postIds)], also the loop at the end of [getPosts]. *)
Fixpoint getPostsByIds (net : Network) (postIds : list Z) : Async (list HackerNewsPost) :=
  match postIds with
  | [] => resolve []
  | i :: rest =>
    await post := getPost net i in
    await posts := getPostsByIds net rest in
    resolve match post with Some p => p :: posts | None => posts end
  end.

(** [fetchStoryIds(feedType)]: wraps every failure in a new [Error]. *)
Definition fetchStoryIds (net : Network) (feedType : FeedType) : Async (list Z) :=
  await response := request (GetStories feedType) (net_stories net feedType) in
  match response with
  | Threw err =>
    throw ("Failed to fetch story IDs for " +:+ feedName feedType +:+ ": " +:+ err)
  | NotOk =>
    throw ("Failed to fetch story IDs for " +:+ feedName feedType +:+
           ": Error: Failed to fetch " +:+ feedName feedType +:+ " stories")
  | Json storyIds => resolve storyIds
  end.

(** [storyIds.slice(0, limit)] for an integer [limit]. *)
Definition slice0 {A} (xs : list A) (limit : Z) : list A :=
  if limit <? 0 then take (length xs - Z.to_nat (- limit)) xs
  else take (Z.to_nat limit) xs.

(** [getPosts(feedType, limit = 30)]. *)
Definition getPosts (net : Network) (feedType : FeedType) (limit : Z)
    : Async (list HackerNewsPost) :=
  if bool_decide (limit <= 0) then throw "Limit must be greater than 0"
  else if bool_decide (limit > 500) then throw "Limit cannot exceed 500"
  else
    await storyIds := fetchStoryIds net feedType in
    getPostsByIds net (slice0 storyIds limit).

Record User := mkUser {
  u_id : string;
  u_created : Z;
  u_karma : Z;
  u_about : option string;
  u_submitted : list Z
}.

(** [getUser(username)]: never rejects. *)
Definition getUser (net : Network) (username : string) : Async (option User) :=
  await response := request (GetUser username) (net_user net username) in
  resolve
    match response with
    | Threw _ => None
    | NotOk => None
    | Json None => None
    | Json (Some user) =>
      Some {| u_id := nullish (user_id user) username;
              u_created := nullish (user_created user) 0 * 1000;
              u_karma := nullish (user_karma user) 0;
              u_about := user_about user;
              u_submitted := nullish (user_submitted user) [] |}
    end.

Definition isPostType (t : ItemType) : bool :=
  match t with STORY | JOBITEM | POLL => true | _ => false end.

(** The loop of [getPostsByUser], with its [break]. *)
Fixpoint userPosts (net : Network) (limit : Z) (postIds : list Z)
    (posts : list HackerNewsPost) : Async (list HackerNewsPost) :=
  match postIds with
  | [] => resolve posts
  | i :: rest =>
    await item := getPost net i in
    match item with
    | Some post =>
      if isPostType (type post)
      then
        let posts' := posts ++ [post] in
        if bool_decide (len posts' >= limit) then resolve posts'
        else userPosts net limit rest posts'
      else userPosts net limit rest posts
    | None => userPosts net limit rest posts
    end
  end.

(** The double-quote character, for messages that quote a name. *)
Definition dquote : string := String (Ascii.ascii_of_nat 34) EmptyString.

(** [getPostsByUser(username, limit = 30)]. *)
Definition getPostsByUser (net : Network) (username : string) (limit : Z)
    : Async (list HackerNewsPost) :=
  if bool_decide (limit <= 0) then throw "Limit must be greater than 0"
  else if bool_decide (limit > 500) then throw "Limit cannot exceed 500"
  else
    await user := getUser net username in
    match user with
    | None => throw ("User " +:+ dquote +:+ username +:+ dquote +:+ " not found")
    | Some u => userPosts net limit (slice0 (u_submitted u) limit) []
    end.

End Client.

(* ===================================================================== *)
(** ** src/tui/components/PostView.tsx *)
(* ===================================================================== *)

Module PostView.

(** [maxVisibleComments], from the terminal height and the header lines. *)
Definition maxVisibleComments (terminalHeight headerLines : Z) : Z :=
  let footerLines := 2 in
  let linesPerComment := 7 in
  let availableLines := Z.max 10 (terminalHeight - headerLines - footerLines) in
  Z.max 1 (availableLines / linesPerComment).

(** The [useMemo] body that computes [{ startIndex, endIndex }] from the
    selected index, [flatComments.length] and [maxVisibleComments]. *)
Definition visibleWindow (selectedCommentIndex length maxVisibleComments : Z) : Z * Z :=
  if bool_decide (maxVisibleComments <= 0) then (0, 0)
  else
    let half := maxVisibleComments / 2 in
    let start := Z.max 0 (selectedCommentIndex - half) in
    let end_ := Z.min length (start + maxVisibleComments) in
    let start :=
      if bool_decide (end_ - start < maxVisibleComments)
      then Z.max 0 (end_ - maxVisibleComments)
      else start in
    (start, end_).

(** The window over a sequence, as the component calls it. *)
Definition window {A} (seq : list A) (selectedIndex capacity : Z) : Z * Z :=
  visibleWindow selectedIndex (len seq) capacity.

End PostView.

(* ===================================================================== *)
(** ** src/tui/types.ts and src/tui/App.tsx *)
(* ===================================================================== *)

Module App.

Import Utils Post.

Inductive View := feed | post | help.

#[global] Instance View_eq_dec : EqDecision View.
Proof. solve_decision. Defined.

Record AppState := mkState {
  view : View;
  feedType : FeedType;
  posts : list HackerNewsPost;
  selectedPostIndex : Z;
  currentPost : option HackerNewsPost;
  comments : list Comment;
  flatComments : list FlatComment;
  selectedCommentIndex : Z;
  collapsedComments : gset Z;
  loading : bool;
  error : option string;
  statusMessage : option string
}.

(** The [Key] interface of the input hook ([return_] is its [return]). *)
Record Key := mkKey {
  upArrow : bool;
  downArrow : bool;
  leftArrow : bool;
  rightArrow : bool;
  return_ : bool;
  escape : bool;
  backspace : bool
}.

(** The asynchronous work a handler starts; its completion comes back as an
    [Event] of its own. *)
Inductive Command :=
  | Exit
  | LoadFeed (feedType : FeedType)
  | LoadPostDetails (p : HackerNewsPost)
  | OpenArticle (p : HackerNewsPost)
  | OpenInBrowser (p : HackerNewsPost)
  | OpenComment (p : HackerNewsPost) (commentId : Z).

(** The initial [useState] value. *)
Definition initialState : AppState :=
  {| view := feed; feedType := TOP; posts := []; selectedPostIndex := 0;
     currentPost := None; comments := []; flatComments := [];
     selectedCommentIndex := 0; collapsedComments := ∅; loading := false;
     error := None; statusMessage := None |}.

(** *** The state updaters, one per [setState] call of the component

    Events are processed one at a time, so the [state] a handler closes over
    and the [prev] its updater receives are the same value. *)

Definition with_view (v : View) (prev : AppState) : AppState :=
  {| view := v; feedType := feedType prev; posts := posts prev;
     selectedPostIndex := selectedPostIndex prev; currentPost := currentPost prev;
     comments := comments prev; flatComments := flatComments prev;
     selectedCommentIndex := selectedCommentIndex prev;
     collapsedComments := collapsedComments prev; loading := loading prev;
     error := error prev; statusMessage := statusMessage prev |}.

Definition with_selectedPostIndex (i : Z) (prev : AppState) : AppState :=
  {| view := view prev; feedType := feedType prev; posts := posts prev;
     selectedPostIndex := i; currentPost := currentPost prev;
     comments := comments prev; flatComments := flatComments prev;
     selectedCommentIndex := selectedCommentIndex prev;
     collapsedComments := collapsedComments prev; loading := loading prev;
     error := error prev; statusMessage := statusMessage prev |}.

Definition with_selectedCommentIndex (i : Z) (prev : AppState) : AppState :=
  {| view := view prev; feedType := feedType prev; posts := posts prev;
     selectedPostIndex := selectedPostIndex prev; currentPost := currentPost prev;
     comments := comments prev; flatComments := flatComments prev;
     selectedCommentIndex := i;
     collapsedComments := collapsedComments prev; loading := loading prev;
     error := error prev; statusMessage := statusMessage prev |}.

(** [loadFeed], up to its [await]: [{ ...prev, loading: true, error: null }]. *)
Definition loadFeed_begin (prev : AppState) : AppState :=
  {| view := view prev; feedType := feedType prev; posts := posts prev;
     selectedPostIndex := selectedPostIndex prev; currentPost := currentPost prev;
     comments := comments prev; flatComments := flatComments prev;
     selectedCommentIndex := selectedCommentIndex prev;
     collapsedComments := collapsedComments prev; loading := true;
     error := None; statusMessage := statusMessage prev |}.

(** [loadFeed], after [client.getPosts] resolved. *)
Definition loadFeed_done (ft : FeedType) (ps : list HackerNewsPost) (prev : AppState)
    : AppState :=
  {| view := view prev; feedType := ft; posts := ps;
     selectedPostIndex := 0; currentPost := currentPost prev;
     comments := comments prev; flatComments := flatComments prev;
     selectedCommentIndex := selectedCommentIndex prev;
     collapsedComments := collapsedComments prev; loading := false;
     error := error prev; statusMessage := statusMessage prev |}.

(** The [catch] branch of both loaders: [{ ...prev, loading: false, error }]. *)
Definition load_failed (message : string) (prev : AppState) : AppState :=
  {| view := view prev; feedType := feedType prev; posts := posts prev;
     selectedPostIndex := selectedPostIndex prev; currentPost := currentPost prev;
     comments := comments prev; flatComments := flatComments prev;
     selectedCommentIndex := selectedCommentIndex prev;
     collapsedComments := collapsedComments prev; loading := false;
     error := Some message; statusMessage := statusMessage prev |}.

(** [loadPostDetails(post)], up to its [await]. *)
Definition loadPostDetails_begin (p : HackerNewsPost) (prev : AppState) : AppState :=
  {| view := post; feedType := feedType prev; posts := posts prev;
     selectedPostIndex := selectedPostIndex prev; currentPost := Some p;
     comments := []; flatComments := [];
     selectedCommentIndex := 0;
     collapsedComments := ∅; loading := true;
     error := error prev; statusMessage := statusMessage prev |}.

(** [loadPostDetails(post)], after [post.getComments()] resolved with
    [cs]: the updater does not look at [post] or at [prev.currentPost]. *)
Definition loadPostDetails_done (p : HackerNewsPost) (cs : list Comment)
    (prev : AppState) : AppState :=
  {| view := view prev; feedType := feedType prev; posts := posts prev;
     selectedPostIndex := selectedPostIndex prev; currentPost := currentPost prev;
     comments := cs; flatComments := flattenComments cs ∅ 0;
     selectedCommentIndex := selectedCommentIndex prev;
     collapsedComments := collapsedComments prev; loading := false;
     error := error prev; statusMessage := statusMessage prev |}.

(** The collapse toggle: [new Set(prev)], then [delete] when present,
    [add] when absent. *)
Definition toggleCollapsed (commentId : Z) (collapsed : gset Z) : gset Z :=
  if bool_decide (commentId ∈ collapsed)
  then collapsed ∖ {[commentId]}
  else collapsed ∪ {[commentId]}.

(** The updater of the collapse branch. *)
Definition toggle_selected (commentId : Z) (prev : AppState) : AppState :=
  let newCollapsed := toggleCollapsed commentId (collapsedComments prev) in
  let newFlatComments := flattenComments (comments prev) newCollapsed 0 in
  {| view := view prev; feedType := feedType prev; posts := posts prev;
     selectedPostIndex := selectedPostIndex prev; currentPost := currentPost prev;
     comments := comments prev; flatComments := newFlatComments;
     selectedCommentIndex := selectedCommentIndex prev;
     collapsedComments := newCollapsed; loading := loading prev;
     error := error prev; statusMessage := statusMessage prev |}.

(** The updater of the back branch of the post view. *)
Definition back_to_feed (prev : AppState) : AppState :=
  {| view := feed; feedType := feedType prev; posts := posts prev;
     selectedPostIndex := selectedPostIndex prev; currentPost := None;
     comments := []; flatComments := [];
     selectedCommentIndex := selectedCommentIndex prev;
     collapsedComments := collapsedComments prev; loading := loading prev;
     error := error prev; statusMessage := statusMessage prev |}.

(** *** The handlers *)

Definition isKey (input c : string) : bool := bool_decide (input = c).

(** The [feedMap] of the number keys; [input in feedMap] is taken over the
    six keys the literal defines. *)
Definition feedMap (input : string) : option FeedType :=
  if isKey input "1" then Some TOP
  else if isKey input "2" then Some NEW
  else if isKey input "3" then Some BEST
  else if isKey input "4" then Some ASK
  else if isKey input "5" then Some SHOW
  else if isKey input "6" then Some JOB
  else None.

(** [handleHelpInput(key)]. *)
Definition handleHelpInput (state : AppState) (key : Key) : AppState * list Command :=
  if escape key then (with_view feed state, []) else (state, []).

(** [handleFeedInput(input, key)]. *)
Definition handleFeedInput (state : AppState) (input : string) (key : Key)
    : AppState * list Command :=
  if isKey input "j" || downArrow key then
    (with_selectedPostIndex
       (Z.min (selectedPostIndex state + 1) (len (posts state) - 1)) state, [])
  else if isKey input "k" || upArrow key then
    (with_selectedPostIndex (Z.max (selectedPostIndex state - 1) 0) state, [])
  else if isKey input "g" then (with_selectedPostIndex 0 state, [])
  else if isKey input "G" then
    (with_selectedPostIndex (len (posts state) - 1) state, [])
  else if return_ key then
    match at_index (posts state) (selectedPostIndex state) with
    | Some selectedPost =>
      (loadPostDetails_begin selectedPost state, [LoadPostDetails selectedPost])
    | None => (state, [])
    end
  else if isKey input "o" then
    match at_index (posts state) (selectedPostIndex state) with
    | Some selectedPost => (state, [OpenArticle selectedPost])
    | None => (state, [])
    end
  else if isKey input "c" || isKey input " " then
    match at_index (posts state) (selectedPostIndex state) with
    | Some selectedPost => (state, [OpenInBrowser selectedPost])
    | None => (state, [])
    end
  else if isKey input "r" then (loadFeed_begin state, [LoadFeed (feedType state)])
  else (state, []).

(** [handlePostInput(input, key)]. *)
Definition handlePostInput (state : AppState) (input : string) (key : Key)
    : AppState * list Command :=
  if isKey input "j" || downArrow key then
    (with_selectedCommentIndex
       (Z.min (selectedCommentIndex state + 1) (len (flatComments state) - 1)) state, [])
  else if isKey input "k" || upArrow key then
    (with_selectedCommentIndex (Z.max (selectedCommentIndex state - 1) 0) state, [])
  else if isKey input "g" then (with_selectedCommentIndex 0 state, [])
  else if isKey input "G" then
    (with_selectedCommentIndex (len (flatComments state) - 1) state, [])
  else if isKey input " " then
    match at_index (flatComments state) (selectedCommentIndex state) with
    | Some selectedComment => (toggle_selected (flat_id selectedComment) state, [])
    | None => (state, [])
    end
  else if isKey input "o" && bool_decide (currentPost state <> None) then
    match currentPost state with
    | Some p => (state, [OpenArticle p])
    | None => (state, [])
    end
  else if isKey input "c" then
    match at_index (flatComments state) (selectedCommentIndex state), currentPost state with
    | Some selectedComment, Some p => (state, [OpenComment p (flat_id selectedComment)])
    | _, _ => (state, [])
    end
  else if escape key || backspace key then (back_to_feed state, [])
  else (state, []).

(** The [useInput] callback. *)
Definition useInput (state : AppState) (input : string) (key : Key)
    : AppState * list Command :=
  if isKey input "q" && bool_decide (view state <> help) then (state, [Exit])
  else if isKey input "h" || isKey input "?" then
    (with_view (match view state with help => feed | _ => help end) state, [])
  else
    match view state, feedMap input with
    | feed, Some ft => (loadFeed_begin state, [LoadFeed ft])
    | _, _ =>
      match view state with
      | help => handleHelpInput state key
      | feed => handleFeedInput state input key
      | post => handlePostInput state input key
      end
    end.

(** *** The application as a machine over events *)

(** A key press, or the completion of a load that an earlier key press
    started.  [CommentsLoaded p cs] is [post.getComments()] of [p]
    resolving with [cs]. *)
Inductive Event :=
  | Input (input : string) (key : Key)
  | FeedLoaded (feedType : FeedType) (ps : list HackerNewsPost)
  | FeedFailed (message : string)
  | CommentsLoaded (p : HackerNewsPost) (cs : list Comment)
  | CommentsFailed (message : string).

Definition step (state : AppState) (e : Event) : AppState * list Command :=
  match e with
  | Input input key => useInput state input key
  | FeedLoaded ft ps => (loadFeed_done ft ps state, [])
  | FeedFailed message => (load_failed message state, [])
  | CommentsLoaded p cs => (loadPostDetails_done p cs state, [])
  | CommentsFailed message => (load_failed message state, [])
  end.

(** The state after a sequence of events. *)
Definition run (state : AppState) (es : list Event) : AppState :=
  fold_left (fun s e => fst (step s e)) es state.

Definition noKey : Key := mkKey false false false false false false false.
Definition press (input : string) : Event := Input input noKey.
Definition pressEscape : Event :=
  Input EmptyString (mkKey false false false false false true false).
Definition pressReturn : Event :=
  Input EmptyString (mkKey false false false false true false false).

End App.

(* ===================================================================== *)
(** ** Vocabulary of the statements: nodes, descendants, occurrences *)
(* ===================================================================== *)

Module Tree.

Import Utils.

(** The nodes of the tree rooted at a comment, the comment first. *)
Fixpoint subtree (comment : Comment) : list Comment :=
  match comment with
  | mkComment i a t tm p rs dl dd =>
    mkComment i a t tm p rs dl dd :: flat_map subtree rs
  end.

(** Every node of a list of trees. *)
Definition nodes (T : list Comment) : list Comment := flat_map subtree T.

(** The proper descendants of a node. *)
Definition descendants (comment : Comment) : list Comment := nodes (replies comment).

(** The identifiers that occur in a list of trees, with repetitions. *)
Definition ids (T : list Comment) : list Z := map comment_id (nodes T).

(** Every node of a list of trees in pre-order, each with the identifiers
    of its proper ancestors (nearest first) and its depth, counted from [d]
    at the roots below the ancestors [anc]. *)
Fixpoint preorderOf (anc : list Z) (d : Z) (comment : Comment)
    : list (list Z * Z * Comment) :=
  match comment with
  | mkComment i a t tm p rs dl dd =>
    (anc, d, mkComment i a t tm p rs dl dd) ::
    flat_map (preorderOf (i :: anc) (d + 1)) rs
  end.

Definition preorder (anc : list Z) (d : Z) (T : list Comment)
    : list (list Z * Z * Comment) :=
  flat_map (preorderOf anc d) T.

(** A node is exposed when none of its proper ancestors is collapsed. *)
Definition exposed (C : gset Z) (o : list Z * Z * Comment) : Prop :=
  Forall (fun a => a ∉ C) o.1.1.

#[global] Instance exposed_dec C o : Decision (exposed C o).
Proof. unfold exposed. apply _. Defined.

(** The flat entry of a node at its depth. *)
Definition entryOf (C : gset Z) (o : list Z * Z * Comment) : FlatComment :=
  flatOf o.2 o.1.2 (bool_decide (comment_id o.2 ∈ C)).

(** The identifiers of a flat sequence, in order. *)
Definition flat_ids (flat : list FlatComment) : list Z := map flat_id flat.

(** How many entries of a flat sequence carry identifier [i]. *)
Definition occurrences (i : Z) (flat : list FlatComment) : nat :=
  length (filter (fun f => flat_id f = i) flat).

(** A node is hidden when one of its proper ancestors in [T] is collapsed. *)
Definition hidden (T : list Comment) (C : gset Z) (n : Comment) : Prop :=
  exists a, a ∈ nodes T /\ n ∈ descendants a /\ comment_id a ∈ C.

(** The projection respects the collapse set [C], as the invariant is
    worded: nothing below a node of [C] is listed, and every node of [T]
    whose identifier is in [C] is listed exactly once, marked collapsed. *)
Definition respects_collapse (T : list Comment) (C : gset Z) : Prop :=
  (forall n m, n ∈ nodes T -> comment_id n ∈ C -> m ∈ descendants n ->
     comment_id m ∉ flat_ids (flattenComments T C 0)) /\
  (forall n, n ∈ nodes T -> comment_id n ∈ C ->
     occurrences (comment_id n) (flattenComments T C 0) = 1%nat /\
     (forall f, f ∈ flattenComments T C 0 -> flat_id f = comment_id n ->
        isCollapsed f = true)).

(** Sample trees. *)
Definition leaf (i : Z) : Comment :=
  mkComment i "pg" "text" 0 0 [] false false.
Definition node (i : Z) (rs : list Comment) : Comment :=
  mkComment i "pg" "text" 0 0 rs false false.

(** A thread with a nested reply. *)
Definition sampleThread : list Comment :=
  [node 1 [leaf 2; node 3 [leaf 4]]; leaf 5].

(** A thread in which identifier 1 occurs twice. *)
Definition repeatedThread : list Comment :=
  [node 1 [leaf 2; leaf 3; leaf 4]; leaf 5; leaf 1].

End Tree.

(* ===================================================================== *)
(** ** Vocabulary of the statements: the post view's invariants *)
(* ===================================================================== *)

Module Invariants.

Import Utils Tree Post App.

(** The flat list on screen is the projection of the stored tree under the
    stored collapse set. *)
Definition coherent (s : AppState) : Prop :=
  flatComments s = flattenComments (comments s) (collapsedComments s) 0.

(** The selected comment index points into the flat list. *)
Definition selection_in_range (s : AppState) : Prop :=
  0 <= selectedCommentIndex s < len (flatComments s).

(** The selection invariant as the navigation rules word it: in range, or
    [0] over an empty list. *)
Definition selection_ok (s : AppState) : Prop :=
  selection_in_range s \/ (flatComments s = [] /\ selectedCommentIndex s = 0).

(** A story with two top-level comments. *)
Definition samplePost : HackerNewsPost :=
  mkPost 1 "Show HN" None "pg" 0 0 0 None STORY [10; 11] None.

(** The feed view with [samplePost] listed. *)
Definition sampleFeed : AppState := loadFeed_done TOP [samplePost] initialState.

(** The post view right after three comments arrived, the second below the
    first. *)
Definition sampleDetail : AppState :=
  run sampleFeed
    [pressReturn; CommentsLoaded samplePost [node 10 [leaf 20]; leaf 11]].

(** The post view over [repeatedThread], after five moves down: the second
    occurrence of identifier 1 is selected (index 5 of 6). *)
Definition repeatedDetail : AppState :=
  run sampleFeed
    [pressReturn; CommentsLoaded samplePost repeatedThread;
     press "j"; press "j"; press "j"; press "j"; press "j"].

End Invariants.

(* ===================================================================== *)
(** ** Vocabulary of the statements: item graphs *)
(* ===================================================================== *)

Module Graph.

Import Post.

(** The item is missing for the builder: its fetch failed, or it is
    [null], deleted or dead. *)
Definition absent (net : Network) (i : Z) : bool :=
  match net_item net i with
  | Threw _ | NotOk | Json None => true
  | Json (Some item) => removed item
  end.

(** The child identifiers the builder follows from [i]. *)
Definition live_kids (net : Network) (i : Z) : list Z :=
  match net_item net i with
  | Json (Some item) => if removed item then [] else nullish (item_kids item) []
  | _ => []
  end.

(** No chain of child references among live items goes on for ever: some
    rank decreases along every reference. *)
Definition well_founded (net : Network) : Prop :=
  exists rank : Z -> nat, forall i k, k ∈ live_kids net i -> (rank k < rank i)%nat.

(** [fetchCommentTree] settles on [i]. *)
Definition settles (net : Network) (i : Z) : Prop :=
  exists fuel r, fetchCommentTree net fuel i = Some r.

(** The non-null result of a settled call. *)
Definition present (r : option (option Comment)) : option Comment :=
  match r with Some (Some c) => Some c | _ => None end.

(** Sample items and graphs. *)
Definition liveItem (i : Z) (kids : option (list Z)) : HackerNewsItem :=
  mkItem (Some i) None (Some COMMENT) (Some "pg"%string) (Some 0)
         (Some "text"%string) None (Some 0) kids None None None None.

Definition deletedItem (i : Z) : HackerNewsItem :=
  mkItem (Some i) (Some true) None None None None None None None None None None None.

Definition graph (items : Z -> Response (option HackerNewsItem)) : Network :=
  mkNetwork items (fun _ => NotOk) (fun _ => NotOk).

(** Item 10 lists itself as a child. *)
Definition selfReferential : Network :=
  graph (fun i => if i =? 10 then Json (Some (liveItem 10 (Some [10]))) else Json None).

(** Items 10 and 11 list each other. *)
Definition mutuallyReferential : Network :=
  graph (fun i =>
    if i =? 10 then Json (Some (liveItem 10 (Some [11])))
    else if i =? 11 then Json (Some (liveItem 11 (Some [10])))
    else Json None).

(** Item 10 has the child 20, item 11 is deleted, item 12 cannot be
    fetched. *)
Definition moderated : Network :=
  graph (fun i =>
    if i =? 10 then Json (Some (liveItem 10 (Some [20])))
    else if i =? 11 then Json (Some (deletedItem 11))
    else if i =? 12 then Threw "TypeError: fetch failed"
    else if i =? 20 then Json (Some (liveItem 20 None))
    else Json None).

Definition moderatedRank (i : Z) : nat := if i =? 10 then 1 else 0.

Definition postWith (kids : list Z) : HackerNewsPost :=
  mkPost 1 "Show HN" None "pg" 0 0 0 None STORY kids None.

End Graph.

(* ===================================================================== *)
(** ** Vocabulary of the statements: commands and reachable states *)
(* ===================================================================== *)

Module Machine.

Import Utils Post App.

(** The post a command acts on, if any. *)
Definition commandPost (c : Command) : option HackerNewsPost :=
  match c with
  | Exit | LoadFeed _ => None
  | LoadPostDetails p | OpenArticle p | OpenInBrowser p | OpenComment p _ => Some p
  end.

(** The selected post index points at a listed post; over an empty feed it
    is [0] or [-1]. *)
Definition post_selection_ok (s : AppState) : Prop :=
  (0 <= selectedPostIndex s < len (posts s)) \/
  (posts s = [] /\ -1 <= selectedPostIndex s <= 0).

(** A key press with no special key held. *)
Definition key (input : string) (s : AppState) : AppState :=
  fst (useInput s input noKey).

End Machine.

(* ===================================================================== *)
(** ** src/hackernews-client.ts: searchPosts *)
(* ===================================================================== *)

Module ClientSearch.

Import Post Client.

Section Search.

(** [String.prototype.toLowerCase] and [String.prototype.includes], taken
    as given. *)
Variable toLowerCase : string -> string.
Variable includes : string -> string -> bool.

(** [searchPosts(feedType, query, limit = 100)]. *)
Definition searchPosts (net : Network) (feedType : FeedType) (query : string)
    (limit : Z) : Async (list HackerNewsPost) :=
  await posts := getPosts net feedType limit in
  let lowerQuery := toLowerCase query in
  resolve (List.filter (fun post => includes (toLowerCase (title post)) lowerQuery) posts).

End Search.

End ClientSearch.

(* ===================================================================== *)
(** ** Vocabulary of the statements: networks that answer with the item asked for *)
(* ===================================================================== *)

Module Answers.

Import Post Client.

(** Every item the network delivers carries the identifier it was asked
    for. *)
Definition own_id (net : Network) : Prop :=
  forall i item, net_item net i = Json (Some item) -> item_id item = Some i.

(** No user document can be had for [username]. *)
Definition no_user (net : Network) (username : string) : Prop :=
  match net_user net username with
  | Json (Some _) => False
  | _ => True
  end.

(** A feed of three stories and a user who submitted them and a comment. *)
Definition storyItem (i : Z) : HackerNewsItem :=
  mkItem (Some i) None (Some STORY) (Some "pg"%string) (Some 0) None None None
         (Some [10 + i]) None (Some 1) (Some "Story"%string) (Some 1).

Definition commentItem (i : Z) : HackerNewsItem :=
  mkItem (Some i) None (Some COMMENT) (Some "pg"%string) (Some 0)
         (Some "text"%string) None (Some 1) None None None None None.

Definition smallSite : Network :=
  mkNetwork
    (fun i => if bool_decide (1 <= i <= 3) then Json (Some (storyItem i))
              else if bool_decide (i = 4) then Json (Some (commentItem 4))
              else Json None)
    (fun _ => Json [1; 2; 3; 99])
    (fun name => if bool_decide (name = "pg"%string)
                 then Json (Some (mkUserJson (Some "pg"%string) (Some 0) (Some 1) None
                                    (Some [4; 1; 2; 3])))
                 else Json None).

End Answers.

(* ===================================================================== *)
(** ** The FeedView component (src/tui/components/FeedView.tsx) *)
(* ===================================================================== *)

Module FeedView.

(** [isSearchMode || searchQuery ? 7 : 5]: a string is truthy when it is
    not empty. *)
Definition reservedLines (isSearchMode : bool) (searchQuery : string) : Z :=
  if isSearchMode || negb (bool_decide (searchQuery = EmptyString)) then 7 else 5.

(** [maxVisiblePosts]: each post takes about three lines. *)
Definition maxVisiblePosts (terminalHeight : Z) (isSearchMode : bool)
    (searchQuery : string) : Z :=
  (terminalHeight - reservedLines isSearchMode searchQuery) / 3.

(** The [useMemo] body that computes [{ startIndex, endIndex }]; unlike
    the one of the post view it has no test of the capacity. *)
Definition visibleWindow (selectedIndex length maxVisiblePosts : Z) : Z * Z :=
  let half := maxVisiblePosts / 2 in
  let start := Z.max 0 (selectedIndex - half) in
  let end_ := Z.min length (start + maxVisiblePosts) in
  let start :=
    if bool_decide (end_ - start < maxVisiblePosts)
    then Z.max 0 (end_ - maxVisiblePosts)
    else start in
  (start, end_).

End FeedView.

(* ===================================================================== *)
(** ** src/tui/utils.ts: text helpers *)
(* ===================================================================== *)

Module UtilsText.

(** [text.length] as a number; a string is its sequence of code units. *)
Definition strlen (text : string) : Z := Z.of_nat (String.length text).

(** [text.slice(0, e)] for an integer [e]: a negative [e] counts from the
    end. *)
Definition slice0 (text : string) (e : Z) : string :=
  let e' := if e <? 0 then Z.max 0 (strlen text + e) else Z.min e (strlen text) in
  String.substring 0 (Z.to_nat e') text.

(** [truncate(text, maxLength)]. *)
Definition truncate (text : string) (maxLength : Z) : string :=
  if bool_decide (strlen text <= maxLength) then text
  else slice0 text (maxLength - 3) +:+ "...".

(** [formatCommentCount(count)]. *)
Definition formatCommentCount (count : Z) : string :=
  if bool_decide (count = 0) then "no comments"
  else if bool_decide (count = 1) then "1 comment"
  else pretty count +:+ " comments".

(** [timeAgo(date)], with the clock reading [now] made explicit; both in
    milliseconds since the epoch. *)
Definition timeAgo (now date : Z) : string :=
  let seconds := (now - date) / 1000 in
  if bool_decide (seconds < 60) then pretty seconds +:+ "s ago"
  else
    let minutes := seconds / 60 in
    if bool_decide (minutes < 60) then pretty minutes +:+ "m ago"
    else
      let hours := minutes / 60 in
      if bool_decide (hours < 24) then pretty hours +:+ "h ago"
      else
        let days := hours / 24 in
        if bool_decide (days < 30) then pretty days +:+ "d ago"
        else
          let months := days / 30 in
          if bool_decide (months < 12) then pretty months +:+ "mo ago"
          else
            let years := months / 12 in
            pretty years +:+ "y ago".

(** [text.split(' ')]: the pieces between single spaces; never empty. *)
Fixpoint splitSpace (text : string) : list string :=
  match text with
  | EmptyString => [EmptyString]
  | String a rest =>
    if bool_decide (a = Ascii.ascii_of_nat 32) then EmptyString :: splitSpace rest
    else
      match splitSpace rest with
      | [] => [String a EmptyString]
      | w :: ws => String a w :: ws
      end
  end.

(** One iteration of the loop of [wrapText], on the pair of [lines] and
    [currentLine]. *)
Definition wrapStep (maxWidth : Z) (st : list string * string) (word : string)
    : list string * string :=
  let (lines, currentLine) := st in
  let testLine :=
    if bool_decide (strlen currentLine = 0) then word
    else currentLine +:+ " " +:+ word in
  if bool_decide (strlen testLine <= maxWidth) then (lines, testLine)
  else
    (if bool_decide (strlen currentLine > 0) then lines ++ [currentLine] else lines,
     word).

(** [wrapText(text, maxWidth)]. *)
Definition wrapText (text : string) (maxWidth : Z) : list string :=
  let (lines, currentLine) := fold_left (wrapStep maxWidth) (splitSpace text) ([], EmptyString) in
  if bool_decide (strlen currentLine > 0) then lines ++ [currentLine] else lines.

End UtilsText.

(* ===================================================================== *)
(** ** src/events/EventLogger.ts *)
(* ===================================================================== *)

Module EventLogger.

Section Logger.

(** The metadata record of an event, left abstract. *)
Context {Metadata : Type}.

(** [BaseEvent]: the type is the string value of the [EventType] enum, the
    timestamp is in milliseconds since the epoch. *)
Record AppEvent := mkEvent {
  event_id : string;
  event_type : string;
  timestamp : Z;
  metadata : Metadata
}.

(** The fields of the logger that its in-memory methods use. *)
Record Logger := mkLogger {
  events : list AppEvent;
  sessionId : string;
  startTime : Z;
  currentPostViewTime : option Z;
  currentPostId : option Z;
  currentPostTitle : option string
}.

(** [log(type, metadata)], with the fresh identifier and the clock reading
    made explicit. *)
Definition log (uuid : string) (now : Z) (type : string) (m : Metadata)
    (lg : Logger) : Logger :=
  {| events := events lg ++ [mkEvent uuid type now m];
     sessionId := sessionId lg; startTime := startTime lg;
     currentPostViewTime := currentPostViewTime lg;
     currentPostId := currentPostId lg;
     currentPostTitle := currentPostTitle lg |}.

(** [trackPostOpened(postId, postTitle)]. *)
Definition trackPostOpened (now : Z) (postId : Z) (postTitle : string)
    (lg : Logger) : Logger :=
  {| events := events lg; sessionId := sessionId lg; startTime := startTime lg;
     currentPostViewTime := Some now;
     currentPostId := Some postId;
     currentPostTitle := Some postTitle |}.

(** [trackPostClosed()]: the seconds spent, and the logger afterwards. *)
Definition trackPostClosed (now : Z) (lg : Logger) : Z * Logger :=
  match currentPostViewTime lg, currentPostId lg, currentPostTitle lg with
  | Some opened, Some _, Some _ =>
    ((now - opened) / 1000,
     {| events := events lg; sessionId := sessionId lg; startTime := startTime lg;
        currentPostViewTime := None; currentPostId := None;
        currentPostTitle := None |})
  | _, _, _ => (0, lg)
  end.

(** [getEvents()]. *)
Definition getEvents (lg : Logger) : list AppEvent := events lg.

(** [clear()]. *)
Definition clear (lg : Logger) : Logger :=
  {| events := []; sessionId := sessionId lg; startTime := startTime lg;
     currentPostViewTime := currentPostViewTime lg;
     currentPostId := currentPostId lg;
     currentPostTitle := currentPostTitle lg |}.

(** [EventFilter]: every field is optional. *)
Record EventFilter := mkFilter {
  types : option (list string);
  startDate : option Z;
  endDate : option Z;
  limit : option Z
}.

(** [xs.slice(start)] for an integer [start]: a negative [start] counts
    from the end. *)
Definition sliceFrom {A} (xs : list A) (start : Z) : list A :=
  if start <? 0 then drop (Z.to_nat (Z.max 0 (len xs + start))) xs
  else drop (Z.to_nat start) xs.

(** [getFilteredEvents(filter)]. *)
Definition getFilteredEvents (filter : EventFilter) (lg : Logger) : list AppEvent :=
  let filtered := events lg in
  let filtered :=
    match types filter with
    | Some ts =>
      if bool_decide (len ts > 0)
      then List.filter (fun e => bool_decide (event_type e ∈ ts)) filtered
      else filtered
    | None => filtered
    end in
  let filtered :=
    match startDate filter with
    | Some d => List.filter (fun e => bool_decide (timestamp e >= d)) filtered
    | None => filtered
    end in
  let filtered :=
    match endDate filter with
    | Some d => List.filter (fun e => bool_decide (timestamp e <= d)) filtered
    | None => filtered
    end in
  match limit filter with
  | Some n => sliceFrom filtered (- n)
  | None => filtered
  end.

(** [EventStats]. *)
Record EventStats := mkStats {
  totalEvents : Z;
  eventsByType : gmap string Z;
  sessionDuration : Z;
  postsViewed : Z;
  articlesOpened : Z;
  commentsViewed : Z;
  feedChanges : Z
}.

(** The counting loop of [getStats]. *)
Definition countByType (es : list AppEvent) : gmap string Z :=
  fold_left
    (fun byType e => <[event_type e := nullish (byType !! event_type e) 0 + 1]> byType)
    es ∅.

(** The number of events of one type, [filter(...).length]. *)
Definition countOf (type : string) (es : list AppEvent) : Z :=
  len (List.filter (fun e => bool_decide (event_type e = type)) es).

(** [getStats()], with the clock reading made explicit. *)
Definition getStats (now : Z) (lg : Logger) : EventStats :=
  {| totalEvents := len (events lg);
     eventsByType := countByType (events lg);
     sessionDuration := (now - startTime lg) / 1000;
     postsViewed := countOf "post.viewed" (events lg);
     articlesOpened := countOf "article.opened_browser" (events lg);
     commentsViewed := countOf "comment.viewed" (events lg);
     feedChanges := countOf "feed.changed" (events lg) |}.

End Logger.

Arguments AppEvent : clear implicits.
Arguments Logger : clear implicits.

End EventLogger.

(* ===================================================================== *)
(** ** Vocabulary of the statements: events that meet a filter *)
(* ===================================================================== *)

Module LogFilter.

Import EventLogger.

(** The event meets every criterion the filter gives: its type is one of
    the listed types (an absent or empty list allows every type), and its
    timestamp lies between the two dates that are given. *)
Definition meets {Metadata} (filter : EventFilter) (e : AppEvent Metadata) : bool :=
  match types filter with
  | Some ts => if bool_decide (len ts > 0) then bool_decide (event_type e ∈ ts) else true
  | None => true
  end
  && match startDate filter with
     | Some d => bool_decide (timestamp e >= d)
     | None => true
     end
  && match endDate filter with
     | Some d => bool_decide (timestamp e <= d)
     | None => true
     end.

(** A run of [log] calls, one per entry: identifier, clock reading, type
    and metadata. *)
Definition logAll {Metadata} (entries : list (string * Z * string * Metadata))
    (lg : Logger Metadata) : Logger Metadata :=
  fold_left (fun lg '(uuid, now, type, m) => log uuid now type m lg) entries lg.

(** The event a [log] call appends. *)
Definition logged {Metadata} (entry : string * Z * string * Metadata)
    : AppEvent Metadata :=
  let '(uuid, now, type, m) := entry in mkEvent uuid type now m.

End LogFilter.

(* ===================================================================== *)
(** ** Vocabulary of the statements: shapes of lists of lines *)
(* ===================================================================== *)

Module Shape.

Import Utils UtilsText.

(** Consecutive entries go at most one level deeper. *)
Definition gentle (l : list FlatComment) : Prop :=
  forall (i : nat) f g, l !! i = Some f -> l !! S i = Some g -> depth g <= depth f + 1.

(** A line fits the width, or is a single piece of the text. *)
Definition fits (maxWidth : Z) (words : list string) (line : string) : Prop :=
  strlen line <= maxWidth \/ line ∈ words.

End Shape.

(* ===================================================================== *)
(** ** src/hackernews-post.ts: [getComments] across its [await]s *)
(* ===================================================================== *)

Module PostAwait.

Import Post.

(** How a call of [getComments] stands after its synchronous start: it has
    returned the array [l], or it is suspended at an [await] with its local
    array [l]. *)
Inductive Started :=
  | Returned (l : loc)
  | Awaiting (l : loc).

(** [getComments()] up to its first [await]: the cached array when there
    is one; otherwise the local array [comments] is allocated and the loop
    entered, the cache being left as it is.  Over no identifiers the loop
    body never runs, so the array is stored and returned at once. *)
Definition getComments_begin (h : Heap) (p : HackerNewsPost)
    : Heap * HackerNewsPost * Started :=
  match commentsCache p with
  | Some l => (h, p, Returned l)
  | None =>
    let l := fresh (dom h) in
    match commentIds p with
    | [] => (<[l := []]> h, with_cache (Some l) p, Returned l)
    | _ :: _ => (<[l := []]> h, p, Awaiting l)
    end
  end.

(** The rest of a suspended call, once the awaited [fetchCommentTree]
    calls have settled: the local array [l] holds the comments, is written
    to the cache and returned.  The cache is not tested again. *)
Definition getComments_done (net : Network) (fuel : nat) (l : loc) (h : Heap)
    (p : HackerNewsPost) : option (Heap * HackerNewsPost * loc) :=
  match collect (fetchCommentTree net fuel) (commentIds p) with
  | None => None
  | Some comments => Some (<[l := comments]> h, with_cache (Some l) p, l)
  end.

End PostAwait.

(* ===================================================================== *)
(** ** src/hackernews-post.ts: the item requests of the tree build *)
(* ===================================================================== *)

Module PostRequests.

Import Post Client.

(** The loop of [getComments] and [fetchCommentTree] with the log of the
    requests sent so far threaded through the awaited calls, oldest first. *)
Fixpoint collectLogged
    (f : Z -> list Request -> option (list Request * option Comment))
    (ids : list Z) (log : list Request) : option (list Request * list Comment) :=
  match ids with
  | [] => Some (log, [])
  | i :: rest =>
    match f i log with
    | None => None
    | Some (log, r) =>
      match collectLogged f rest log with
      | None => None
      | Some (log, out) => Some (log, match r with Some c => c :: out | None => out end)
      end
    end
  end.

(** [fetchCommentTree(commentId)] with its requests recorded: the [fetch]
    of the item is the first thing a call does. *)
Fixpoint fetchCommentTreeLogged (net : Network) (fuel : nat) (commentId : Z)
    (log : list Request) : option (list Request * option Comment) :=
  match fuel with
  | O => None
  | S fuel' =>
    let log := log ++ [GetItem commentId] in
    match net_item net commentId with
    | Threw _ => Some (log, None)
    | NotOk => Some (log, None)
    | Json None => Some (log, None)
    | Json (Some item) =>
      if removed item then Some (log, None)
      else
        match
          (match item_kids item with
           | Some kids =>
             if bool_decide (0 < len kids)
             then collectLogged (fetchCommentTreeLogged net fuel') kids log
             else Some (log, [])
           | None => Some (log, [])
           end)
        with
        | None => None
        | Some (log, rs) => Some (log, Some (commentOf item rs))
        end
    end
  end.

End PostRequests.

(* ===================================================================== *)
(** ** Vocabulary of the statements: skipped items and the depth-first walk *)
(* ===================================================================== *)

Module Walk.

Import Post.

(** The item is skipped, as the build rules word it: it is absent, deleted
    or dead, or its fetch fails. *)
Inductive skipped (net : Network) (i : Z) : Prop :=
  | fetch_raises err : net_item net i = Threw err -> skipped net i
  | fetch_refused : net_item net i = NotOk -> skipped net i
  | item_absent : net_item net i = Json None -> skipped net i
  | item_deleted_ item :
      net_item net i = Json (Some item) -> item_deleted item = Some true -> skipped net i
  | item_dead_ item :
      net_item net i = Json (Some item) -> item_dead item = Some true -> skipped net i.

(** The item [i] is kept: its fetch delivers [item], neither deleted nor
    dead. *)
Definition kept (net : Network) (i : Z) (item : HackerNewsItem) : Prop :=
  net_item net i = Json (Some item) /\
  item_deleted item <> Some true /\ item_dead item <> Some true.

(** The node the builder is to make of a kept item over the built replies
    [rs], field by field. *)
Definition nodeOf (item : HackerNewsItem) (rs : list Comment) (c : Comment) : Prop :=
  comment_id c = nullish (item_id item) 0 /\
  comment_author c = nullish (item_by item) "unknown"%string /\
  comment_text c = nullish (item_text item) EmptyString /\
  comment_time c = nullish (item_time item) 0 * 1000 /\
  comment_parent c = nullish (item_parent item) 0 /\
  replies c = rs /\
  comment_deleted c = false /\
  comment_dead c = false.

(** [walks net ids w]: [w] lists the identifiers a depth-first walk from
    [ids] resolves, in the order in which it resolves them: each identifier
    of [ids] in turn, a kept one followed at once by the walk of its own
    [kids], before the next identifier of [ids]. *)
Inductive walks (net : Network) : list Z -> list Z -> Prop :=
  | walks_nil : walks net [] []
  | walks_skipped i ids w :
      skipped net i -> walks net ids w -> walks net (i :: ids) (i :: w)
  | walks_kept i item ids below w :
      kept net i item ->
      walks net (nullish (item_kids item) []) below ->
      walks net ids w ->
      walks net (i :: ids) (i :: below ++ w).

(** [builds net ids rs]: [rs] is the forest over [ids], in the order of
    [ids]: no node for a skipped identifier, and for a kept one the node of
    its item over the forest of its [kids]. *)
Inductive builds (net : Network) : list Z -> list Comment -> Prop :=
  | builds_nil : builds net [] []
  | builds_skipped i ids rs :
      skipped net i -> builds net ids rs -> builds net (i :: ids) rs
  | builds_kept i item ids c rs :
      kept net i item ->
      builds net (nullish (item_kids item) []) (replies c) ->
      nodeOf item (replies c) c ->
      builds net ids rs ->
      builds net (i :: ids) (c :: rs).

End Walk.

(* ===================================================================== *)
(** ** JavaScript numbers, as far as the post view needs them *)
(* ===================================================================== *)

Module JsNumber.

(** The values the numbers of the post view take: the integers, the two
    infinities and [NaN].  A quotient occurs only under [Math.ceil] or
    [Math.floor], so the division is taken together with the rounding; for
    operands below [2^53] the rounded quotient is the exact one. *)
Inductive Num := Fin (z : Z) | PosInf | NegInf | NaN.

(** [x + y], [-x] and [x - y]. *)
Definition add (x y : Num) : Num :=
  match x, y with
  | NaN, _ | _, NaN => NaN
  | PosInf, NegInf | NegInf, PosInf => NaN
  | PosInf, _ | _, PosInf => PosInf
  | NegInf, _ | _, NegInf => NegInf
  | Fin a, Fin b => Fin (a + b)
  end.

Definition neg (x : Num) : Num :=
  match x with
  | Fin a => Fin (- a)
  | PosInf => NegInf
  | NegInf => PosInf
  | NaN => NaN
  end.

Definition sub (x y : Num) : Num := add x (neg y).

(** [Math.max(x, y)] and [Math.min(x, y)]: [NaN] when either is. *)
Definition max (x y : Num) : Num :=
  match x, y with
  | NaN, _ | _, NaN => NaN
  | PosInf, _ | _, PosInf => PosInf
  | NegInf, z | z, NegInf => z
  | Fin a, Fin b => Fin (Z.max a b)
  end.

Definition min (x y : Num) : Num :=
  match x, y with
  | NaN, _ | _, NaN => NaN
  | NegInf, _ | _, NegInf => NegInf
  | PosInf, z | z, PosInf => z
  | Fin a, Fin b => Fin (Z.min a b)
  end.

(** [x < y] and [x <= y]: false when either is [NaN]. *)
Definition lt (x y : Num) : bool :=
  match x, y with
  | NaN, _ | _, NaN => false
  | _, NegInf => false
  | NegInf, _ => true
  | PosInf, _ => false
  | _, PosInf => true
  | Fin a, Fin b => bool_decide (a < b)
  end.

Definition le (x y : Num) : bool :=
  match x, y with
  | NaN, _ | _, NaN => false
  | NegInf, _ => true
  | _, PosInf => true
  | _, NegInf => false
  | PosInf, _ => false
  | Fin a, Fin b => bool_decide (a <= b)
  end.

(** [Math.floor(x / d)] for a positive integer constant [d]. *)
Definition floorDiv (x : Num) (d : Z) : Num :=
  match x with
  | Fin a => Fin (a / d)
  | PosInf => PosInf
  | NegInf => NegInf
  | NaN => NaN
  end.

(** [Math.ceil(a / b)] for integers [a] and [b]: division by zero gives an
    infinity, and [0 / 0] gives [NaN]. *)
Definition ceilDiv (a b : Z) : Num :=
  if bool_decide (b = 0) then
    if bool_decide (a = 0) then NaN
    else if bool_decide (0 < a) then PosInf else NegInf
  else Fin (- ((- a) / b)).

(** The index [Array.prototype.slice] makes of an argument: [NaN] counts as
    0, a negative number counts from the end. *)
Definition toIndex (length : Z) (x : Num) : Z :=
  match x with
  | NaN => 0
  | NegInf => 0
  | PosInf => length
  | Fin z => if z <? 0 then Z.max (length + z) 0 else Z.min z length
  end.

(** [seq.slice(start, end)]. *)
Definition slice {A} (seq : list A) (start end_ : Num) : list A :=
  let k := toIndex (len seq) start in
  let final := toIndex (len seq) end_ in
  take (Z.to_nat (final - k)) (drop (Z.to_nat k) seq).

End JsNumber.

(* ===================================================================== *)
(** ** src/tui/components/PostView.tsx: the capacity from the terminal *)
(* ===================================================================== *)

Module PostViewRender.

Import Post UtilsText JsNumber.

Section Render.

(** [stripHtml] of [utils.ts], taken as given. *)
Variable stripHtml : string -> string.

(** [Math.ceil(post.title.length / (terminalWidth - 4))]. *)
Definition titleLines (terminalWidth : Z) (post : HackerNewsPost) : Num :=
  ceilDiv (strlen (title post)) (terminalWidth - 4).

Definition postTextLines (terminalWidth : Z) (post : HackerNewsPost) : Num :=
  match text post with
  | Some t => min (Fin 3) (ceilDiv (strlen (slice0 (stripHtml t) 200)) (terminalWidth - 4))
  | None => Fin 0
  end.

Definition headerLines (terminalWidth : Z) (post : HackerNewsPost) : Num :=
  add (add (Fin 9) (titleLines terminalWidth post)) (postTextLines terminalWidth post).

(** [maxVisibleComments], from the terminal and the post. *)
Definition maxVisibleComments (terminalHeight terminalWidth : Z) (post : HackerNewsPost)
    : Num :=
  let footerLines := Fin 2 in
  let linesPerComment := 7 in
  let availableLines :=
    max (Fin 10)
        (sub (sub (Fin terminalHeight) (headerLines terminalWidth post)) footerLines) in
  max (Fin 1) (floorDiv availableLines linesPerComment).

(** The [useMemo] body, over the capacity as the component computes it. *)
Definition visibleWindow (selectedCommentIndex length : Z) (maxVisibleComments : Num)
    : Num * Num :=
  if le maxVisibleComments (Fin 0) then (Fin 0, Fin 0)
  else
    let half := floorDiv maxVisibleComments 2 in
    let start := max (Fin 0) (sub (Fin selectedCommentIndex) half) in
    let end_ := min (Fin length) (add start maxVisibleComments) in
    let start :=
      if lt (sub end_ start) maxVisibleComments
      then max (Fin 0) (sub end_ maxVisibleComments)
      else start in
    (start, end_).

(** [visibleComments = flatComments.slice(startIndex, endIndex)]. *)
Definition visibleComments {A} (flatComments : list A) (selectedCommentIndex : Z)
    (maxVisibleComments : Num) : list A :=
  let (startIndex, endIndex) :=
    visibleWindow selectedCommentIndex (len flatComments) maxVisibleComments in
  slice flatComments startIndex endIndex.

End Render.

End PostViewRender.

(* ===================================================================== *)
(** * Properties *)
(* ===================================================================== *)

(** ** Lists *)

Section ListFacts.

Context {A B : Type}.

Lemma elem_of_flat_map (f : A -> list B) (l : list A) (y : B) :
  y ∈ flat_map f l <-> exists x, x ∈ l /\ y ∈ f x.
Proof.
  rewrite list_elem_of_In, in_flat_map.
  split; intros (x & Hx & Hy); exists x; split;
    first [ by apply list_elem_of_In | by apply list_elem_of_In in Hx
          | by apply list_elem_of_In in Hy ].
Qed.

Lemma elem_of_map (f : A -> B) (l : list A) (y : B) :
  y ∈ map f l <-> exists x, f x = y /\ x ∈ l.
Proof.
  rewrite list_elem_of_In, in_map_iff.
  split; intros (x & Hx & Hy); exists x; split; auto;
    first [ by apply list_elem_of_In | by apply list_elem_of_In in Hy ].
Qed.

End ListFacts.

(** ** Comment trees *)

Section TreeFacts.

Import Utils Tree.

(** Induction over a list of trees: the replies of the head, then the tail. *)
Lemma forest_ind (P : list Comment -> Prop) :
  P [] ->
  (forall c cs, P (replies c) -> P cs -> P (c :: cs)) ->
  forall T, P T.
Proof.
  intros Hnil Hcons.
  assert (Hreplies : forall c, P (replies c)).
  { fix IH 1. intros [i a t tm p rs dl dd]. simpl.
    induction rs as [|r rs IHrs]; [exact Hnil|].
    apply Hcons; [apply IH | exact IHrs]. }
  induction T as [|c cs IHcs]; [exact Hnil|].
  apply Hcons; [apply Hreplies | exact IHcs].
Qed.

Lemma subtree_unfold c : subtree c = c :: nodes (replies c).
Proof. by destruct c. Qed.

Lemma nodes_cons c cs : nodes (c :: cs) = c :: nodes (replies c) ++ nodes cs.
Proof. unfold nodes at 1. simpl. by rewrite subtree_unfold. Qed.

Lemma ids_cons c cs :
  ids (c :: cs) = comment_id c :: ids (replies c) ++ ids cs.
Proof. unfold ids. by rewrite nodes_cons, map_cons, map_app. Qed.

(** The unfolding of the loop body: the [length > 0] test only skips a
    call that would return the empty array. *)
Lemma flattenComment_unfold C d c :
  flattenComment C d c =
  flatOf c d (bool_decide (comment_id c ∈ C)) ::
  (if bool_decide (comment_id c ∈ C) then []
   else flattenComments (replies c) C (d + 1)).
Proof.
  destruct c as [i a t tm p rs dl dd]. simpl.
  destruct (bool_decide (i ∈ C)); simpl; [done|].
  destruct rs; [done|]. by rewrite bool_decide_eq_true_2 by (unfold len; simpl; lia).
Qed.

Lemma flattenComments_nil C d : flattenComments [] C d = [].
Proof. done. Qed.

Lemma flattenComments_cons C d c cs :
  flattenComments (c :: cs) C d =
  flatOf c d (bool_decide (comment_id c ∈ C)) ::
  (if bool_decide (comment_id c ∈ C) then []
   else flattenComments (replies c) C (d + 1)) ++ flattenComments cs C d.
Proof. unfold flattenComments at 1. simpl. by rewrite flattenComment_unfold. Qed.

Lemma flat_ids_cons C d c cs :
  flat_ids (flattenComments (c :: cs) C d) =
  comment_id c ::
  (if bool_decide (comment_id c ∈ C) then []
   else flat_ids (flattenComments (replies c) C (d + 1)))
  ++ flat_ids (flattenComments cs C d).
Proof.
  rewrite flattenComments_cons. unfold flat_ids. rewrite map_cons, map_app.
  by destruct (bool_decide _).
Qed.

(** The projection lists identifiers of the tree, in tree order. *)
Lemma flat_ids_sublist T C : forall d,
  flat_ids (flattenComments T C d) `sublist_of` ids T.
Proof.
  induction T as [|c cs IHr IHcs] using forest_ind; intros d.
  - constructor.
  - rewrite flat_ids_cons, ids_cons. apply sublist_skip, sublist_app; [|done].
    destruct (bool_decide _); [apply sublist_nil_l | done].
Qed.

Lemma flat_ids_in_ids T C d i :
  i ∈ flat_ids (flattenComments T C d) -> i ∈ ids T.
Proof. intros Hi. exact (elem_of_sublist _ _ _ Hi (flat_ids_sublist T C d)). Qed.

Lemma flat_ids_NoDup T C d :
  NoDup (ids T) -> NoDup (flat_ids (flattenComments T C d)).
Proof. intros H. exact (sublist_NoDup _ _ H (flat_ids_sublist T C d)). Qed.

Lemma node_id_in_ids T n : n ∈ nodes T -> comment_id n ∈ ids T.
Proof. intros Hn. apply elem_of_map. eauto. Qed.

(** The descendants of a node of [T] are nodes of [T]. *)
Lemma descendants_in_nodes T : forall n m,
  n ∈ nodes T -> m ∈ descendants n -> m ∈ nodes T.
Proof.
  induction T as [|c cs IHr IHcs] using forest_ind; intros n m Hn Hm.
  - by apply elem_of_nil in Hn.
  - rewrite nodes_cons in Hn |- *.
    apply elem_of_cons in Hn as [->|Hn]; [|apply elem_of_app in Hn as [Hn|Hn]].
    + apply elem_of_cons; right. apply elem_of_app; by left.
    + apply elem_of_cons; right. apply elem_of_app; left. eauto.
    + apply elem_of_cons; right. apply elem_of_app; right. eauto.
Qed.

(** Every entry is marked by the membership of its identifier. *)
Lemma flatten_marks T C : forall d f,
  f ∈ flattenComments T C d -> isCollapsed f = bool_decide (flat_id f ∈ C).
Proof.
  induction T as [|c cs IHr IHcs] using forest_ind; intros d f Hf.
  - by apply elem_of_nil in Hf.
  - rewrite flattenComments_cons in Hf.
    apply elem_of_cons in Hf as [->|Hf]; [done|].
    apply elem_of_app in Hf as [Hf|Hf]; [|eauto].
    destruct (bool_decide (comment_id c ∈ C)); [by apply elem_of_nil in Hf | eauto].
Qed.

End TreeFacts.

(** ** The projection and the collapse set *)

Section Projection.

Import Utils Tree.

Lemma ids_NoDup_cons c cs :
  NoDup (ids (c :: cs)) ->
  (comment_id c ∉ ids (replies c)) /\ (comment_id c ∉ ids cs) /\
  NoDup (ids (replies c)) /\ NoDup (ids cs) /\
  (forall i, i ∈ ids (replies c) -> i ∉ ids cs).
Proof.
  rewrite ids_cons, NoDup_cons, NoDup_app, not_elem_of_app.
  intros ((H1 & H2) & H3 & H4 & H5). by split_and!.
Qed.

(** With distinct identifiers, nothing below a collapsed node is listed. *)
Lemma collapsed_hides T C : forall d n m,
  NoDup (ids T) ->
  n ∈ nodes T -> comment_id n ∈ C -> m ∈ descendants n ->
  comment_id m ∉ flat_ids (flattenComments T C d).
Proof.
  induction T as [|c cs IHr IHcs] using forest_ind; intros d n m Hnd Hn HC Hm.
  - by apply elem_of_nil in Hn.
  - apply ids_NoDup_cons in Hnd as (Hc1 & Hc2 & Hnd1 & Hnd2 & Hdisj).
    rewrite flat_ids_cons. rewrite nodes_cons in Hn.
    apply elem_of_cons in Hn as [->|Hn]; [|apply elem_of_app in Hn as [Hn|Hn]].
    + (* the head itself is collapsed *)
      rewrite bool_decide_eq_true_2 by done. simpl.
      assert (Hmid : comment_id m ∈ ids (replies c)) by by apply node_id_in_ids.
      intros [Heq|Hin]%elem_of_cons; [by rewrite Heq in Hmid|].
      apply flat_ids_in_ids in Hin. by eapply Hdisj.
    + (* the collapsed node lies below the head *)
      assert (Hm' : m ∈ nodes (replies c)) by by eapply descendants_in_nodes.
      assert (Hmid : comment_id m ∈ ids (replies c)) by by apply node_id_in_ids.
      intros [Heq|Hin]%elem_of_cons; [by rewrite Heq in Hmid|].
      apply elem_of_app in Hin as [Hin|Hin].
      * destruct (bool_decide (comment_id c ∈ C)); [by apply elem_of_nil in Hin|].
        exact (IHr _ n m Hnd1 Hn HC Hm Hin).
      * apply flat_ids_in_ids in Hin. by eapply Hdisj.
    + (* the collapsed node lies in a later tree *)
      assert (Hm' : m ∈ nodes cs) by by eapply descendants_in_nodes.
      assert (Hmid : comment_id m ∈ ids cs) by by apply node_id_in_ids.
      intros [Heq|Hin]%elem_of_cons; [by rewrite Heq in Hmid|].
      apply elem_of_app in Hin as [Hin|Hin].
      * destruct (bool_decide (comment_id c ∈ C)); [by apply elem_of_nil in Hin|].
        apply flat_ids_in_ids in Hin. by eapply Hdisj.
      * exact (IHcs _ n m Hnd2 Hn HC Hm Hin).
Qed.

(** A node with no collapsed proper ancestor is listed. *)
Lemma visible_listed T C : forall d n,
  n ∈ nodes T -> ~ hidden T C n ->
  comment_id n ∈ flat_ids (flattenComments T C d).
Proof.
  induction T as [|c cs IHr IHcs] using forest_ind; intros d n Hn Hvis.
  - by apply elem_of_nil in Hn.
  - rewrite flat_ids_cons. rewrite nodes_cons in Hn.
    apply elem_of_cons in Hn as [->|Hn]; [by left|right].
    apply elem_of_app in Hn as [Hn|Hn]; apply elem_of_app.
    + left. rewrite bool_decide_eq_false_2.
      * apply IHr; [done|]. intros (a & Ha & Hna & HaC). apply Hvis.
        exists a. split_and!; [|done..]. rewrite nodes_cons.
        apply elem_of_cons; right. apply elem_of_app; by left.
      * intros HcC. apply Hvis. exists c. split_and!; [|done..].
        rewrite nodes_cons. by left.
    + right. apply IHcs; [done|]. intros (a & Ha & Hna & HaC). apply Hvis.
      exists a. split_and!; [|done..]. rewrite nodes_cons.
      apply elem_of_cons; right. apply elem_of_app; by right.
Qed.

Lemma occurrences_cons i f flat :
  occurrences i (f :: flat) =
  ((if bool_decide (flat_id f = i) then 1 else 0) + occurrences i flat)%nat.
Proof.
  unfold occurrences. rewrite filter_cons.
  case_decide; [rewrite bool_decide_eq_true_2 | rewrite bool_decide_eq_false_2]; done.
Qed.

Lemma occurrences_absent i flat :
  i ∉ flat_ids flat -> occurrences i flat = 0%nat.
Proof.
  induction flat as [|f flat IH]; [done|]. unfold flat_ids. simpl.
  intros [Hne Hin]%not_elem_of_cons. rewrite occurrences_cons.
  rewrite bool_decide_eq_false_2 by done. by rewrite IH.
Qed.

Lemma occurrences_once i flat :
  NoDup (flat_ids flat) -> i ∈ flat_ids flat -> occurrences i flat = 1%nat.
Proof.
  induction flat as [|f flat IH]; unfold flat_ids; simpl.
  - intros _ Hin. by apply elem_of_nil in Hin.
  - intros [Hnot Hnd]%NoDup_cons Hin. rewrite occurrences_cons.
    apply elem_of_cons in Hin as [->|Hin].
    + rewrite bool_decide_eq_true_2 by done. by rewrite occurrences_absent.
    + rewrite bool_decide_eq_false_2; [by rewrite IH|].
      intros Heq. apply Hnot. by rewrite Heq.
Qed.

Lemma preorder_cons anc d c cs :
  preorder anc d (c :: cs) =
  (anc, d, c) :: preorder (comment_id c :: anc) (d + 1) (replies c)
  ++ preorder anc d cs.
Proof. unfold preorder at 1. simpl. by destruct c. Qed.

(** The traversal visits every node, in the order of [nodes]. *)
Lemma preorder_nodes T : forall anc d, map snd (preorder anc d T) = nodes T.
Proof.
  induction T as [|c cs IHr IHcs] using forest_ind; intros anc d; [done|].
  by rewrite preorder_cons, nodes_cons, map_cons, map_app, IHr, IHcs.
Qed.

(** Below a collapsed ancestor nothing is exposed. *)
Lemma nothing_exposed_below C T : forall anc d,
  ~ Forall (fun a => a ∉ C) anc ->
  filter (exposed C) (preorder anc d T) = [].
Proof.
  induction T as [|c cs IHr IHcs] using forest_ind; intros anc d Hanc; [done|].
  rewrite preorder_cons, filter_cons_False by done.
  rewrite filter_app, IHr, IHcs; [done..|].
  intros [_ Htail]%Forall_cons. by apply Hanc.
Qed.

(** The projection is the pre-order traversal restricted to the exposed
    nodes. *)
Lemma flatten_preorder C T : forall anc d,
  Forall (fun a => a ∉ C) anc ->
  flattenComments T C d = map (entryOf C) (filter (exposed C) (preorder anc d T)).
Proof.
  induction T as [|c cs IHr IHcs] using forest_ind; intros anc d Hanc; [done|].
  rewrite flattenComments_cons, preorder_cons, filter_cons_True by done.
  rewrite filter_app, map_cons, map_app, <- (IHcs anc d Hanc).
  f_equal. f_equal. case_bool_decide as Hc.
  - rewrite nothing_exposed_below; [done|].
    intros [Hhead _]%Forall_cons. by apply Hhead.
  - apply IHr. by apply Forall_cons.
Qed.

End Projection.

(** ** Toggling a listed identifier keeps its place *)

Section TogglePosition.

Import Utils Tree App.

(** Two collapse sets that agree except perhaps at [x] give projections
    that agree up to the first entry with identifier [x]; if there is no
    such entry they agree everywhere. *)
Lemma flatten_agree_upto (x : Z) (C C' : gset Z) T :
  (forall y, y <> x -> y ∈ C <-> y ∈ C') ->
  forall d,
    (x ∉ flat_ids (flattenComments T C d) ->
     flattenComments T C' d = flattenComments T C d) /\
    (x ∈ flat_ids (flattenComments T C d) ->
     exists pre f post f' post',
       flattenComments T C d = pre ++ f :: post /\
       flattenComments T C' d = pre ++ f' :: post' /\
       flat_id f = x /\ flat_id f' = x /\ x ∉ flat_ids pre).
Proof.
  intros Hagree.
  induction T as [|c cs IHr IHcs] using forest_ind; intros d.
  - split; [done|]. intros Hin. by apply elem_of_nil in Hin.
  - rewrite flat_ids_cons, !flattenComments_cons.
    destruct (decide (comment_id c = x)) as [Hcx|Hcx].
    + subst x. split; [intros Hnot; exfalso; apply Hnot; by left|]. intros _.
      eexists [], _, _, _, _. split_and!; [reflexivity..| | |]; try done.
      unfold flat_ids; simpl. apply not_elem_of_nil.
    + assert (Hb : bool_decide (comment_id c ∈ C') = bool_decide (comment_id c ∈ C)).
      { apply bool_decide_ext. symmetry. by apply Hagree. }
      rewrite Hb.
      destruct (IHcs d) as [IHcs1 IHcs2].
      destruct (bool_decide (comment_id c ∈ C)) eqn:Hc; simpl.
      * split.
        -- intros [_ Hnot]%not_elem_of_cons. by rewrite IHcs1.
        -- intros [?|Hin]%elem_of_cons; [congruence|].
           destruct (IHcs2 Hin) as (pre & f & post & f' & post' & E1 & E2 & F1 & F2 & Hpre).
           eexists (_ :: pre), f, post, f', post'. rewrite E1, E2.
           split_and!; try done. unfold flat_ids; simpl.
           apply not_elem_of_cons. by split.
      * destruct (IHr (d + 1)) as [IHr1 IHr2]. split.
        -- intros [_ [Hn1 Hn2]%not_elem_of_app]%not_elem_of_cons.
           by rewrite IHr1, IHcs1.
        -- intros [?|Hin]%elem_of_cons; [congruence|].
           destruct (decide (x ∈ flat_ids (flattenComments (replies c) C (d + 1))))
             as [Hin1|Hnot1].
           ++ destruct (IHr2 Hin1) as (pre & f & post & f' & post' & E1 & E2 & F1 & F2 & Hpre).
              eexists (_ :: pre), f, (post ++ _), f', (post' ++ _). rewrite E1, E2.
              split_and!; try done.
              ** simpl. by rewrite <- app_assoc.
              ** simpl. by rewrite <- app_assoc.
              ** unfold flat_ids; simpl. apply not_elem_of_cons. by split.
           ++ apply elem_of_app in Hin as [Hin|Hin]; [done|].
              destruct (IHcs2 Hin) as (pre & f & post & f' & post' & E1 & E2 & F1 & F2 & Hpre).
              eexists (_ :: _ ++ pre), f, post, f', post'. rewrite E1, E2, IHr1 by done.
              split_and!; try done.
              ** simpl. by rewrite <- app_assoc.
              ** simpl. by rewrite <- app_assoc.
              ** unfold flat_ids in *; simpl. rewrite map_app.
                 apply not_elem_of_cons; split; [done|].
                 apply not_elem_of_app. by split.
Qed.

Lemma toggleCollapsed_other (x y : Z) (C : gset Z) :
  y <> x -> y ∈ C <-> y ∈ toggleCollapsed x C.
Proof.
  intros Hy. unfold toggleCollapsed. case_bool_decide.
  - rewrite elem_of_difference, elem_of_singleton. tauto.
  - rewrite elem_of_union, elem_of_singleton. tauto.
Qed.

(** In a sequence without repeated identifiers, the entry with identifier
    [x] sits right after any prefix that ends before it. *)
Lemma unique_position (flat pre post : list FlatComment) f f0 (i : nat) :
  NoDup (flat_ids flat) ->
  flat = pre ++ f0 :: post -> flat_id f0 = flat_id f ->
  flat !! i = Some f -> i = length pre.
Proof.
  intros Hnd -> Hid Hi.
  unfold flat_ids in Hnd. rewrite map_app, map_cons in Hnd.
  apply NoDup_app in Hnd as (_ & Hdisj & [Hpost _]%NoDup_cons).
  destruct (Nat.lt_trichotomy i (length pre)) as [Hlt|[Heq|Hgt]]; [|done|]; exfalso.
  - rewrite lookup_app_l in Hi by done.
    apply (Hdisj (flat_id f)).
    + apply elem_of_map. exists f. split; [done|]. by eapply list_elem_of_lookup_2.
    + rewrite Hid. by left.
  - rewrite lookup_app_r in Hi by lia.
    destruct (i - length pre)%nat as [|j] eqn:Hj; [lia|]. simpl in Hi.
    apply Hpost. rewrite Hid. apply elem_of_map. exists f.
    split; [done|]. by eapply list_elem_of_lookup_2.
Qed.

(** The selected entry keeps its index when its own identifier is toggled. *)
Lemma toggle_keeps_position T C d (i : nat) f :
  NoDup (ids T) ->
  flattenComments T C d !! i = Some f ->
  exists f',
    flattenComments T (toggleCollapsed (flat_id f) C) d !! i = Some f' /\
    flat_id f' = flat_id f.
Proof.
  intros Hnd Hi.
  destruct (flatten_agree_upto (flat_id f) C (toggleCollapsed (flat_id f) C) T
              (fun y Hy => toggleCollapsed_other _ y C Hy) d) as [_ Hin].
  destruct Hin as (pre & f0 & post & f' & post' & E & E' & F & F' & _).
  { apply elem_of_map. exists f. split; [done|]. by eapply list_elem_of_lookup_2. }
  assert (i = length pre) as ->.
  { eapply unique_position; [by apply (flat_ids_NoDup T C d)|exact E|exact F|exact Hi]. }
  exists f'. split; [|done]. rewrite E'. by rewrite list_lookup_middle.
Qed.

End TogglePosition.

(** ** The projection respects the collapse set *)

Section FlattenProperties.

Import Utils Tree App.

(** C1 (amended).  For every list of comment trees, collapse set [C] and
    starting depth, the projection is the pre-order traversal of the trees
    restricted to the nodes that have no proper ancestor with identifier in
    [C], each such node giving one entry at its depth with [isCollapsed]
    equal to the membership of its identifier in [C].  Hence, for trees with
    distinct identifiers: no descendant of a node whose identifier is in [C]
    is listed, and every node whose identifier is in [C] and that has no
    proper ancestor in [C] is listed exactly once; and every listed entry
    whose identifier is in [C] is marked collapsed. *)
Theorem flatten_respects_visible_collapse (T : list Comment) (C : gset Z) (d : Z) :
  flattenComments T C d = map (entryOf C) (filter (exposed C) (preorder [] d T)) /\
  (NoDup (ids T) ->
   (forall n m, n ∈ nodes T -> comment_id n ∈ C -> m ∈ descendants n ->
      comment_id m ∉ flat_ids (flattenComments T C d)) /\
   (forall n, n ∈ nodes T -> comment_id n ∈ C -> ~ hidden T C n ->
      occurrences (comment_id n) (flattenComments T C d) = 1%nat)) /\
  (forall f, f ∈ flattenComments T C d ->
     isCollapsed f = bool_decide (flat_id f ∈ C)).
Proof.
  split_and!.
  - by apply flatten_preorder.
  - intros Hnd. split.
    + intros n m Hn HC Hm. by eapply collapsed_hides.
    + intros n Hn _ Hvis. apply occurrences_once.
      * by apply flat_ids_NoDup.
      * by apply visible_listed.
  - intros f Hf. by eapply flatten_marks.
Qed.

Lemma flatten_respects_visible_collapse_witness :
  NoDup (ids sampleThread) /\
  (forall n m, n ∈ nodes sampleThread -> comment_id n ∈ ({[3]} : gset Z) ->
     m ∈ descendants n ->
     comment_id m ∉ flat_ids (flattenComments sampleThread {[3]} 0)) /\
  (forall n, n ∈ nodes sampleThread -> comment_id n ∈ ({[3]} : gset Z) ->
     ~ hidden sampleThread {[3]} n ->
     occurrences (comment_id n) (flattenComments sampleThread {[3]} 0) = 1%nat).
Proof.
  assert (Hnd : NoDup (ids sampleThread)).
  { apply (bool_decide_unpack _). vm_compute. exact I. }
  split; [exact Hnd|].
  exact (proj1 (proj2 (flatten_respects_visible_collapse sampleThread {[3]} 0)) Hnd).
Defined.

(** C1, as worded, fails: a collapsed reply under a collapsed parent is a
    node whose identifier is in the collapse set, and it is not listed. *)
Lemma collapsed_under_collapsed_not_listed :
  NoDup (ids [node 1 [leaf 2]]) /\
  flat_ids (flattenComments [node 1 [leaf 2]] {[1; 2]} 0) = [1] /\
  ~ respects_collapse [node 1 [leaf 2]] {[1; 2]}.
Proof.
  split_and!.
  - apply (bool_decide_unpack _). vm_compute. exact I.
  - vm_compute. reflexivity.
  - intros [_ Hlisted].
    destruct (Hlisted (leaf 2)) as [Hocc _].
    + unfold nodes. simpl. apply elem_of_cons; right. by left.
    + simpl. apply elem_of_union; right. by apply elem_of_singleton.
    + vm_compute in Hocc. discriminate Hocc.
Qed.

End FlattenProperties.

(** ** The viewport window *)

Section WindowProperties.

Import PostView.

Lemma maxVisibleComments_positive terminalHeight headerLines :
  0 < maxVisibleComments terminalHeight headerLines.
Proof. unfold maxVisibleComments. lia. Qed.

(** C3.  With a positive capacity and the selected index in range, the
    window [(start, end)] satisfies [0 <= start <= i < end <= len seq] and
    [end - start = min cap (len seq)], and [start] is [i - cap / 2] (floor
    division) clamped to [[0, len seq - cap]] (0 when the sequence is shorter
    than the capacity); a capacity of zero or less gives [(0, 0)]; and on a
    sequence of 100 entries, index 50 and capacity 10 give [(45, 55)]. *)
Theorem window_in_bounds {A} (seq : list A) (i cap : Z) :
  (0 < cap -> 0 <= i < len seq ->
   let (start, end_) := window seq i cap in
   0 <= start <= i /\ i < end_ <= len seq /\
   end_ - start = Z.min cap (len seq) /\
   start = Z.max 0 (Z.min (i - cap / 2) (len seq - cap))) /\
  (cap <= 0 -> window seq i cap = (0, 0)) /\
  window (seqZ 0 100) 50 10 = (45, 55).
Proof.
  split_and!.
  - intros Hcap Hi. unfold window, visibleWindow.
    rewrite bool_decide_eq_false_2 by lia.
    assert (Hhalf : 0 <= cap / 2 < cap) by (Z.div_mod_to_equations; lia).
    generalize dependent (cap / 2). intros half Hhalf.
    case_bool_decide; lia.
  - intros Hcap. unfold window, visibleWindow.
    by rewrite bool_decide_eq_true_2 by lia.
  - vm_compute. reflexivity.
Qed.

Lemma window_in_bounds_witness :
  let (start, end_) := window (seqZ 0 7) 6 3 in
  0 <= start <= 6 /\ 6 < end_ <= len (seqZ 0 7) /\
  end_ - start = Z.min 3 (len (seqZ 0 7)) /\
  start = Z.max 0 (Z.min (6 - 3 / 2) (len (seqZ 0 7) - 3)).
Proof.
  destruct (window_in_bounds (seqZ 0 7) 6 3) as [Hpos _].
  apply Hpos; [lia | vm_compute; split; [discriminate | reflexivity]].
Defined.

End WindowProperties.

(** ** Selection in the post view *)

Section SelectionProperties.

Import Utils Tree Post App Invariants.

Lemma at_index_Some {A} (xs : list A) (i : Z) (x : A) :
  at_index xs i = Some x <-> 0 <= i /\ xs !! Z.to_nat i = Some x.
Proof.
  unfold at_index. destruct (i <? 0) eqn:Hi.
  - apply Z.ltb_lt in Hi. split; [done | lia].
  - apply Z.ltb_ge in Hi. tauto.
Qed.

Lemma at_index_in_range {A} (xs : list A) (i : Z) (x : A) :
  at_index xs i = Some x -> 0 <= i < len xs.
Proof.
  intros [Hi Hx]%at_index_Some. apply lookup_lt_Some in Hx. unfold len. lia.
Qed.

(** The toggle on the selected entry keeps the index inside the new list. *)
Lemma toggle_selected_in_range (s : AppState) f :
  NoDup (ids (comments s)) -> coherent s ->
  at_index (flatComments s) (selectedCommentIndex s) = Some f ->
  selection_in_range (toggle_selected (flat_id f) s).
Proof.
  intros Hnd Hco [Hi Hf]%at_index_Some. rewrite Hco in Hf.
  destruct (toggle_keeps_position _ _ _ _ _ Hnd Hf) as (f' & Hf' & _).
  apply lookup_lt_Some in Hf'.
  unfold selection_in_range, toggle_selected, len. simpl. lia.
Qed.

(** C2 (amended).  In the post view, with the selected comment index
    within [[0, flatLength - 1]], a key press that stays in the post view is
    one of two things.  Either it leaves the flat list, the tree and the
    collapse set as they are and keeps the index within
    [[0, flatLength - 1]]: the moves are clamped.  Or it is the collapse
    toggle of the selected entry: the flat list becomes the projection of the
    stored tree under the toggled set and the index is left as it is, with no
    re-clamp, so that it is in range afterwards exactly when it is below the
    new length.  When, before the toggle, the flat list is the projection of
    the stored tree under the stored collapse set and the identifiers are
    distinct, the toggled entry keeps its place: the index still points at
    it, and is in range. *)
Theorem post_input_keeps_selection (s : AppState) (input : string) (key : Key) :
  view s = post ->
  selection_in_range s ->
  view (fst (useInput s input key)) = post ->
  let s' := fst (useInput s input key) in
  (flatComments s' = flatComments s /\ comments s' = comments s /\
   collapsedComments s' = collapsedComments s /\ selection_in_range s') \/
  (exists f,
     at_index (flatComments s) (selectedCommentIndex s) = Some f /\
     s' = toggle_selected (flat_id f) s /\
     selectedCommentIndex s' = selectedCommentIndex s /\
     comments s' = comments s /\
     collapsedComments s' = toggleCollapsed (flat_id f) (collapsedComments s) /\
     flatComments s' = flattenComments (comments s) (collapsedComments s') 0 /\
     (selection_in_range s' <-> selectedCommentIndex s < len (flatComments s')) /\
     (coherent s -> NoDup (ids (comments s)) ->
      selection_in_range s' /\
      exists f', at_index (flatComments s') (selectedCommentIndex s') = Some f' /\
                 flat_id f' = flat_id f)).
Proof.
  intros Hview Hsel. cbv zeta.
  unfold useInput, handlePostInput. rewrite Hview.
  unfold selection_in_range in *.
  repeat
    match goal with
    | |- context [if ?b then _ else _] => destruct b eqn:?
    | |- context [match at_index ?l ?i with _ => _ end] => destruct (at_index l i) eqn:?
    | |- context [match currentPost ?s with _ => _ end] => destruct (currentPost s) eqn:?
    | |- context [match feedMap ?i with _ => _ end] => destruct (feedMap i) eqn:?
    end;
    simpl; intros Hview'; try discriminate Hview';
    try (left; split_and!; first [done | lia]).
  right.
  match goal with
  | Hf : at_index _ _ = Some ?f |- _ => exists f; rename Hf into Hat
  end.
  split_and!; try done.
  - split; [intros [_ Hlt]; exact Hlt | intros Hlt; split; [lia | exact Hlt]].
  - intros Hco Hnd.
    assert (Hf := Hat). apply at_index_Some in Hf as [Hi Hf]. rewrite Hco in Hf.
    destruct (toggle_keeps_position _ _ _ _ _ Hnd Hf) as (f' & Hf' & Hid).
    split.
    + apply lookup_lt_Some in Hf'. unfold len. lia.
    + exists f'. split; [|exact Hid]. apply at_index_Some. by split.
Qed.

Lemma post_input_keeps_selection_witness :
  let s' := fst (useInput sampleDetail " " noKey) in
  (flatComments s' = flatComments sampleDetail /\ comments s' = comments sampleDetail /\
   collapsedComments s' = collapsedComments sampleDetail /\ selection_in_range s') \/
  (exists f,
     at_index (flatComments sampleDetail) (selectedCommentIndex sampleDetail) = Some f /\
     s' = toggle_selected (flat_id f) sampleDetail /\
     selectedCommentIndex s' = selectedCommentIndex sampleDetail /\
     comments s' = comments sampleDetail /\
     collapsedComments s' = toggleCollapsed (flat_id f) (collapsedComments sampleDetail) /\
     flatComments s' = flattenComments (comments sampleDetail) (collapsedComments s') 0 /\
     (selection_in_range s' <->
      selectedCommentIndex sampleDetail < len (flatComments s')) /\
     (coherent sampleDetail -> NoDup (ids (comments sampleDetail)) ->
      selection_in_range s' /\
      exists f', at_index (flatComments s') (selectedCommentIndex s') = Some f' /\
                 flat_id f' = flat_id f)).
Proof.
  apply (post_input_keeps_selection sampleDetail " " noKey).
  - reflexivity.
  - vm_compute. split; [discriminate | reflexivity].
  - reflexivity.
Defined.

(** C2, as worded, fails.  The application reaches, over a tree with
    distinct identifiers, a state of the post view whose index is in range
    and which a collapse toggle takes out of range: after Enter, Escape and
    Enter on one post, the first result, a toggle, the second result and a
    move to the end, the toggle shrinks the flat list to two entries and
    leaves the index at 4.  Over a flat list that is the projection of a
    tree with a repeated identifier, the toggle shrinks the list to three
    entries and leaves the index at 5.  And over an empty flat list a move
    down sets the index to [-1]. *)
Lemma selection_leaves_range :
  (let s := run initialState
              [FeedLoaded TOP [samplePost]; pressReturn; pressEscape; pressReturn;
               CommentsLoaded samplePost sampleThread; press " ";
               CommentsLoaded samplePost sampleThread; press "G"] in
   view s = post /\ NoDup (ids (comments s)) /\ selection_in_range s /\
   len (flatComments (fst (useInput s " " noKey))) = 2 /\
   selectedCommentIndex (fst (useInput s " " noKey)) = 4 /\
   ~ selection_ok (fst (useInput s " " noKey))) /\
  (let s := repeatedDetail in
   view s = post /\ coherent s /\ selection_in_range s /\
   len (flatComments (fst (useInput s " " noKey))) = 3 /\
   selectedCommentIndex (fst (useInput s " " noKey)) = 5 /\
   ~ selection_ok (fst (useInput s " " noKey))) /\
  (let s := run sampleFeed [pressReturn] in
   view s = post /\ flatComments s = [] /\ selectedCommentIndex s = 0 /\
   selectedCommentIndex (fst (useInput s "j" noKey)) = -1).
Proof.
  cbv zeta. unfold selection_in_range.
  split_and!;
    first
      [ reflexivity
      | vm_compute; reflexivity
      | vm_compute; discriminate
      | apply (bool_decide_unpack _); vm_compute; exact I
      | intros [[_ Hlt] | [Hnil _]];
        [vm_compute in Hlt; discriminate Hlt | vm_compute in Hnil; discriminate Hnil] ].
Qed.

End SelectionProperties.

(** ** The collapse set *)

Section ToggleProperties.

Import Utils App.

(** C9.  One toggle flips the membership of its identifier and of no other;
    two toggles of the same identifier give back the collapse set; and the
    collapse branch of the post view applies exactly this toggle. *)
Theorem toggle_flips_membership (C : gset Z) (x : Z) :
  (x ∈ toggleCollapsed x C <-> x ∉ C) /\
  (forall y, y <> x -> y ∈ toggleCollapsed x C <-> y ∈ C) /\
  toggleCollapsed x (toggleCollapsed x C) = C /\
  (forall s, collapsedComments (toggle_selected x s)
             = toggleCollapsed x (collapsedComments s)).
Proof.
  split_and!.
  - unfold toggleCollapsed. case_bool_decide.
    + rewrite elem_of_difference, elem_of_singleton. tauto.
    + rewrite elem_of_union, elem_of_singleton. tauto.
  - intros y Hy. symmetry. by apply toggleCollapsed_other.
  - apply set_eq. intros y. unfold toggleCollapsed.
    destruct (decide (x ∈ C)) as [Hx|Hx].
    + rewrite (bool_decide_eq_true_2 (x ∈ C)) by done.
      rewrite bool_decide_eq_false_2
        by (rewrite elem_of_difference, elem_of_singleton; tauto).
      rewrite elem_of_union, elem_of_difference, elem_of_singleton.
      destruct (decide (y = x)) as [->|]; tauto.
    + rewrite (bool_decide_eq_false_2 (x ∈ C)) by done.
      rewrite bool_decide_eq_true_2
        by (rewrite elem_of_union, elem_of_singleton; tauto).
      rewrite elem_of_difference, elem_of_union, elem_of_singleton.
      destruct (decide (y = x)) as [->|]; tauto.
  - reflexivity.
Qed.

End ToggleProperties.

(** ** The help overlay *)

Section HelpProperties.

Import Utils Post App Invariants.

Lemma with_view_twice v w s : with_view v (with_view w s) = with_view v s.
Proof. reflexivity. Qed.

Lemma with_view_same s : with_view (view s) s = s.
Proof. by destruct s. Qed.

(** The toggle keys, whatever the view. *)
Lemma useInput_help_key s input key :
  input = "h"%string \/ input = "?"%string ->
  fst (useInput s input key)
  = with_view (match view s with help => feed | _ => help end) s.
Proof. by intros [-> | ->]. Qed.

(** C8 (amended).  From the feed and from the post view, either toggle key
    opens the help overlay with nothing else changed.  Closing it, by a
    toggle key or by Escape, always selects the feed view and changes nothing
    else: opened from the feed, the state comes back as it was; opened from
    the post view, the view is the feed and the rest of the sub-state is
    intact. *)
Theorem help_closes_to_feed (s : AppState) (toggle : string) (key : Key) :
  view s <> help ->
  toggle = "h"%string \/ toggle = "?"%string ->
  let opened := fst (useInput s toggle key) in
  opened = with_view help s /\
  (forall input key',
     input = "h"%string \/ input = "?"%string \/ escape key' = true ->
     fst (useInput opened input key') = with_view feed s) /\
  (view s = feed -> with_view feed s = s).
Proof.
  intros Hview Htoggle. simpl.
  assert (Hopen : fst (useInput s toggle key) = with_view help s).
  { rewrite useInput_help_key by done. by destruct (view s). }
  rewrite Hopen. split_and!; [done| |].
  - intros input key' Hclose.
    destruct (decide (input = "h"%string \/ input = "?"%string)) as [Hk|Hk].
    + by rewrite useInput_help_key.
    + destruct Hclose as [?|[?|Hesc]]; [tauto..|].
      unfold useInput. simpl.
      rewrite andb_false_r.
      assert (isKey input "h" || isKey input "?" = false) as ->.
      { apply orb_false_intro; apply bool_decide_eq_false_2; tauto. }
      unfold handleHelpInput. by rewrite Hesc.
  - intros <-. apply with_view_same.
Qed.

Lemma help_closes_to_feed_witness :
  let opened := fst (useInput sampleFeed "?" noKey) in
  opened = with_view help sampleFeed /\
  (forall input key',
     input = "h"%string \/ input = "?"%string \/ escape key' = true ->
     fst (useInput opened input key') = with_view feed sampleFeed) /\
  (view sampleFeed = feed -> with_view feed sampleFeed = sampleFeed).
Proof.
  apply (help_closes_to_feed sampleFeed "?" noKey).
  - discriminate.
  - by right.
Defined.

(** C8, as worded, fails from the post view: opening the help overlay there
    and closing it lands in the feed view. *)
Lemma help_from_post_returns_to_feed :
  let s := run sampleFeed [pressReturn] in
  view s = post /\
  view (run s [press "h"]) = help /\
  view (run s [press "h"; press "h"]) = feed /\
  view (run s [press "?"; pressEscape]) = feed /\
  run s [press "h"; press "h"] <> s.
Proof.
  simpl. split_and!; try reflexivity.
  intros Heq. apply (f_equal view) in Heq. discriminate Heq.
Qed.

End HelpProperties.

(** ** Late results *)

Section LateResultProperties.

Import Utils Tree Post App Invariants.

(** C7 (amended).  When the comments of a post arrive, the completion is
    applied whatever the state is then: [comments] becomes the result,
    [flatComments] its projection under the empty collapse set, [loading]
    false; the view, the feed, the posts, both selection indices, the
    current post, the collapse set and the messages stay as they are.  The
    post the result belongs to is not compared with anything. *)
Theorem late_comments_are_applied (s : AppState) (p : HackerNewsPost)
    (cs : list Comment) :
  let s' := fst (step s (CommentsLoaded p cs)) in
  comments s' = cs /\
  flatComments s' = flattenComments cs ∅ 0 /\
  loading s' = false /\
  view s' = view s /\ currentPost s' = currentPost s /\
  feedType s' = feedType s /\ posts s' = posts s /\
  selectedPostIndex s' = selectedPostIndex s /\
  selectedCommentIndex s' = selectedCommentIndex s /\
  collapsedComments s' = collapsedComments s /\
  error s' = error s /\ statusMessage s' = statusMessage s.
Proof. simpl. by split_and!. Qed.

(** C7, as worded, fails: the user opens a post, goes back to the feed
    before its comments arrive, and the late result is written into the
    state of the feed view. *)
Lemma late_comments_reach_the_feed :
  let s := run sampleFeed [pressReturn; pressEscape] in
  let s' := run s [CommentsLoaded samplePost [node 10 [leaf 20]]] in
  view s = feed /\ currentPost s = None /\
  comments s = [] /\ flatComments s = [] /\ loading s = true /\
  view s' = feed /\ currentPost s' = None /\
  comments s' = [node 10 [leaf 20]] /\
  flat_ids (flatComments s') = [10; 20] /\ loading s' = false /\
  s' <> s.
Proof.
  simpl. split_and!; try reflexivity.
  intros Heq. apply (f_equal loading) in Heq. discriminate Heq.
Qed.

End LateResultProperties.

(** ** The tree build *)

Section BuildProperties.

Import Utils Tree Post Graph.

(** The unfolding of one call: a missing item is [null]; a live item
    becomes a comment over the build of its [kids] (none when the list is
    undefined or empty). *)
Lemma fetchCommentTree_absent net fuel i :
  absent net i = true -> fetchCommentTree net (S fuel) i = Some None.
Proof.
  unfold absent. simpl.
  destruct (net_item net i) as [err| |[item|]]; try done.
  by intros ->.
Qed.

Lemma fetchCommentTree_live net fuel i item :
  net_item net i = Json (Some item) -> removed item = false ->
  fetchCommentTree net (S fuel) i =
  match collect (fetchCommentTree net fuel) (nullish (item_kids item) []) with
  | None => None
  | Some rs => Some (Some (commentOf item rs))
  end.
Proof.
  intros Hitem Hlive. simpl. rewrite Hitem, Hlive.
  destruct (item_kids item) as [[|k ks]|]; simpl; try done.
Qed.

Lemma collect_cons (f : Z -> option (option Comment)) i ids :
  collect f (i :: ids) =
  match f i with
  | None => None
  | Some r =>
    match collect f ids with
    | None => None
    | Some out => Some (match r with Some c => c :: out | None => out end)
    end
  end.
Proof. reflexivity. Qed.

(** The loop keeps, in order, the non-null results. *)
Lemma collect_settled (f : Z -> option (option Comment)) ids :
  (forall i, i ∈ ids -> is_Some (f i)) ->
  collect f ids = Some (omap (fun i => present (f i)) ids).
Proof.
  induction ids as [|i ids IH]; intros Hall; [done|]. simpl.
  destruct (Hall i) as [r Hr]; [by left|]. rewrite Hr.
  rewrite IH by (intros j Hj; apply Hall; by right).
  by destruct r.
Qed.

Lemma collect_is_Some (f : Z -> option (option Comment)) ids :
  is_Some (collect f ids) <-> forall i, i ∈ ids -> is_Some (f i).
Proof.
  split.
  - induction ids as [|i ids IH]; intros Hc j Hj; [by apply elem_of_nil in Hj|].
    simpl in Hc. destruct (f i) as [r|] eqn:Hr; [|by destruct Hc].
    destruct (collect f ids) as [out|] eqn:Hout; [|by destruct Hc].
    apply elem_of_cons in Hj as [->|Hj]; [by rewrite Hr | by apply IH].
  - intros Hall. by rewrite collect_settled.
Qed.

Lemma collect_ext (f g : Z -> option (option Comment)) ids :
  (forall i, i ∈ ids -> f i = g i) -> collect f ids = collect g ids.
Proof.
  induction ids as [|i ids IH]; intros Hext; [done|]. simpl.
  rewrite (Hext i) by by left. rewrite IH; [done|].
  intros j Hj. apply Hext. by right.
Qed.

(** More fuel never changes a settled result. *)
Lemma fetchCommentTree_more_fuel net : forall fuel fuel' i r,
  (fuel <= fuel')%nat ->
  fetchCommentTree net fuel i = Some r -> fetchCommentTree net fuel' i = Some r.
Proof.
  induction fuel as [|fuel IH]; intros fuel' i r Hle Hr; [done|].
  destruct fuel' as [|fuel']; [lia|].
  destruct (absent net i) eqn:Habs.
  { rewrite fetchCommentTree_absent in Hr by done.
    by rewrite fetchCommentTree_absent. }
  unfold absent in Habs.
  destruct (net_item net i) as [| |[item|]] eqn:Hitem; try done.
  rewrite (fetchCommentTree_live _ _ _ _ Hitem Habs) in Hr.
  rewrite (fetchCommentTree_live _ _ _ _ Hitem Habs).
  destruct (collect (fetchCommentTree net fuel) _) as [rs|] eqn:Hrs; [|done].
  assert (Hsome : is_Some (collect (fetchCommentTree net fuel)
                             (nullish (item_kids item) []))) by by rewrite Hrs.
  rewrite collect_is_Some in Hsome.
  rewrite <- (collect_ext (fetchCommentTree net fuel)), Hrs; [done|].
  intros k Hk. destruct (Hsome k Hk) as [rk Hrk]. rewrite Hrk.
  symmetry. apply (IH fuel' k rk); [lia | done].
Qed.

(** A rank that decreases along child references bounds the fuel needed. *)
Lemma fetchCommentTree_ranked net (rank : Z -> nat) :
  (forall i k, k ∈ live_kids net i -> (rank k < rank i)%nat) ->
  forall fuel i, (rank i < fuel)%nat -> is_Some (fetchCommentTree net fuel i).
Proof.
  intros Hrank. induction fuel as [|fuel IH]; intros i Hi; [lia|].
  destruct (absent net i) eqn:Habs.
  { by rewrite fetchCommentTree_absent. }
  pose proof (Hrank i) as Hkids. unfold absent in Habs. unfold live_kids in Hkids.
  destruct (net_item net i) as [| |[item|]] eqn:Hitem; try done.
  rewrite Habs in Hkids.
  rewrite (fetchCommentTree_live _ _ _ _ Hitem Habs).
  assert (Hsome : is_Some (collect (fetchCommentTree net fuel)
                             (nullish (item_kids item) []))).
  { apply collect_is_Some. intros k Hk. apply IH. specialize (Hkids k Hk). lia. }
  destruct Hsome as [rs ->]. done.
Qed.

Lemma max_list_bound (rank : Z -> nat) (ids : list Z) i :
  i ∈ ids -> (rank i <= max_list (map rank ids))%nat.
Proof.
  induction ids as [|j ids IH]; intros Hi; [by apply elem_of_nil in Hi|].
  simpl. apply elem_of_cons in Hi as [->|Hi]; [lia|]. specialize (IH Hi). lia.
Qed.

(** C4 (amended).  When the child references among live items are well
    founded, every call of [fetchCommentTree] settles, and [getComments]
    returns, with a finite tree.  (The build keeps no record of the
    identifiers on the current path.) *)
Theorem build_terminates_when_well_founded (net : Network) :
  well_founded net ->
  (forall i, settles net i) /\
  (forall ids, exists fuel comments,
     collect (fetchCommentTree net fuel) ids = Some comments) /\
  (forall h p, exists fuel h' p' l, getComments net fuel h p = Some (h', p', l)).
Proof.
  intros [rank Hrank].
  assert (Hids : forall ids, exists fuel comments,
             collect (fetchCommentTree net fuel) ids = Some comments).
  { intros ids. exists (S (max_list (map rank ids))).
    apply collect_is_Some. intros i Hi.
    apply (fetchCommentTree_ranked net rank Hrank).
    pose proof (max_list_bound rank ids i Hi). lia. }
  split_and!; [|done|].
  - intros i. destruct (fetchCommentTree_ranked net rank Hrank (S (rank i)) i) as [r Hr];
      [lia|]. by exists (S (rank i)), r.
  - intros h p. unfold getComments.
    destruct (commentsCache p) as [l|] eqn:Hcache.
    + by exists 0%nat, h, p, l.
    + destruct (Hids (commentIds p)) as (fuel & cs & Hcs).
      exists fuel. rewrite Hcs. by eexists _, _, _.
Qed.

Lemma moderated_well_founded : well_founded moderated.
Proof.
  exists moderatedRank. intros i k. unfold live_kids, moderated, moderatedRank. simpl.
  destruct (i =? 10) eqn:H10; simpl.
  { intros ->%list_elem_of_singleton. simpl. lia. }
  destruct (i =? 11) eqn:H11; simpl; [by intros ?%elem_of_nil|].
  destruct (i =? 12) eqn:H12; simpl; [by intros ?%elem_of_nil|].
  destruct (i =? 20) eqn:H20; simpl; by intros ?%elem_of_nil.
Qed.

Lemma build_terminates_when_well_founded_witness :
  (forall i, settles moderated i) /\
  (forall ids, exists fuel comments,
     collect (fetchCommentTree moderated fuel) ids = Some comments) /\
  (forall h p, exists fuel h' p' l,
     getComments moderated fuel h p = Some (h', p', l)).
Proof.
  exact (build_terminates_when_well_founded moderated moderated_well_founded).
Defined.

(** On a self-referential item every amount of fuel runs out. *)
Lemma selfReferential_out_of_fuel fuel :
  fetchCommentTree selfReferential fuel 10 = None.
Proof.
  induction fuel as [|fuel IH]; [done|].
  rewrite (fetchCommentTree_live selfReferential fuel 10 (liveItem 10 (Some [10])));
    [|done..].
  simpl. by rewrite IH.
Qed.

Lemma mutuallyReferential_out_of_fuel fuel :
  fetchCommentTree mutuallyReferential fuel 10 = None /\
  fetchCommentTree mutuallyReferential fuel 11 = None.
Proof.
  induction fuel as [|fuel [IH10 IH11]]; [done|]. split.
  - rewrite (fetchCommentTree_live mutuallyReferential fuel 10 (liveItem 10 (Some [11])));
      [|done..].
    simpl. by rewrite IH11.
  - rewrite (fetchCommentTree_live mutuallyReferential fuel 11 (liveItem 11 (Some [10])));
      [|done..].
    simpl. by rewrite IH10.
Qed.

(** C4, as worded, fails: on a self-referential and on a mutually
    referential [kids] chain the build never settles, and [getComments] of a
    post over such a chain never returns. *)
Lemma cyclic_kids_never_settle :
  ~ settles selfReferential 10 /\
  ~ settles mutuallyReferential 10 /\
  ~ (exists fuel result, getComments selfReferential fuel ∅ (postWith [10]) = Some result).
Proof.
  split_and!.
  - intros (fuel & r & Hr). by rewrite selfReferential_out_of_fuel in Hr.
  - intros (fuel & r & Hr).
    by rewrite (proj1 (mutuallyReferential_out_of_fuel fuel)) in Hr.
  - intros (fuel & r & Hr). unfold getComments in Hr. simpl in Hr.
    by rewrite selfReferential_out_of_fuel in Hr.
Qed.

End BuildProperties.


(** ** The order of the tree build *)

Section OrderProperties.

Import Utils Tree Post Client PostRequests Graph Walk.

Lemma removed_true item :
  removed item = true <-> item_deleted item = Some true \/ item_dead item = Some true.
Proof.
  unfold removed. rewrite orb_true_iff, !bool_decide_eq_true. tauto.
Qed.

(** What one settled call returns: [null] for a skipped item, and for a
    kept one a node over whatever the loop made of its [kids]. *)
Lemma fetchCommentTree_cases net fuel i r :
  fetchCommentTree net (S fuel) i = Some r ->
  match r with
  | None => skipped net i
  | Some c =>
    exists item, kept net i item /\ nodeOf item (replies c) c /\
      collect (fetchCommentTree net fuel) (nullish (item_kids item) []) = Some (replies c)
  end.
Proof.
  simpl. destruct (net_item net i) as [err| |[item|]] eqn:Hitem.
  - intros [= <-]. by eapply fetch_raises.
  - intros [= <-]. by apply fetch_refused.
  - destruct (removed item) eqn:Hrem.
    + intros [= <-]. apply removed_true in Hrem as [Hd|Hd];
        [by eapply item_deleted_ | by eapply item_dead_].
    + assert (Hlive : item_deleted item <> Some true /\ item_dead item <> Some true).
      { split; intros Hd; apply not_true_iff_false in Hrem; apply Hrem, removed_true; tauto. }
      assert (Hkids :
        (match item_kids item with
         | Some kids =>
           if bool_decide (0 < len kids)
           then collect (fetchCommentTree net fuel) kids else Some []
         | None => Some []
         end) = collect (fetchCommentTree net fuel) (nullish (item_kids item) [])).
      { destruct (item_kids item) as [[|k ks]|]; reflexivity. }
      rewrite Hkids.
      destruct (collect _ _) as [rs|] eqn:Hrs; [|done].
      intros [= <-]. exists item. split; [by split|]. split; [|done].
      destruct Hlive as [Hdel Hdead]. unfold nodeOf. simpl. split_and!; try done.
      * destruct (item_deleted item) as [[|]|]; done.
      * destruct (item_dead item) as [[|]|]; done.
  - intros [= <-]. by apply item_absent.
Qed.

(** The result of a settled build is the forest over the identifiers. *)
Lemma collect_builds net : forall fuel ids rs,
  collect (fetchCommentTree net fuel) ids = Some rs -> builds net ids rs.
Proof.
  induction fuel as [|fuel IH]; intros ids.
  - destruct ids as [|i ids]; simpl; [|done]. intros rs [= <-]. constructor.
  - induction ids as [|i ids IHids]; intros rs; [intros [= <-]; constructor|].
    rewrite collect_cons.
    destruct (fetchCommentTree net (S fuel) i) as [r|] eqn:Hr; [|done].
    destruct (collect _ ids) as [out|] eqn:Hout; [|done].
    intros [= <-]. apply fetchCommentTree_cases in Hr.
    destruct r as [c|].
    + destruct Hr as (item & Hkept & Hnode & Hkids).
      eapply builds_kept; [done | by apply IH | done | by apply IHids].
    + apply builds_skipped; [done | by apply IHids].
Qed.

Lemma collectLogged_cons f i ids log :
  collectLogged f (i :: ids) log =
  match f i log with
  | None => None
  | Some (log, r) =>
    match collectLogged f ids log with
    | None => None
    | Some (log, out) => Some (log, match r with Some c => c :: out | None => out end)
    end
  end.
Proof. reflexivity. Qed.

(** The logged build returns what the build returns, and its requests are
    those of the depth-first walk, whatever was logged before. *)
Lemma collectLogged_walks net : forall fuel ids rs,
  collect (fetchCommentTree net fuel) ids = Some rs ->
  exists w,
    walks net ids w /\
    forall log,
      collectLogged (fetchCommentTreeLogged net fuel) ids log
      = Some (log ++ map GetItem w, rs).
Proof.
  induction fuel as [|fuel IH]; intros ids.
  - destruct ids as [|i ids]; simpl; [|done]. intros rs [= <-].
    exists []. split; [constructor|]. intros log. by rewrite app_nil_r.
  - induction ids as [|i ids IHids]; intros rs.
    { intros [= <-]. exists []. split; [constructor|]. intros log. by rewrite app_nil_r. }
    rewrite collect_cons.
    destruct (fetchCommentTree net (S fuel) i) as [r|] eqn:Hr; [|done].
    destruct (collect _ ids) as [out|] eqn:Hout; [|done].
    intros [= <-].
    assert (Hcases := fetchCommentTree_cases _ _ _ _ Hr).
    assert (Hone : exists below,
      (forall ids w, walks net ids w -> walks net (i :: ids) (i :: below ++ w)) /\
      forall log,
        fetchCommentTreeLogged net (S fuel) i log
        = Some (log ++ GetItem i :: map GetItem below, r)).
    { simpl in Hr |- *.
      destruct (net_item net i) as [err| |[item|]] eqn:Hitem.
      - injection Hr as <-. exists []. split; [|done].
        intros ids' w' Hw'. by apply walks_skipped.
      - injection Hr as <-. exists []. split; [|done].
        intros ids' w' Hw'. by apply walks_skipped.
      - destruct (removed item) eqn:Hrem.
        + injection Hr as <-. exists []. split; [|done].
          intros ids' w' Hw'. by apply walks_skipped.
        + destruct r as [c|]; [|exfalso; revert Hr; by repeat case_match].
          destruct Hcases as (item' & [Hitem' Hlive] & Hnode & Hkids).
          assert (item' = item) as -> by congruence.
          destruct (IH _ _ Hkids) as (below & Hwalk & Hlog).
          exists below. split.
          * intros ids' w' Hw'. by eapply walks_kept.
          * intros log.
            assert (Hk :
              (match item_kids item with
               | Some kids =>
                 if bool_decide (0 < len kids)
                 then collectLogged (fetchCommentTreeLogged net fuel) kids
                        (log ++ [GetItem i])
                 else Some (log ++ [GetItem i], [])
               | None => Some (log ++ [GetItem i], [])
               end)
              = collectLogged (fetchCommentTreeLogged net fuel)
                  (nullish (item_kids item) []) (log ++ [GetItem i])).
            { destruct (item_kids item) as [[|k ks]|]; reflexivity. }
            rewrite Hk, Hlog.
            assert (Hk' :
              (match item_kids item with
               | Some kids =>
                 if bool_decide (0 < len kids)
                 then collect (fetchCommentTree net fuel) kids else Some []
               | None => Some []
               end) = collect (fetchCommentTree net fuel) (nullish (item_kids item) [])).
            { destruct (item_kids item) as [[|k ks]|]; reflexivity. }
            rewrite Hk', Hkids in Hr. injection Hr as <-.
            by rewrite <- app_assoc.
      - injection Hr as <-. exists []. split; [|done].
        intros ids' w' Hw'. by apply walks_skipped. }
    destruct Hone as (below & Hwalk1 & Hlogged).
    destruct (IHids out eq_refl) as (w & Hw & Hrest).
    exists (i :: below ++ w). split; [by apply Hwalk1|].
    intros log. rewrite collectLogged_cons, Hlogged, Hrest.
    rewrite <- app_assoc. simpl. by rewrite map_app.
Qed.

(** Over a well-founded item graph every build settles. *)
Lemma collect_settles net ids :
  well_founded net ->
  exists fuel rs, collect (fetchCommentTree net fuel) ids = Some rs.
Proof.
  intros [rank Hrank]. exists (S (max_list (map rank ids))).
  apply collect_is_Some. intros i Hi.
  apply (fetchCommentTree_ranked net rank Hrank).
  pose proof (max_list_bound rank ids i Hi). lia.
Qed.

(** An item is skipped or kept, never both; so the walk and the forest over
    given identifiers are unique. *)
Lemma skipped_not_kept net i item : skipped net i -> kept net i item -> False.
Proof.
  intros Hs (Hitem & Hdel & Hdead).
  destruct Hs as [err H| H | H | item' H Hd | item' H Hd]; congruence.
Qed.

Lemma kept_unique net i item item' : kept net i item -> kept net i item' -> item = item'.
Proof. intros [H _] [H' _]. congruence. Qed.

Lemma walks_unique net ids w :
  walks net ids w -> forall w', walks net ids w' -> w = w'.
Proof.
  induction 1 as [|i ids w Hs Hw IH|i item ids below w Hk Hb IHb Hw IH]; intros w' H'.
  - by inversion H'.
  - inversion H' as [|? ? w0 Hs' Hw'|? item' ? below' w0 Hk' Hb' Hw']; subst.
    + by rewrite (IH _ Hw').
    + by destruct (skipped_not_kept _ _ _ Hs Hk').
  - inversion H' as [|? ? w0 Hs' Hw'|? item' ? below' w0 Hk' Hb' Hw']; subst.
    + by destruct (skipped_not_kept _ _ _ Hs' Hk).
    + rewrite <- (kept_unique _ _ _ _ Hk Hk') in Hb'.
      by rewrite (IHb _ Hb'), (IH _ Hw').
Qed.

Lemma nodeOf_unique item rs c c' : nodeOf item rs c -> nodeOf item rs c' -> c = c'.
Proof.
  destruct c, c'. unfold nodeOf. simpl.
  intros (-> & -> & -> & -> & -> & -> & -> & ->) (-> & -> & -> & -> & -> & -> & -> & ->).
  reflexivity.
Qed.

Lemma builds_unique net ids rs :
  builds net ids rs -> forall rs', builds net ids rs' -> rs = rs'.
Proof.
  induction 1 as [|i ids rs Hs Hf IH|i item ids c rs Hk Hb IHb Hn Hf IH]; intros rs' H'.
  - by inversion H'.
  - inversion H' as [|? ? ? Hs' Hf'|? item' ? c' rs0 Hk' Hb' Hn' Hf']; subst.
    + by apply IH.
    + by destruct (skipped_not_kept _ _ _ Hs Hk').
  - inversion H' as [|? ? ? Hs' Hf'|? item' ? c' rs0 Hk' Hb' Hn' Hf']; subst.
    + by destruct (skipped_not_kept _ _ _ Hs' Hk).
    + rewrite <- (kept_unique _ _ _ _ Hk Hk') in Hb', Hn'.
      rewrite <- (IHb _ Hb') in Hn'.
      by rewrite (nodeOf_unique _ _ _ _ Hn Hn'), (IH _ Hf').
Qed.

(** C5.  A build that settles returns the forest over the identifiers
    given: in their order, no node (and no placeholder) for an identifier
    that is absent, deleted or dead or whose fetch fails, and for every other
    one the node of its item, field by field, over the forest of its own
    [kids].  Its requests are those of the depth-first walk, in that order:
    each identifier in turn, followed at once by the walk of its kids when it
    is kept.  A skipped identifier costs its one request and aborts nothing:
    its call returns [null], and the rest of the list is built as if it were
    not there.  Over a well-founded item graph the build of every list
    settles, with these results.  With kids [10, 11], item 11 deleted and
    item 10 having the one child 20, the build asks for 10, 20 and 11 and
    returns one top-level node with one child; the flattened tree has 2
    nodes. *)
Theorem build_keeps_order_and_skips_absent (net : Network) (fuel : nat) :
  (forall ids rs,
     collect (fetchCommentTree net fuel) ids = Some rs ->
     builds net ids rs /\
     exists w,
       walks net ids w /\
       forall log,
         collectLogged (fetchCommentTreeLogged net fuel) ids log
         = Some (log ++ map GetItem w, rs)) /\
  (forall i, skipped net i ->
     fetchCommentTree net (S fuel) i = Some None /\
     (forall log,
        fetchCommentTreeLogged net (S fuel) i log = Some (log ++ [GetItem i], None)) /\
     (forall ids,
        collect (fetchCommentTree net (S fuel)) (i :: ids)
        = collect (fetchCommentTree net (S fuel)) ids)) /\
  (forall i item rs,
     kept net i item ->
     collect (fetchCommentTree net fuel) (nullish (item_kids item) []) = Some rs ->
     exists c, fetchCommentTree net (S fuel) i = Some (Some c) /\ nodeOf item rs c) /\
  (well_founded net ->
   forall ids, exists fuel' rs w,
     collect (fetchCommentTree net fuel') ids = Some rs /\
     builds net ids rs /\ walks net ids w /\
     forall log,
       collectLogged (fetchCommentTreeLogged net fuel') ids log
       = Some (log ++ map GetItem w, rs)) /\
  (exists h p l,
     getComments moderated 3 ∅ (postWith [10; 11]) = Some (h, p, l) /\
     h !! l = Some [node 10 [leaf 20]] /\
     collectLogged (fetchCommentTreeLogged moderated 3) [10; 11] []
     = Some ([GetItem 10; GetItem 20; GetItem 11], [node 10 [leaf 20]]) /\
     (exists all, getAllCommentsFlat moderated 3 ∅ (postWith [10; 11])
                    = Some (h, p, all) /\ len all = 2)).
Proof.
  split_and!.
  - intros ids rs Hrs. split; [by eapply collect_builds | by apply collectLogged_walks].
  - intros i Hs.
    assert (Habs : absent net i = true).
    { unfold absent.
      destruct Hs as [err H| H | H | item H Hd | item H Hd]; rewrite H; try done;
        apply removed_true; tauto. }
    split_and!.
    + by apply fetchCommentTree_absent.
    + intros log. simpl. unfold absent in Habs.
      destruct (net_item net i) as [err| |[item|]]; try done. by rewrite Habs.
    + intros ids. rewrite collect_cons, fetchCommentTree_absent by done.
      by destruct (collect _ ids).
  - intros i item rs (Hitem & Hdel & Hdead) Hrs.
    assert (Hrem : removed item = false).
    { apply not_true_iff_false. rewrite removed_true. tauto. }
    rewrite (fetchCommentTree_live _ _ _ _ Hitem Hrem), Hrs.
    eexists. split; [reflexivity|].
    unfold nodeOf. simpl. split_and!; try done.
    + destruct (item_deleted item) as [[|]|]; done.
    + destruct (item_dead item) as [[|]|]; done.
  - intros Hwf ids.
    destruct (collect_settles net ids Hwf) as (fuel' & rs & Hrs).
    destruct (collectLogged_walks _ _ _ _ Hrs) as (w & Hw & Hlog).
    exists fuel', rs, w. split_and!; try done. by eapply collect_builds.
  - eexists _, _, _. split_and!.
    + vm_compute. reflexivity.
    + vm_compute. reflexivity.
    + vm_compute. reflexivity.
    + eexists. split; vm_compute; reflexivity.
Qed.

(** A failed fetch in front of the list costs one request and loses that
    subtree only. *)
Lemma build_keeps_order_and_skips_absent_witness :
  builds moderated [12; 10; 11] [node 10 [leaf 20]] /\
  exists w,
    walks moderated [12; 10; 11] w /\
    forall log,
      collectLogged (fetchCommentTreeLogged moderated 3) [12; 10; 11] log
      = Some (log ++ map GetItem w, [node 10 [leaf 20]]).
Proof.
  destruct (build_keeps_order_and_skips_absent moderated 3) as (Hbuild & _).
  exact (Hbuild [12; 10; 11] [node 10 [leaf 20]] eq_refl).
Defined.

End OrderProperties.

(** ** The comment cache *)

Section CacheProperties.

Import Utils Tree Post Graph.

(** With the cache filled, no call other than [clearCommentsCache] changes
    the heap or the post. *)
Lemma call_cached net fuel c h p l :
  commentsCache p = Some l -> c <> CallClearCommentsCache ->
  call net fuel c (h, p) = Some (h, p).
Proof.
  intros Hcache Hc.
  destruct c; try done; simpl;
    unfold findComment, getAllCommentsFlat, getComments; simpl; by rewrite Hcache.
Qed.

Lemma calls_cached cs : forall h p l,
  commentsCache p = Some l ->
  (forall net fuel, (net, fuel, CallClearCommentsCache) ∉ cs) ->
  calls cs (h, p) = Some (h, p).
Proof.
  induction cs as [|[[net fuel] c] cs IH]; intros h p l Hcache Hclear; [done|].
  simpl. rewrite (call_cached net fuel c h p l Hcache).
  - apply (IH h p l Hcache). intros net' fuel' Hin. apply (Hclear net' fuel'). by right.
  - intros ->. apply (Hclear net fuel). by left.
Qed.

(** Calls that do not overlap.  Once [getComments] has returned the array
    [l], every later [getComments] that begins after it, whatever the network then answers and whatever other
    calls came in between short of [clearCommentsCache], returns the same
    array [l] and leaves the heap and the post as they are.  After
    [clearCommentsCache] the next [getComments] builds again from the
    network as it then is, and returns a new array, distinct from [l], whose
    allocation leaves [l] untouched. *)
Theorem cache_is_reference_stable (net : Network) (fuel : nat) (h : Heap)
    (p : HackerNewsPost) (h1 : Heap) (p1 : HackerNewsPost) (l : loc) :
  (forall l0, commentsCache p = Some l0 -> is_Some (h !! l0)) ->
  getComments net fuel h p = Some (h1, p1, l) ->
  commentsCache p1 = Some l /\ is_Some (h1 !! l) /\
  (forall net' fuel', getComments net' fuel' h1 p1 = Some (h1, p1, l)) /\
  (forall cs net' fuel',
     (forall n f, (n, f, CallClearCommentsCache) ∉ cs) ->
     calls cs (h1, p1) = Some (h1, p1) /\
     getComments net' fuel' h1 p1 = Some (h1, p1, l)) /\
  (forall net' fuel',
     getComments net' fuel' h1 (clearCommentsCache p1)
     = match collect (fetchCommentTree net' fuel') (commentIds p1) with
       | None => None
       | Some comments =>
         Some (<[fresh (dom h1) := comments]> h1,
               with_cache (Some (fresh (dom h1))) p1, fresh (dom h1))
       end) /\
  (forall net' fuel' h2 p2 l2,
     getComments net' fuel' h1 (clearCommentsCache p1) = Some (h2, p2, l2) ->
     l2 <> l /\ h2 !! l = h1 !! l).
Proof.
  intros Hvalid Hget.
  assert (Hcache : commentsCache p1 = Some l /\ is_Some (h1 !! l)).
  { unfold getComments in Hget.
    destruct (commentsCache p) as [l0|] eqn:Hc.
    - injection Hget as <- <- <-. split; [done | by apply Hvalid].
    - destruct (collect _ _) as [comments|]; [|done].
      injection Hget as <- <- <-. split; [done|]. by rewrite lookup_insert_eq. }
  destruct Hcache as [Hcache Hl].
  assert (Hagain : forall net' fuel', getComments net' fuel' h1 p1 = Some (h1, p1, l)).
  { intros net' fuel'. unfold getComments. by rewrite Hcache. }
  split_and!; try done.
  - intros cs net' fuel' Hclear. split; [by eapply calls_cached | done].
  - intros net' fuel' h2 p2 l2. unfold getComments. simpl.
    destruct (collect _ _) as [comments|]; [|done].
    intros [= <- <- <-].
    assert (Hfresh : fresh (dom h1) <> l).
    { intros Heq. apply (is_fresh (dom h1)). rewrite Heq. by apply elem_of_dom. }
    split; [done|]. by rewrite lookup_insert_ne.
Qed.

Lemma cache_is_reference_stable_witness :
  exists h1 p1 l,
    getComments moderated 3 ∅ (postWith [10; 11]) = Some (h1, p1, l) /\
    forall net' fuel', getComments net' fuel' h1 p1 = Some (h1, p1, l).
Proof.
  destruct (getComments moderated 3 ∅ (postWith [10; 11])) as [[[h1 p1] l]|] eqn:Hget;
    [|vm_compute in Hget; discriminate Hget].
  exists h1, p1, l. split; [reflexivity|].
  assert (Hvalid : forall l0, commentsCache (postWith [10; 11]) = Some l0 ->
                              is_Some ((∅ : Heap) !! l0)) by (intros l0 H; discriminate H).
  exact (proj1 (proj2 (proj2
    (cache_is_reference_stable moderated 3 ∅ (postWith [10; 11]) h1 p1 l Hvalid Hget)))).
Defined.

End CacheProperties.

(** ** Calls of [getComments] that overlap *)

Section OverlapProperties.

Import Utils Tree Post PostAwait Graph.

(** A call that nothing interrupts is the call taken in one step. *)
Lemma getComments_uninterrupted net fuel h p :
  getComments net fuel h p =
  match getComments_begin h p with
  | (h1, p1, Returned l) => Some (h1, p1, l)
  | (h1, p1, Awaiting l) => getComments_done net fuel l h1 p1
  end.
Proof.
  unfold getComments, getComments_begin, getComments_done.
  destruct (commentsCache p) as [l|]; [done|].
  destruct (commentIds p) as [|i ids] eqn:Hids; [reflexivity|].
  cbv beta iota. rewrite Hids.
  destruct (collect _ (i :: ids)) as [comments|]; [|reflexivity].
  by rewrite insert_insert_eq.
Qed.

(** C6 (defect of the code).  The cache is tested before the first
    [await] and written after the last.  So when a post with an empty cache
    and at least one comment identifier gets a second call while the first
    is suspended, both calls build: they return two different arrays with
    the same comments, the second to finish replaces the array the first
    stored, with no [clearCommentsCache] in between, and every later call
    returns the second array, not the one the first caller holds. *)
Theorem overlapping_calls_return_different_arrays (net : Network) (fuel : nat)
    (h : Heap) (p : HackerNewsPost) (comments : list Comment) :
  commentsCache p = None ->
  commentIds p <> [] ->
  collect (fetchCommentTree net fuel) (commentIds p) = Some comments ->
  exists l1 l2 h1 h2 h3 p3 h4 p4,
    getComments_begin h p = (h1, p, Awaiting l1) /\
    getComments_begin h1 p = (h2, p, Awaiting l2) /\
    getComments_done net fuel l1 h2 p = Some (h3, p3, l1) /\
    getComments_done net fuel l2 h3 p3 = Some (h4, p4, l2) /\
    l1 <> l2 /\
    commentsCache p3 = Some l1 /\
    commentsCache p4 = Some l2 /\
    h4 !! l1 = Some comments /\
    h4 !! l2 = Some comments /\
    (forall net' fuel', getComments net' fuel' h4 p4 = Some (h4, p4, l2)).
Proof.
  intros Hcache Hids Hbuild.
  set (l1 := fresh (dom h)).
  set (h1 := <[l1 := []]> h).
  set (l2 := fresh (dom h1)).
  set (h2 := <[l2 := []]> h1).
  assert (Hne : l1 <> l2).
  { intros Heq. apply (is_fresh (dom h1)). fold l2. rewrite <- Heq.
    unfold h1. rewrite dom_insert. apply elem_of_union_l. by apply elem_of_singleton. }
  exists l1, l2, h1, h2, (<[l1 := comments]> h2), (with_cache (Some l1) p),
         (<[l2 := comments]> (<[l1 := comments]> h2)), (with_cache (Some l2) p).
  split_and!.
  - unfold getComments_begin. rewrite Hcache. by destruct (commentIds p).
  - unfold getComments_begin. rewrite Hcache. by destruct (commentIds p).
  - unfold getComments_done. by rewrite Hbuild.
  - unfold getComments_done. simpl. by rewrite Hbuild.
  - exact Hne.
  - reflexivity.
  - reflexivity.
  - rewrite lookup_insert_ne by (intros Heq; by apply Hne). by rewrite lookup_insert_eq.
  - by rewrite lookup_insert_eq.
  - intros net' fuel'. reflexivity.
Qed.

Lemma overlapping_calls_return_different_arrays_witness :
  exists l1 l2 h1 h2 h3 p3 h4 p4,
    getComments_begin ∅ (postWith [10; 11]) = (h1, postWith [10; 11], Awaiting l1) /\
    getComments_begin h1 (postWith [10; 11]) = (h2, postWith [10; 11], Awaiting l2) /\
    getComments_done moderated 3 l1 h2 (postWith [10; 11]) = Some (h3, p3, l1) /\
    getComments_done moderated 3 l2 h3 p3 = Some (h4, p4, l2) /\
    l1 <> l2 /\
    commentsCache p3 = Some l1 /\
    commentsCache p4 = Some l2 /\
    h4 !! l1 = Some [node 10 [leaf 20]] /\
    h4 !! l2 = Some [node 10 [leaf 20]] /\
    (forall net' fuel', getComments net' fuel' h4 p4 = Some (h4, p4, l2)).
Proof.
  apply (overlapping_calls_return_different_arrays moderated 3 ∅ (postWith [10; 11])).
  - reflexivity.
  - discriminate.
  - reflexivity.
Defined.

End OverlapProperties.

(** ** The limit of a feed request *)

Section LimitProperties.

Import Post Client.

(** C10.  [getPosts] and [getPostsByUser] reject a limit of zero or less
    with "Limit must be greater than 0", and a limit above 500 with "Limit
    cannot exceed 500", without sending a request; so whenever either sends
    a request the limit is between 1 and 500. *)
Theorem limit_checked_before_any_fetch (net : Network) (feedType : FeedType)
    (username : string) (limit : Z) (log : list Request) :
  (limit <= 0 ->
   getPosts net feedType limit log = (log, inl "Limit must be greater than 0"%string) /\
   getPostsByUser net username limit log
   = (log, inl "Limit must be greater than 0"%string)) /\
  (limit > 500 ->
   getPosts net feedType limit log = (log, inl "Limit cannot exceed 500"%string) /\
   getPostsByUser net username limit log
   = (log, inl "Limit cannot exceed 500"%string)) /\
  ((getPosts net feedType limit log).1 <> log -> 1 <= limit <= 500) /\
  ((getPostsByUser net username limit log).1 <> log -> 1 <= limit <= 500).
Proof.
  assert (Hlow : limit <= 0 ->
    getPosts net feedType limit log = (log, inl "Limit must be greater than 0"%string) /\
    getPostsByUser net username limit log
    = (log, inl "Limit must be greater than 0"%string)).
  { intros Hl. unfold getPosts, getPostsByUser.
    by rewrite !bool_decide_eq_true_2 by done. }
  assert (Hhigh : limit > 500 ->
    getPosts net feedType limit log = (log, inl "Limit cannot exceed 500"%string) /\
    getPostsByUser net username limit log
    = (log, inl "Limit cannot exceed 500"%string)).
  { intros Hl. unfold getPosts, getPostsByUser.
    rewrite !(bool_decide_eq_false_2 (limit <= 0)) by lia.
    by rewrite !bool_decide_eq_true_2 by done. }
  split_and!; [done | done | |].
  - intros Hsent.
    destruct (decide (limit <= 0)) as [Hl|Hl];
      [destruct (Hlow Hl) as [E _]; by rewrite E in Hsent|].
    destruct (decide (limit > 500)) as [Hh|Hh];
      [destruct (Hhigh Hh) as [E _]; by rewrite E in Hsent|].
    lia.
  - intros Hsent.
    destruct (decide (limit <= 0)) as [Hl|Hl];
      [destruct (Hlow Hl) as [_ E]; by rewrite E in Hsent|].
    destruct (decide (limit > 500)) as [Hh|Hh];
      [destruct (Hhigh Hh) as [_ E]; by rewrite E in Hsent|].
    lia.
Qed.

Lemma limit_checked_before_any_fetch_witness :
  getPosts Graph.moderated TOP 501 [] = ([], inl "Limit cannot exceed 500"%string) /\
  getPostsByUser Graph.moderated "pg" 0 [] = ([], inl "Limit must be greater than 0"%string).
Proof.
  split.
  - destruct (limit_checked_before_any_fetch Graph.moderated TOP "pg" 501 [])
      as (_ & Hhigh & _).
    apply Hhigh. lia.
  - destruct (limit_checked_before_any_fetch Graph.moderated TOP "pg" 0 [])
      as (Hlow & _).
    apply Hlow. lia.
Defined.

End LimitProperties.

(** * Further properties of the code *)

(** ** The projection: order, monotonicity, depth *)

Section ProjectionShape.

Import Utils Tree Post.

(** The projection lists identifiers of the tree in tree order, so it has at
    most one entry per node; when the identifiers of the tree are distinct,
    no identifier is listed twice. *)
Theorem flatten_lists_each_node_at_most_once (T : list Comment) (C : gset Z) (d : Z) :
  flat_ids (flattenComments T C d) `sublist_of` ids T /\
  (length (flattenComments T C d) <= length (nodes T))%nat /\
  (NoDup (ids T) -> NoDup (flat_ids (flattenComments T C d))).
Proof.
  pose proof (flat_ids_sublist T C d) as Hsub. split_and!; [done| |].
  - apply sublist_length in Hsub. unfold flat_ids, ids in Hsub.
    by rewrite !length_map in Hsub.
  - intros Hnd. exact (sublist_NoDup _ _ Hnd Hsub).
Qed.

Lemma flattenAll_unfold c : flattenAll c = c :: flat_map flattenAll (replies c).
Proof.
  destruct c as [i a t tm p rs dl dd]. simpl.
  destruct rs; [done|]. by rewrite bool_decide_eq_true_2 by (unfold len; simpl; lia).
Qed.

Lemma flattenAll_nodes T : flat_map flattenAll T = nodes T.
Proof.
  induction T as [|c cs IHr IHcs] using forest_ind; [done|].
  rewrite nodes_cons. simpl. by rewrite flattenAll_unfold, IHr, IHcs.
Qed.

Lemma flatten_nothing_collapsed T : forall d,
  flat_ids (flattenComments T ∅ d) = ids T.
Proof.
  induction T as [|c cs IHr IHcs] using forest_ind; intros d; [done|].
  rewrite flat_ids_cons, ids_cons, bool_decide_eq_false_2 by apply not_elem_of_empty.
  by rewrite IHr, IHcs.
Qed.

(** With nothing collapsed the projection lists every node of the tree, in
    the order in which [getAllCommentsFlat] lists them. *)
Theorem flatten_uncollapsed_lists_all (T : list Comment) (d : Z) :
  flat_ids (flattenComments T ∅ d) = map comment_id (flat_map flattenAll T) /\
  length (flattenComments T ∅ d) = length (flat_map flattenAll T).
Proof.
  rewrite flattenAll_nodes. pose proof (flatten_nothing_collapsed T d) as H.
  split; [done|]. apply (f_equal length) in H. unfold flat_ids, ids in H.
  by rewrite !length_map in H.
Qed.

(** Collapsing more never lists more: the projection under a larger
    collapse set is a subsequence of the projection under a smaller one. *)
Theorem flatten_antitone (T : list Comment) (C C' : gset Z) (d : Z) :
  C ⊆ C' ->
  flat_ids (flattenComments T C' d) `sublist_of` flat_ids (flattenComments T C d).
Proof.
  intros Hsub. revert d.
  induction T as [|c cs IHr IHcs] using forest_ind; intros d; [done|].
  rewrite !flat_ids_cons. apply sublist_skip, sublist_app; [|done].
  destruct (bool_decide (comment_id c ∈ C')) eqn:H'; [apply sublist_nil_l|].
  rewrite bool_decide_eq_false_2; [done|].
  apply bool_decide_eq_false in H'. intros Hin. apply H'. by apply Hsub.
Qed.

Lemma flatten_antitone_witness :
  flat_ids (flattenComments sampleThread {[1; 3]} 0)
    `sublist_of` flat_ids (flattenComments sampleThread {[3]} 0).
Proof.
  apply (flatten_antitone sampleThread {[3]} {[1; 3]} 0).
  intros x Hx. apply elem_of_union. by right.
Defined.

End ProjectionShape.

Section ProjectionDepth.

Import Utils Tree Post Shape.

Lemma gentle_nil : gentle [].
Proof. intros i f g Hf. by rewrite lookup_nil in Hf. Qed.

Lemma gentle_cons f l :
  gentle l -> (forall g, head l = Some g -> depth g <= depth f + 1) -> gentle (f :: l).
Proof.
  intros Hl Hhead [|i] f1 g1 Hf Hg; simpl in *.
  - injection Hf as <-. apply Hhead. by rewrite head_lookup.
  - by eapply Hl.
Qed.

Lemma gentle_app l1 l2 :
  gentle l1 -> gentle l2 ->
  (forall f g, last l1 = Some f -> head l2 = Some g -> depth g <= depth f + 1) ->
  gentle (l1 ++ l2).
Proof.
  intros H1 H2 Hjoin i f g Hf Hg.
  destruct (decide (S i < length l1)%nat) as [Hlt|Hge].
  - rewrite lookup_app_l in Hf by lia. rewrite lookup_app_l in Hg by lia.
    by eapply H1.
  - destruct (decide (S i = length l1)) as [Heq|Hne].
    + rewrite lookup_app_l in Hf by lia. rewrite lookup_app_r in Hg by lia.
      apply (Hjoin f g).
      * rewrite last_lookup. by replace (pred (length l1)) with i by lia.
      * rewrite head_lookup. by replace (S i - length l1)%nat with 0%nat in Hg by lia.
    + rewrite lookup_app_r in Hf by lia. rewrite lookup_app_r in Hg by lia.
      replace (S i - length l1)%nat with (S (i - length l1)) in Hg by lia.
      by eapply H2.
Qed.

Lemma flatten_shape T C : forall d,
  Forall (fun f => d <= depth f /\ flat_replies f = []) (flattenComments T C d) /\
  (forall f, head (flattenComments T C d) = Some f -> depth f = d) /\
  gentle (flattenComments T C d).
Proof.
  induction T as [|c cs IHr IHcs] using forest_ind; intros d.
  - split_and!; [constructor | done | apply gentle_nil].
  - rewrite flattenComments_cons.
    destruct (IHcs d) as (Fcs & Hcs & Gcs).
    destruct (IHr (d + 1)) as (Fr & Hr & Gr).
    set (sub := if bool_decide (comment_id c ∈ C) then []
                else flattenComments (replies c) C (d + 1)).
    assert (Fsub : Forall (fun f => d + 1 <= depth f /\ flat_replies f = []) sub).
    { unfold sub. by destruct (bool_decide _). }
    assert (Hsub : forall f, head sub = Some f -> depth f = d + 1).
    { unfold sub. by destruct (bool_decide _). }
    assert (Gsub : gentle sub).
    { unfold sub. destruct (bool_decide _); [apply gentle_nil | done]. }
    split_and!.
    + constructor; [unfold flatOf; simpl; split; [lia | done]|].
      apply Forall_app. split; [|done].
      eapply Forall_impl; [exact Fsub|]. simpl. intros f [? ?]. split; [lia | done].
    + simpl. intros f [= <-]. reflexivity.
    + apply gentle_cons.
      * apply gentle_app; [done..|]. intros f g Hf Hg.
        rewrite (Hcs g Hg).
        apply last_Some in Hf as [l' ->].
        apply Forall_app in Fsub as [_ Ff].
        apply (proj1 (Forall_singleton _ f)) in Ff. simpl in Ff.
        destruct Ff as [Ff _]. lia.
      * intros g Hg. unfold flatOf; simpl. destruct sub as [|f0 sub'] eqn:Esub; simpl in Hg.
        -- rewrite (Hcs g Hg). lia.
        -- injection Hg as <-. rewrite (Hsub f0 eq_refl). lia.
Qed.

(** The projection is a well-formed indented list: every entry is at the
    starting depth or deeper and carries no replies, the first entry is at
    the starting depth, and an entry is at most one level deeper than the
    entry before it. *)
Theorem flatten_depths_are_nested (T : list Comment) (C : gset Z) (d : Z) :
  (forall f, f ∈ flattenComments T C d -> d <= depth f /\ flat_replies f = []) /\
  (forall f, head (flattenComments T C d) = Some f -> depth f = d) /\
  (forall (i : nat) f g,
     flattenComments T C d !! i = Some f ->
     flattenComments T C d !! S i = Some g ->
     depth g <= depth f + 1).
Proof.
  destruct (flatten_shape T C d) as (HF & Hh & Hg). split_and!; [|done..].
  intros f Hf. by apply (proj1 (Forall_forall _ _) HF).
Qed.

(** Two collapse sets that differ at most on [x] give the same
    identifiers at the same depths when no node with identifier [x] has a
    reply. *)
Lemma flatten_leaf_agree (x : Z) (C C' : gset Z) T :
  (forall y, y <> x -> y ∈ C <-> y ∈ C') ->
  (forall n, n ∈ nodes T -> comment_id n = x -> replies n = []) ->
  forall d,
    map (fun f => (flat_id f, depth f)) (flattenComments T C' d)
    = map (fun f => (flat_id f, depth f)) (flattenComments T C d).
Proof.
  intros Hagree.
  induction T as [|c cs IHr IHcs] using forest_ind; intros Hleaf d; [done|].
  rewrite !flattenComments_cons, !map_cons, !map_app. simpl.
  assert (Hr : forall n, n ∈ nodes (replies c) -> comment_id n = x -> replies n = []).
  { intros n Hn. apply Hleaf. rewrite nodes_cons.
    apply elem_of_cons; right. apply elem_of_app; by left. }
  assert (Hcs : forall n, n ∈ nodes cs -> comment_id n = x -> replies n = []).
  { intros n Hn. apply Hleaf. rewrite nodes_cons.
    apply elem_of_cons; right. apply elem_of_app; by right. }
  rewrite (IHcs Hcs d). f_equal. f_equal.
  destruct (decide (comment_id c = x)) as [Hx|Hx].
  - rewrite (Hleaf c) by (rewrite ?nodes_cons; first [by left | done]).
    by do 2 destruct (bool_decide _).
  - rewrite (bool_decide_ext (comment_id c ∈ C') (comment_id c ∈ C))
      by (symmetry; by apply Hagree).
    destruct (bool_decide _); [done|]. by apply IHr.
Qed.

(** Toggling a comment that has no replies changes neither which
    identifiers are listed nor their depths: only its own mark flips. *)
Theorem toggle_of_leaf_keeps_list (T : list Comment) (C : gset Z) (x : Z) (d : Z) :
  (forall n, n ∈ nodes T -> comment_id n = x -> replies n = []) ->
  map (fun f => (flat_id f, depth f)) (flattenComments T (App.toggleCollapsed x C) d)
  = map (fun f => (flat_id f, depth f)) (flattenComments T C d) /\
  length (flattenComments T (App.toggleCollapsed x C) d)
  = length (flattenComments T C d).
Proof.
  intros Hleaf.
  pose proof (flatten_leaf_agree x C (App.toggleCollapsed x C) T
                (fun y Hy => toggleCollapsed_other x y C Hy) Hleaf d) as H.
  split; [done|]. apply (f_equal length) in H. by rewrite !length_map in H.
Qed.

Lemma toggle_of_leaf_keeps_list_witness :
  map (fun f => (flat_id f, depth f))
      (flattenComments sampleThread (App.toggleCollapsed 4 ∅) 0)
  = map (fun f => (flat_id f, depth f)) (flattenComments sampleThread ∅ 0) /\
  length (flattenComments sampleThread (App.toggleCollapsed 4 ∅) 0)
  = length (flattenComments sampleThread ∅ 0).
Proof.
  apply (toggle_of_leaf_keeps_list sampleThread ∅ 4 0).
  intros n Hn Hid. unfold sampleThread, nodes in Hn. simpl in Hn.
  repeat (apply elem_of_cons in Hn as [->|Hn]; [by (discriminate Hid || reflexivity)|]).
  by apply elem_of_nil in Hn.
Defined.

End ProjectionDepth.

(** ** The application machine *)

Section MachineInvariants.

Import Utils Tree Post App Invariants Machine.

Ltac split_handler :=
  repeat
    match goal with
    | |- context [if ?b then _ else _] => destruct b eqn:?
    | |- context [match at_index ?l ?i with _ => _ end] => destruct (at_index l i) eqn:?
    | |- context [match currentPost ?s with _ => _ end] => destruct (currentPost s) eqn:?
    | |- context [match feedMap ?i with _ => _ end] => destruct (feedMap i) eqn:?
    | |- context [match view ?s with _ => _ end] => destruct (view s) eqn:?
    end.

Lemma step_keeps_post_selection s e :
  post_selection_ok s /\ -1 <= selectedCommentIndex s ->
  post_selection_ok (fst (step s e)) /\ -1 <= selectedCommentIndex (fst (step s e)).
Proof.
  unfold post_selection_ok. intros [Hp Hc].
  destruct e as [input k|ft ps|msg|p cs|msg]; simpl.
  - unfold useInput, handleHelpInput, handleFeedInput, handlePostInput.
    unfold len in *.
    split_handler; simpl; (split; [|lia]);
      (destruct Hp as [Hp|[Hnil Hp]];
        [left; lia | right; rewrite Hnil in *; simpl; split; [done|lia]]).
  - split; [|done]. destruct ps as [|p0 ps]; [right; split; [done|lia]|].
    left. unfold len. simpl. lia.
  - by split.
  - by split.
  - by split.
Qed.

(** In every state the application can reach, the selected post index
    points at a listed post whenever the feed is not empty (over an empty
    feed it is 0 or -1), and the selected comment index is never below -1. *)
Theorem reachable_post_selection (es : list Event) :
  post_selection_ok (run initialState es) /\
  -1 <= selectedCommentIndex (run initialState es).
Proof.
  unfold run.
  assert (H0 : post_selection_ok initialState /\ -1 <= selectedCommentIndex initialState).
  { split; [right; split; [done | simpl; lia] | simpl; lia]. }
  revert H0. generalize initialState.
  induction es as [|e es IH]; intros s Hs; [done|].
  simpl. apply IH. by apply step_keeps_post_selection.
Qed.

Lemma step_keeps_current_post s e :
  (view s = post -> currentPost s <> None) ->
  view (fst (step s e)) = post -> currentPost (fst (step s e)) <> None.
Proof.
  intros Hs.
  destruct e as [input k|ft ps|msg|p cs|msg]; simpl; try exact Hs.
  unfold useInput, handleHelpInput, handleFeedInput, handlePostInput.
  split_handler; simpl; try done; try exact Hs.
  all: intros Hv;
    first [ congruence | apply Hs; congruence
          | exfalso; by apply Hs | discriminate Hv ].
Qed.

(** In every state the application can reach, the post view has a current
    post: the post view is never shown without a post to render. *)
Theorem reachable_post_view_has_post (es : list Event) :
  view (run initialState es) = post -> currentPost (run initialState es) <> None.
Proof.
  unfold run.
  assert (H0 : view initialState = post -> currentPost initialState <> None) by done.
  revert H0. generalize initialState.
  induction es as [|e es IH]; intros s Hs; [done|].
  simpl. apply IH. by apply step_keeps_current_post.
Qed.

Lemma reachable_post_view_has_post_witness :
  currentPost (run initialState [FeedLoaded TOP [samplePost]; pressReturn]) <> None.
Proof.
  apply (reachable_post_view_has_post [FeedLoaded TOP [samplePost]; pressReturn]).
  reflexivity.
Defined.

(** In the help view no key starts any work, not even [q]: no command is
    issued, and the state is left as it is or only its view becomes the
    feed.  Outside the help view [q] issues [Exit] and leaves the state as it
    is. *)
Theorem help_view_swallows_keys (s : AppState) (input : string) (k : Key) :
  (view s = help ->
   snd (useInput s input k) = [] /\
   (fst (useInput s input k) = s \/ fst (useInput s input k) = with_view feed s)) /\
  (view s <> help -> useInput s "q" k = (s, [Exit])).
Proof.
  split.
  - intros Hview. unfold useInput, handleHelpInput. rewrite Hview. simpl.
    rewrite andb_false_r. split_handler; simpl; auto.
  - intros Hview. unfold useInput. simpl.
    by rewrite bool_decide_eq_true_2.
Qed.

(** Every command a key press issues acts on what is on screen: in the feed
    view on the post at the selected index, in the post view on the current
    post; the help view issues none. *)
Theorem commands_act_on_selection (s : AppState) (input : string) (k : Key)
    (c : Command) (p : HackerNewsPost) :
  c ∈ snd (useInput s input k) -> commandPost c = Some p ->
  (view s = feed /\ at_index (posts s) (selectedPostIndex s) = Some p) \/
  (view s = post /\ currentPost s = Some p).
Proof.
  unfold useInput, handleHelpInput, handleFeedInput, handlePostInput.
  split_handler; simpl; intros Hc Hp;
    try (by apply elem_of_nil in Hc);
    apply list_elem_of_singleton in Hc; subst c; simpl in Hp;
    try discriminate Hp; injection Hp as <-; auto.
Qed.

Lemma commands_act_on_selection_witness :
  (view sampleFeed = feed /\
   at_index (posts sampleFeed) (selectedPostIndex sampleFeed) = Some samplePost) \/
  (view sampleFeed = post /\ currentPost sampleFeed = Some samplePost).
Proof.
  apply (commands_act_on_selection sampleFeed "o" noKey (OpenArticle samplePost)).
  - by left.
  - reflexivity.
Defined.

Lemma toggleCollapsed_twice (x : Z) (C : gset Z) :
  toggleCollapsed x (toggleCollapsed x C) = C.
Proof.
  apply set_eq. intros y. destruct (decide (y = x)) as [->|Hy].
  - unfold toggleCollapsed at 1. case_bool_decide as H1.
    + rewrite elem_of_difference, elem_of_singleton.
      unfold toggleCollapsed in H1 |- *. case_bool_decide as H2.
      * apply elem_of_difference in H1 as [_ H1]. exfalso. apply H1.
        by apply elem_of_singleton.
      * tauto.
    + rewrite elem_of_union, elem_of_singleton.
      unfold toggleCollapsed in H1 |- *. case_bool_decide as H2; [tauto|].
      exfalso. apply H1. apply elem_of_union. right. by apply elem_of_singleton.
  - rewrite <- !(toggleCollapsed_other x y) by done. done.
Qed.

(** In the post view, over a tree with distinct identifiers whose flat list
    is its projection, pressing the collapse key twice on a selected comment
    gives back the state as it was: flat list, collapse set and selection. *)
Theorem collapse_then_expand_restores (s : AppState) (f : FlatComment) :
  view s = post ->
  NoDup (ids (comments s)) ->
  coherent s ->
  at_index (flatComments s) (selectedCommentIndex s) = Some f ->
  key " " s = toggle_selected (flat_id f) s /\
  key " " (key " " s) = s.
Proof.
  intros Hview Hnd Hco Hf.
  assert (Hkey : forall s0 f0, view s0 = post ->
             at_index (flatComments s0) (selectedCommentIndex s0) = Some f0 ->
             key " " s0 = toggle_selected (flat_id f0) s0).
  { intros s0 f0 Hv Hf0. unfold key, useInput, handlePostInput.
    rewrite Hv. simpl. by rewrite Hf0. }
  rewrite (Hkey s f Hview Hf). split; [done|].
  pose proof Hf as Hf'. apply at_index_Some in Hf' as [Hi Hl].
  rewrite Hco in Hl.
  destruct (toggle_keeps_position _ _ _ _ _ Hnd Hl) as (f' & Hl' & Hid).
  rewrite (Hkey (toggle_selected (flat_id f) s) f').
  - rewrite Hid. unfold toggle_selected at 1. simpl.
    rewrite toggleCollapsed_twice, <- Hco. by destruct s.
  - done.
  - apply at_index_Some. split; [done|]. exact Hl'.
Qed.

Lemma collapse_then_expand_restores_witness :
  key " " (key " " sampleDetail) = sampleDetail.
Proof.
  refine (proj2 (collapse_then_expand_restores sampleDetail
            (flatOf (node 10 [leaf 20]) 0 false) _ _ _ _)).
  - reflexivity.
  - apply (bool_decide_unpack _). vm_compute. exact I.
  - reflexivity.
  - reflexivity.
Defined.

End MachineInvariants.

(** ** The built tree *)

Section BuiltTree.

Import Utils Tree Post Graph Answers.

Lemma collect_elem (f : Z -> option (option Comment)) ids cs c :
  collect f ids = Some cs -> c ∈ cs -> exists k, k ∈ ids /\ f k = Some (Some c).
Proof.
  revert cs. induction ids as [|i ids IH]; intros cs Hcs Hc.
  - injection Hcs as <-. by apply elem_of_nil in Hc.
  - rewrite collect_cons in Hcs.
    destruct (f i) as [r|] eqn:Hr; [|done].
    destruct (collect f ids) as [out|] eqn:Hout; [|done].
    injection Hcs as <-.
    destruct r as [c0|].
    + apply elem_of_cons in Hc as [->|Hc].
      * exists i. split; [by left | done].
      * destruct (IH out eq_refl Hc) as (k & Hk & Hfk). exists k. split; [by right | done].
    + destruct (IH out eq_refl Hc) as (k & Hk & Hfk). exists k. split; [by right | done].
Qed.

Lemma collect_length (f : Z -> option (option Comment)) ids cs :
  collect f ids = Some cs -> (length cs <= length ids)%nat.
Proof.
  revert cs. induction ids as [|i ids IH]; intros cs Hcs.
  - by injection Hcs as <-.
  - rewrite collect_cons in Hcs.
    destruct (f i) as [r|]; [|done].
    destruct (collect f ids) as [out|]; [|done].
    injection Hcs as <-. specialize (IH out eq_refl). destruct r; simpl; lia.
Qed.

Lemma collect_ids_sublist (f : Z -> option (option Comment)) ids cs :
  (forall k c, f k = Some (Some c) -> comment_id c = k) ->
  collect f ids = Some cs -> map comment_id cs `sublist_of` ids.
Proof.
  intros Hid. revert cs. induction ids as [|i ids IH]; intros cs Hcs.
  - by injection Hcs as <-.
  - rewrite collect_cons in Hcs.
    destruct (f i) as [r|] eqn:Hr; [|done].
    destruct (collect f ids) as [out|]; [|done].
    injection Hcs as <-. specialize (IH out eq_refl). destruct r as [c|]; simpl.
    + rewrite (Hid i c Hr). by apply sublist_skip.
    + by apply sublist_cons.
Qed.

(** Induction over a settled build: the replies of a comment made of a
    live item are collected from its [kids] by calls of which the property
    already holds. *)
Lemma built_ind (net : Network) (P : Z -> Comment -> Prop) :
  (forall i item rs (g : Z -> option (option Comment)),
     net_item net i = Json (Some item) -> removed item = false ->
     collect g (nullish (item_kids item) []) = Some rs ->
     (forall k r, g k = Some (Some r) -> P k r) ->
     P i (commentOf item rs)) ->
  forall fuel i c, fetchCommentTree net fuel i = Some (Some c) -> P i c.
Proof.
  intros Hstep. induction fuel as [|fuel IH]; intros i c Hc; [done|].
  destruct (absent net i) eqn:Habs.
  { by rewrite fetchCommentTree_absent in Hc. }
  unfold absent in Habs.
  destruct (net_item net i) as [| |[item|]] eqn:Hitem; try done.
  rewrite (fetchCommentTree_live _ _ _ _ Hitem Habs) in Hc.
  destruct (collect _ _) as [rs|] eqn:Hrs; [|done].
  injection Hc as <-.
  exact (Hstep i item rs (fetchCommentTree net fuel) Hitem Habs Hrs IH).
Qed.

Lemma removed_false item :
  removed item = false ->
  nullish (item_deleted item) false = false /\ nullish (item_dead item) false = false.
Proof.
  unfold removed. intros [H1 H2]%orb_false_elim.
  apply bool_decide_eq_false in H1. apply bool_decide_eq_false in H2.
  destruct (item_deleted item) as [[|]|], (item_dead item) as [[|]|]; simpl; try done.
Qed.

(** No comment of a built tree is deleted or dead, at any depth: the
    builder drops such items, and the flags it copies are therefore always
    false. *)
Theorem built_tree_has_no_removed_comment (net : Network) (fuel : nat) :
  (forall i c, fetchCommentTree net fuel i = Some (Some c) ->
     forall n, n ∈ subtree c -> comment_deleted n = false /\ comment_dead n = false) /\
  (forall ids cs, collect (fetchCommentTree net fuel) ids = Some cs ->
     forall n, n ∈ nodes cs -> comment_deleted n = false /\ comment_dead n = false).
Proof.
  assert (Hone : forall i c, fetchCommentTree net fuel i = Some (Some c) ->
     forall n, n ∈ subtree c -> comment_deleted n = false /\ comment_dead n = false).
  { apply (built_ind net (fun _ c => forall n, n ∈ subtree c ->
             comment_deleted n = false /\ comment_dead n = false)).
    intros i item rs g Hitem Hlive Hrs Hg n Hn.
    rewrite subtree_unfold in Hn. apply elem_of_cons in Hn as [->|Hn].
    - simpl. by apply removed_false.
    - simpl in Hn. apply elem_of_flat_map in Hn as (r & Hr & Hn).
      destruct (collect_elem _ _ _ _ Hrs Hr) as (k & _ & Hk). by eapply Hg. }
  split; [done|].
  intros ids cs Hcs n Hn. apply elem_of_flat_map in Hn as (c & Hc & Hn).
  destruct (collect_elem _ _ _ _ Hcs Hc) as (k & _ & Hk). by eapply Hone.
Qed.

(** Over a network that answers with the item asked for, every built
    comment carries the identifier it was fetched by, the identifiers of its
    replies are a subsequence of the item's [kids], and the identifiers of
    the top-level comments are a subsequence of the identifiers asked for. *)
Theorem built_tree_follows_kids (net : Network) (fuel : nat) :
  own_id net ->
  (forall i c, fetchCommentTree net fuel i = Some (Some c) ->
     comment_id c = i /\
     forall n, n ∈ subtree c ->
       map comment_id (replies n) `sublist_of` live_kids net (comment_id n)) /\
  (forall ids cs, collect (fetchCommentTree net fuel) ids = Some cs ->
     map comment_id cs `sublist_of` ids).
Proof.
  intros Hown.
  assert (Hone : forall i c, fetchCommentTree net fuel i = Some (Some c) ->
     comment_id c = i /\
     forall n, n ∈ subtree c ->
       map comment_id (replies n) `sublist_of` live_kids net (comment_id n)).
  { apply (built_ind net (fun i c => comment_id c = i /\
       forall n, n ∈ subtree c ->
         map comment_id (replies n) `sublist_of` live_kids net (comment_id n))).
    intros i item rs g Hitem Hlive Hrs Hg.
    assert (Hid : comment_id (commentOf item rs) = i).
    { simpl. by rewrite (Hown i item Hitem). }
    split; [done|]. intros n Hn.
    rewrite subtree_unfold in Hn. apply elem_of_cons in Hn as [->|Hn].
    - rewrite Hid. unfold live_kids. rewrite Hitem, Hlive. simpl.
      apply (collect_ids_sublist g); [|done]. intros k r Hk. by apply Hg.
    - simpl in Hn. apply elem_of_flat_map in Hn as (r & Hr & Hn).
      destruct (collect_elem _ _ _ _ Hrs Hr) as (k & _ & Hk).
      by apply (Hg k r Hk). }
  split; [done|].
  intros ids cs Hcs. apply (collect_ids_sublist _ _ _ (fun k c H => proj1 (Hone k c H)) Hcs).
Qed.

Lemma moderated_own_id : own_id moderated.
Proof.
  intros i item. unfold moderated. simpl.
  destruct (i =? 10) eqn:H10; [apply Z.eqb_eq in H10 as ->; by intros [= <-]|].
  destruct (i =? 11) eqn:H11; [apply Z.eqb_eq in H11 as ->; by intros [= <-]|].
  destruct (i =? 12) eqn:H12; [done|].
  destruct (i =? 20) eqn:H20; [apply Z.eqb_eq in H20 as ->; by intros [= <-]|].
  done.
Qed.

Lemma built_tree_follows_kids_witness :
  own_id moderated /\
  exists cs, collect (fetchCommentTree moderated 3) [12; 10; 11] = Some cs /\
             map comment_id cs `sublist_of` [12; 10; 11].
Proof.
  split; [exact moderated_own_id|].
  eexists. split; [reflexivity|].
  apply (proj2 (built_tree_follows_kids moderated 3 moderated_own_id) [12; 10; 11]).
  reflexivity.
Defined.

(** [getComments] on a post whose cache is empty stores an array with at
    most one comment per top-level identifier, so the number of comments
    never exceeds [getTopLevelCommentCount]; the identifiers are kept. *)
Theorem comments_at_most_top_level_count (net : Network) (fuel : nat) (h h' : Heap)
    (p p' : HackerNewsPost) (l : loc) :
  commentsCache p = None ->
  getComments net fuel h p = Some (h', p', l) ->
  exists cs, h' !! l = Some cs /\
    len cs <= getTopLevelCommentCount p' /\
    getTopLevelCommentCount p' = getTopLevelCommentCount p.
Proof.
  intros Hcache. unfold getComments. rewrite Hcache.
  destruct (collect _ _) as [cs|] eqn:Hcs; [|done].
  intros [= <- <- <-]. exists cs. rewrite lookup_insert_eq.
  split_and!; [done| |done].
  apply collect_length in Hcs. unfold getTopLevelCommentCount, len. simpl. lia.
Qed.

Lemma comments_at_most_top_level_count_witness :
  exists h' p' l cs,
    getComments moderated 3 ∅ (postWith [10; 11; 12]) = Some (h', p', l) /\
    h' !! l = Some cs /\ len cs <= getTopLevelCommentCount p'.
Proof.
  destruct (getComments moderated 3 ∅ (postWith [10; 11; 12])) as [[[h' p'] l]|] eqn:Hget;
    [|vm_compute in Hget; discriminate Hget].
  destruct (comments_at_most_top_level_count moderated 3 ∅ h' (postWith [10; 11; 12])
              p' l eq_refl Hget) as (cs & Hcs & Hlen & _).
  by exists h', p', l, cs.
Defined.

(** [getAllCommentsFlat] leaves the heap and the post as [getComments]
    does, and returns every node of the cached tree in pre-order: at least
    as many comments as the top level has. *)
Theorem all_comments_flat_lists_every_node (net : Network) (fuel : nat) (h h' : Heap)
    (p p' : HackerNewsPost) (all : list Comment) :
  getAllCommentsFlat net fuel h p = Some (h', p', all) ->
  exists l,
    getComments net fuel h p = Some (h', p', l) /\
    all = nodes (nullish (h' !! l) []) /\
    (length (nullish (h' !! l) []) <= length all)%nat.
Proof.
  unfold getAllCommentsFlat.
  destruct (getComments net fuel h p) as [[[h1 p1] l]|]; [|done].
  intros [= <- <- <-]. exists l. rewrite flattenAll_nodes. split_and!; [done..|].
  generalize (nullish (h1 !! l) []). intros T.
  induction T as [|c cs IHr IHcs] using forest_ind; [done|].
  rewrite nodes_cons. simpl. rewrite length_app. lia.
Qed.

(** [findComment] returns the first comment of the pre-order listing that
    carries the identifier asked for, and [null] exactly when no comment of
    the tree carries it. *)
Theorem find_comment_by_id (net : Network) (fuel : nat) (h h' : Heap)
    (p p' : HackerNewsPost) (commentId : Z) (r : option Comment) :
  findComment net fuel h p commentId = Some (h', p', r) ->
  exists all,
    getAllCommentsFlat net fuel h p = Some (h', p', all) /\
    match r with
    | Some c =>
      comment_id c = commentId /\
      exists before after,
        all = before ++ c :: after /\
        forall b, b ∈ before -> comment_id b <> commentId
    | None => forall c, c ∈ all -> comment_id c <> commentId
    end.
Proof.
  unfold findComment.
  destruct (getAllCommentsFlat net fuel h p) as [[[h1 p1] all]|]; [|done].
  intros [= <- <- <-]. exists all. split; [done|].
  induction all as [|c all IH]; simpl; [by intros c ?%elem_of_nil|].
  case_bool_decide as Hc.
  - split; [done|]. exists [], all. split; [done|]. by intros b ?%elem_of_nil.
  - destruct (List.find _ all) as [c'|].
    + destruct IH as (Hid & before & after & -> & Hb). split; [done|].
      exists (c :: before), after. split; [done|].
      intros b [->|Hin]%elem_of_cons; [done | by apply Hb].
    + intros c' [->|Hin]%elem_of_cons; [done | by apply IH].
Qed.

End BuiltTree.

Section BuiltTreeWitnesses.

Import Utils Tree Post Graph Answers.

Lemma all_comments_flat_lists_every_node_witness :
  exists h' p' all l,
    getAllCommentsFlat moderated 3 ∅ (postWith [10; 11]) = Some (h', p', all) /\
    getComments moderated 3 ∅ (postWith [10; 11]) = Some (h', p', l) /\
    all = nodes (nullish (h' !! l) []).
Proof.
  destruct (getAllCommentsFlat moderated 3 ∅ (postWith [10; 11])) as [[[h' p'] all]|]
    eqn:Hall; [|vm_compute in Hall; discriminate Hall].
  destruct (all_comments_flat_lists_every_node moderated 3 ∅ h' (postWith [10; 11])
              p' all Hall) as (l & Hget & Hnodes & _).
  by exists h', p', all, l.
Defined.

Lemma find_comment_by_id_witness :
  exists h' p' c,
    findComment moderated 3 ∅ (postWith [10; 11]) 20 = Some (h', p', Some c) /\
    comment_id c = 20.
Proof.
  destruct (findComment moderated 3 ∅ (postWith [10; 11]) 20) as [[[h' p'] [c|]]|]
    eqn:Hfind; try (vm_compute in Hfind; discriminate Hfind).
  destruct (find_comment_by_id moderated 3 ∅ h' (postWith [10; 11]) p' 20 (Some c) Hfind)
    as (all & _ & Hid & _).
  by exists h', p', c.
Defined.

End BuiltTreeWitnesses.

(** ** The client *)

Section ClientProperties.

Import Post Client ClientSearch Answers.

Lemma getPost_runs net i log :
  exists r, getPost net i log = (log ++ [GetItem i], inr r) /\
    (forall p, r = Some p -> own_id net -> post_id p = i).
Proof.
  unfold getPost, bind, request, resolve.
  eexists. split; [reflexivity|]. intros p Hp Hown.
  destruct (net_item net i) as [| |[item|]] eqn:Hitem; try done.
  destruct (removed item); [done|].
  unfold construct in Hp. rewrite (Hown i item Hitem) in Hp. by injection Hp as <-.
Qed.

Lemma getPostsByIds_runs (net : Network) (postIds : list Z) (log : list Request) :
  exists posts,
    getPostsByIds net postIds log = (log ++ map GetItem postIds, inr posts) /\
    (length posts <= length postIds)%nat.
Proof.
  revert log. induction postIds as [|i ids IH]; intros log.
  - exists []. simpl. unfold resolve. by rewrite app_nil_r.
  - destruct (getPost_runs net i log) as (r & Hr & _).
    destruct (IH (log ++ [GetItem i])) as (posts & Hposts & Hlen).
    exists (match r with Some p => p :: posts | None => posts end). split.
    + simpl. unfold bind at 1. rewrite Hr. unfold bind at 1. rewrite Hposts.
      unfold resolve. by rewrite <- app_assoc.
    + destruct r; simpl; lia.
Qed.

(** [getPostsByIds] never rejects: it sends exactly one item request per
    identifier, in order, returns at most one post per identifier, and over
    a network that answers with the item asked for the identifiers of the
    posts are a subsequence of those asked for. *)
Theorem posts_by_ids_one_request_each (net : Network) (postIds : list Z)
    (log : list Request) :
  exists posts,
    getPostsByIds net postIds log = (log ++ map GetItem postIds, inr posts) /\
    (length posts <= length postIds)%nat /\
    (own_id net -> map post_id posts `sublist_of` postIds).
Proof.
  revert log. induction postIds as [|i ids IH]; intros log.
  - exists []. simpl. unfold resolve. by rewrite app_nil_r.
  - destruct (getPost_runs net i log) as (r & Hr & Hid).
    destruct (IH (log ++ [GetItem i])) as (posts & Hposts & Hlen & Hsub).
    exists (match r with Some p => p :: posts | None => posts end).
    split_and!.
    + simpl. unfold bind at 1. rewrite Hr. unfold bind at 1. rewrite Hposts.
      unfold resolve. by rewrite <- app_assoc.
    + destruct r; simpl; lia.
    + intros Hown. destruct r as [p|]; simpl.
      * rewrite (Hid p eq_refl Hown). by apply sublist_skip, Hsub.
      * by apply sublist_cons, Hsub.
Qed.

Lemma slice0_length {A} (xs : list A) (limit : Z) :
  0 <= limit -> len (slice0 xs limit) <= limit.
Proof.
  intros Hl. unfold slice0, len.
  destruct (limit <? 0) eqn:E; [apply Z.ltb_lt in E; lia|].
  rewrite length_take. lia.
Qed.

Lemma fetchStoryIds_runs net feedType log :
  fetchStoryIds net feedType log =
  (log ++ [GetStories feedType],
   match net_stories net feedType with
   | Threw err =>
     inl ("Failed to fetch story IDs for " +:+ feedName feedType +:+ ": " +:+ err)
   | NotOk =>
     inl ("Failed to fetch story IDs for " +:+ feedName feedType +:+
          ": Error: Failed to fetch " +:+ feedName feedType +:+ " stories")
   | Json storyIds => inr storyIds
   end).
Proof.
  unfold fetchStoryIds, bind, request. by destruct (net_stories net feedType).
Qed.

(** With a limit between 1 and 500, [getPosts] first asks for the story
    list.  If that fails it rejects after this one request; otherwise it asks
    for the first [limit] stories one by one, in order, and resolves with at
    most [limit] posts. *)
Theorem get_posts_respects_limit (net : Network) (feedType : FeedType) (limit : Z)
    (log : list Request) :
  1 <= limit <= 500 ->
  match net_stories net feedType with
  | Json storyIds =>
    exists posts,
      getPosts net feedType limit log
      = (log ++ GetStories feedType :: map GetItem (take (Z.to_nat limit) storyIds),
         inr posts) /\
      len posts <= limit
  | _ =>
    exists message, getPosts net feedType limit log = (log ++ [GetStories feedType], inl message)
  end.
Proof.
  intros Hl. unfold getPosts.
  rewrite bool_decide_eq_false_2, bool_decide_eq_false_2 by lia.
  unfold bind. rewrite fetchStoryIds_runs.
  destruct (net_stories net feedType) as [err| |storyIds];
    [eexists; reflexivity | eexists; reflexivity |].
  destruct (getPostsByIds_runs net (slice0 storyIds limit)
              (log ++ [GetStories feedType])) as (posts & Hposts & Hlen).
  exists posts. rewrite Hposts.
  assert (Hslice : slice0 storyIds limit = take (Z.to_nat limit) storyIds).
  { unfold slice0. destruct (limit <? 0) eqn:E; [apply Z.ltb_lt in E; lia | done]. }
  split.
  - by rewrite <- app_assoc, Hslice.
  - pose proof (slice0_length storyIds limit). unfold len in *. lia.
Qed.

Lemma get_posts_respects_limit_witness :
  exists posts,
    getPosts smallSite TOP 2 []
    = ([] ++ GetStories TOP :: map GetItem (take (Z.to_nat 2) [1; 2; 3; 99]), inr posts) /\
    len posts <= 2.
Proof.
  apply (get_posts_respects_limit smallSite TOP 2 []). lia.
Defined.

(** The loop of [getPostsByUser] never rejects, keeps only stories, jobs and
    polls, and stops at [limit] posts. *)
Lemma userPosts_bounded net limit ids : forall posts log,
  len posts < limit ->
  Forall (fun p => isPostType (type p) = true) posts ->
  exists log' posts',
    userPosts net limit ids posts log = (log', inr posts') /\
    len posts' <= limit /\
    Forall (fun p => isPostType (type p) = true) posts'.
Proof.
  induction ids as [|i ids IH]; intros posts log Hlen Hty.
  - exists log, posts. simpl. unfold resolve. split_and!; [done | lia | done].
  - simpl. destruct (getPost_runs net i log) as (r & Hr & _).
    unfold bind at 1. rewrite Hr.
    destruct r as [p|]; [|by apply IH].
    destruct (isPostType (type p)) eqn:Hp; [|by apply IH].
    assert (Hlen' : len (posts ++ [p]) = len posts + 1).
    { unfold len. rewrite length_app. simpl. lia. }
    assert (Hty' : Forall (fun p => isPostType (type p) = true) (posts ++ [p])).
    { apply Forall_app. split; [done|]. by apply Forall_singleton. }
    case_bool_decide as Hfull.
    + eexists _, _. unfold resolve. split_and!; [done | lia | done].
    + apply IH; [lia | done].
Qed.

(** With a limit between 1 and 500, [getPostsByUser] rejects with the
    "not found" message, after the one user request, when no user document
    can be had; otherwise it never rejects, and resolves with at most
    [limit] posts, each a story, a job or a poll. *)
Theorem get_posts_by_user_respects_limit (net : Network) (username : string)
    (limit : Z) (log : list Request) :
  1 <= limit <= 500 ->
  (no_user net username ->
   getPostsByUser net username limit log
   = (log ++ [GetUser username],
      inl ("User " +:+ dquote +:+ username +:+ dquote +:+ " not found"))) /\
  (~ no_user net username ->
   exists log' posts,
     getPostsByUser net username limit log = (log', inr posts) /\
     len posts <= limit /\
     Forall (fun p => isPostType (type p) = true) posts).
Proof.
  intros Hl. unfold getPostsByUser, no_user.
  rewrite bool_decide_eq_false_2, bool_decide_eq_false_2 by lia.
  unfold getUser, bind, request, resolve.
  destruct (net_user net username) as [err| |[user|]]; split; try done;
    try (by intros Hno; destruct Hno).
  intros _. apply userPosts_bounded; [unfold len; simpl; lia | constructor].
Qed.

Lemma get_posts_by_user_respects_limit_witness :
  (exists log' posts,
     getPostsByUser smallSite "pg" 2 [] = (log', inr posts) /\
     len posts <= 2 /\
     Forall (fun p => isPostType (type p) = true) posts) /\
  getPostsByUser smallSite "nobody" 2 []
  = ([] ++ [GetUser "nobody"],
     inl ("User " +:+ dquote +:+ "nobody" +:+ dquote +:+ " not found")).
Proof.
  split.
  - apply (get_posts_by_user_respects_limit smallSite "pg" 2 []); [lia|].
    intros Hno. exact Hno.
  - apply (get_posts_by_user_respects_limit smallSite "nobody" 2 []); [lia|].
    exact I.
Defined.

Section Search.

Variable toLowerCase : string -> string.
Variable includes : string -> string -> bool.

(** [searchPosts] sends the requests of [getPosts] and no other, rejects
    exactly when [getPosts] does (so an out-of-range limit is refused before
    any request), and resolves with a subsequence of the posts of
    [getPosts]: those whose lower-cased title includes the lower-cased
    query. *)
Theorem search_posts_filters_get_posts (net : Network) (feedType : FeedType)
    (query : string) (limit : Z) (log : list Request) :
  match getPosts net feedType limit log with
  | (log', inl message) =>
    searchPosts toLowerCase includes net feedType query limit log = (log', inl message)
  | (log', inr posts) =>
    exists found,
      searchPosts toLowerCase includes net feedType query limit log = (log', inr found) /\
      found `sublist_of` posts /\
      (forall p, p ∈ found <->
         p ∈ posts /\ includes (toLowerCase (title p)) (toLowerCase query) = true)
  end.
Proof.
  unfold searchPosts, bind, resolve.
  destruct (getPosts net feedType limit log) as [log' [message|posts]]; [done|].
  eexists. split; [reflexivity|]. split.
  - induction posts as [|p posts IH]; simpl; [done|].
    destruct (includes _ _); [by apply sublist_skip | by apply sublist_cons].
  - intros p. rewrite !list_elem_of_In, filter_In. tauto.
Qed.

End Search.

End ClientProperties.

(** ** The visible windows *)

Section Windows.

Import Utils.

(** For a positive capacity the window of the post view is a slice of the
    flat list whatever the selected index is, also below zero or past the
    end: [0 <= start <= end <= length], of size [min capacity length]. *)
Theorem window_is_a_slice_for_any_index {A} (seq : list A) (i cap : Z) :
  0 < cap ->
  let (start, end_) := PostView.window seq i cap in
  0 <= start <= end_ /\ end_ <= len seq /\ end_ - start = Z.min cap (len seq).
Proof.
  intros Hcap. unfold PostView.window, PostView.visibleWindow, len.
  rewrite bool_decide_eq_false_2 by lia.
  generalize (cap / 2). intros half.
  case_bool_decide; lia.
Qed.

Lemma window_is_a_slice_for_any_index_witness :
  let (start, end_) := PostView.window (seqZ 0 7) (-1) 3 in
  0 <= start <= end_ /\ end_ <= len (seqZ 0 7) /\
  end_ - start = Z.min 3 (len (seqZ 0 7)).
Proof.
  apply (window_is_a_slice_for_any_index (seqZ 0 7) (-1) 3). lia.
Defined.

(** On a terminal at least as tall as the reserved lines, the capacity of
    the feed view is not negative and its window is a slice of the post
    list, of size [min capacity length], whatever the selected index is; with
    a positive capacity it is the window the post view computes, and it
    contains a selected index that is in range. *)
Theorem feed_window_is_a_slice {A} (posts : list A) (terminalHeight i : Z)
    (isSearchMode : bool) (searchQuery : string) :
  FeedView.reservedLines isSearchMode searchQuery <= terminalHeight ->
  let cap := FeedView.maxVisiblePosts terminalHeight isSearchMode searchQuery in
  0 <= cap /\
  let (start, end_) := FeedView.visibleWindow i (len posts) cap in
  0 <= start <= end_ /\ end_ <= len posts /\
  end_ - start = Z.min cap (len posts) /\
  (0 < cap -> FeedView.visibleWindow i (len posts) cap = PostView.window posts i cap) /\
  (0 < cap -> 0 <= i < len posts -> start <= i < end_).
Proof.
  intros Hh. simpl.
  assert (Hcap : 0 <= FeedView.maxVisiblePosts terminalHeight isSearchMode searchQuery).
  { unfold FeedView.maxVisiblePosts. Z.div_mod_to_equations. lia. }
  split; [done|].
  generalize dependent (FeedView.maxVisiblePosts terminalHeight isSearchMode searchQuery).
  intros cap Hcap.
  unfold PostView.window, PostView.visibleWindow, FeedView.visibleWindow.
  assert (Hlen0 : 0 <= len posts) by (unfold len; lia).
  assert (Hhalf : 0 <= cap / 2 /\ (0 < cap -> cap / 2 < cap))
    by (Z.div_mod_to_equations; lia).
  generalize dependent (cap / 2). intros half Hhalf.
  case_bool_decide; split_and!; try lia;
    try (intros Hpos; by rewrite bool_decide_eq_false_2 by lia).
Qed.

Lemma feed_window_is_a_slice_witness :
  let cap := FeedView.maxVisiblePosts 24 false EmptyString in
  0 <= cap /\
  let (start, end_) := FeedView.visibleWindow 29 (len (seqZ 0 30)) cap in
  0 <= start <= end_ /\ end_ <= len (seqZ 0 30) /\
  end_ - start = Z.min cap (len (seqZ 0 30)) /\
  (0 < cap ->
   FeedView.visibleWindow 29 (len (seqZ 0 30)) cap = PostView.window (seqZ 0 30) 29 cap) /\
  (0 < cap -> 0 <= 29 < len (seqZ 0 30) -> start <= 29 < end_).
Proof.
  apply (feed_window_is_a_slice (seqZ 0 30) 24 29 false EmptyString).
  vm_compute. discriminate.
Defined.

End Windows.

(** ** The capacity of the post view *)

Section PostViewCapacity.

Import Utils Post UtilsText JsNumber PostViewRender.

Variable stripHtml : string -> string.

Lemma ceilDiv_finite (a b : Z) : b <> 0 -> ceilDiv a b = Fin (- ((- a) / b)).
Proof. intros Hb. unfold ceilDiv. by rewrite bool_decide_eq_false_2. Qed.

Lemma ceilDiv_zero (a : Z) :
  0 <= a -> ceilDiv a 0 = if bool_decide (a = 0) then NaN else PosInf.
Proof.
  intros Ha. unfold ceilDiv. rewrite bool_decide_eq_true_2 by done.
  case_bool_decide; [done|]. by rewrite bool_decide_eq_true_2 by lia.
Qed.

Lemma strlen_nonneg (s : string) : 0 <= strlen s.
Proof. unfold strlen. lia. Qed.

Lemma strlen_empty (s : string) : strlen s = 0 <-> s = EmptyString.
Proof. unfold strlen. destruct s; simpl; split; intros H; try done; lia. Qed.

(** Over a finite capacity the window is the window over the integers. *)
Lemma visibleWindow_finite (i length cap : Z) :
  visibleWindow i length (Fin cap) =
  (Fin (PostView.visibleWindow i length cap).1, Fin (PostView.visibleWindow i length cap).2).
Proof.
  unfold visibleWindow, PostView.visibleWindow. simpl.
  case_bool_decide; [done|]. simpl.
  replace (i + - (cap / 2)) with (i - cap / 2) by lia.
  set (start := Z.max 0 (i - cap / 2)).
  set (end_ := Z.min length (start + cap)).
  replace (end_ + - start) with (end_ - start) by lia.
  case_bool_decide; simpl; [|done].
  by replace (end_ + - cap) with (end_ - cap) by lia.
Qed.

(** Except on a terminal of 4 columns, the capacity the post view computes
    is an integer, at least 1, the window is a slice of the flat list, a
    list that is not empty shows at least one comment, and a selected index
    in range is inside the window.  On a terminal of 4 columns the title and
    text lines are quotients by zero: with an empty title, or a text that is
    empty once stripped, the capacity is [NaN], the window is [(NaN, NaN)]
    and no comment is shown; otherwise the capacity is 1. *)
Theorem post_view_shows_selection_unless_four_columns {A} (flat : list A)
    (terminalHeight terminalWidth i : Z) (p : HackerNewsPost) :
  let cap := maxVisibleComments stripHtml terminalHeight terminalWidth p in
  (terminalWidth <> 4 ->
   exists h c start end_,
     headerLines stripHtml terminalWidth p = Fin h /\
     cap = Fin c /\ c = PostView.maxVisibleComments terminalHeight h /\ 1 <= c /\
     visibleWindow i (len flat) cap = (Fin start, Fin end_) /\
     (start, end_) = PostView.window flat i c /\
     0 <= start <= end_ /\ end_ <= len flat /\
     (flat <> [] -> start < end_) /\
     (0 <= i < len flat -> start <= i < end_) /\
     visibleComments flat i cap
     = take (Z.to_nat (end_ - start)) (drop (Z.to_nat start) flat)) /\
  (terminalWidth = 4 ->
   (title p = EmptyString \/
    exists t, text p = Some t /\ slice0 (stripHtml t) 200 = EmptyString) ->
   cap = NaN /\
   visibleWindow i (len flat) cap = (NaN, NaN) /\
   visibleComments flat i cap = []) /\
  (terminalWidth = 4 ->
   title p <> EmptyString ->
   (forall t, text p = Some t -> slice0 (stripHtml t) 200 <> EmptyString) ->
   cap = Fin 1).
Proof.
  cbv zeta. split_and!.
  - intros Hw.
    assert (Hb : terminalWidth - 4 <> 0) by lia.
    assert (Hh : exists h, headerLines stripHtml terminalWidth p = Fin h).
    { unfold headerLines, titleLines, postTextLines.
      destruct (text p) as [t|]; rewrite !(ceilDiv_finite _ _ Hb); simpl; by eexists. }
    destruct Hh as [h Hh].
    set (c := PostView.maxVisibleComments terminalHeight h).
    assert (Hc : 1 <= c) by (unfold c, PostView.maxVisibleComments; lia).
    assert (Hcap : maxVisibleComments stripHtml terminalHeight terminalWidth p = Fin c).
    { unfold maxVisibleComments. rewrite Hh. simpl.
      unfold c, PostView.maxVisibleComments.
      by replace (terminalHeight + - h + -2) with (terminalHeight - h - 2) by lia. }
    rewrite Hcap.
    pose proof (visibleWindow_finite i (len flat) c) as Hwin.
    destruct (PostView.visibleWindow i (len flat) c) as [start end_] eqn:Hz.
    simpl in Hwin.
    assert (Hbounds : 0 <= start <= end_ /\ end_ <= len flat /\
                      (flat <> [] -> start < end_) /\
                      (0 <= i < len flat -> start <= i < end_)).
    { revert Hz. unfold PostView.visibleWindow.
      rewrite bool_decide_eq_false_2 by lia.
      assert (Hlen : flat <> [] -> 0 < len flat).
      { destruct flat; [done|]. unfold len. simpl. lia. }
      assert (Hlen0 : 0 <= len flat) by (unfold len; lia).
      assert (Hhalf : 0 <= c / 2 < c) by (Z.div_mod_to_equations; lia).
      generalize dependent (c / 2). intros half Hhalf.
      case_bool_decide; intros [= <- <-]; split_and!; try lia;
        intros Hx; try specialize (Hlen Hx); lia. }
    exists h, c, start, end_. split_and!; try done; try tauto.
    unfold visibleComments. rewrite Hwin. unfold slice, toIndex.
    destruct Hbounds as ([H0 Hse] & Hel & _).
    rewrite (proj2 (Z.ltb_ge start 0)) by done.
    rewrite (proj2 (Z.ltb_ge end_ 0)) by lia.
    by rewrite !Z.min_l by lia.
  - intros -> Hempty.
    assert (Hh : headerLines stripHtml 4 p = NaN).
    { unfold headerLines, titleLines, postTextLines. simpl.
      destruct Hempty as [Ht|(t & Ht & Hs)].
      - rewrite Ht. simpl. by destruct (text p).
      - rewrite Ht, Hs. simpl.
        rewrite (ceilDiv_zero _ (strlen_nonneg _)). by case_bool_decide. }
    assert (Hcap : maxVisibleComments stripHtml terminalHeight 4 p = NaN).
    { unfold maxVisibleComments. by rewrite Hh. }
    rewrite Hcap. by split_and!.
  - intros -> Htitle Htext.
    assert (Hh : headerLines stripHtml 4 p = PosInf).
    { unfold headerLines, titleLines, postTextLines. simpl.
      rewrite (ceilDiv_zero _ (strlen_nonneg _)).
      rewrite bool_decide_eq_false_2 by (by rewrite strlen_empty).
      destruct (text p) as [t|] eqn:Ht; [|done].
      rewrite (ceilDiv_zero _ (strlen_nonneg _)).
      rewrite bool_decide_eq_false_2; [done|]. rewrite strlen_empty. by apply Htext. }
    unfold maxVisibleComments. by rewrite Hh.
Qed.

End PostViewCapacity.

(** ** Text helpers *)

Section TextProperties.

Import UtilsText.

Lemma substring_length (n : nat) (s : string) :
  String.length (String.substring 0 n s) = Nat.min n (String.length s).
Proof.
  revert n. induction s as [|a s IH]; intros [|n]; simpl; try done.
  by rewrite IH.
Qed.

Lemma append_length (s t : string) :
  String.length (s +:+ t) = (String.length s + String.length t)%nat.
Proof.
  induction s as [|a s IH]; [done|].
  change (S (String.length (s +:+ t)) = S (String.length s + String.length t)).
  by rewrite IH.
Qed.

Lemma substring_prefix (n : nat) (s : string) :
  exists rest, s = String.substring 0 n s +:+ rest.
Proof.
  revert n. induction s as [|a s IH]; intros [|n]; simpl.
  - by exists EmptyString.
  - by exists EmptyString.
  - by eexists.
  - destruct (IH n) as [rest Hrest]. exists rest.
    change (String a s = String a (String.substring 0 n s +:+ rest)). by f_equal.
Qed.

(** For a width of at least 3, [truncate] never returns more than
    [maxLength] code units: a text that fits is returned as it is, a longer
    one becomes its first [maxLength - 3] code units followed by three dots,
    [maxLength] code units in all; so truncating twice is truncating once. *)
Theorem truncate_fits (text : string) (maxLength : Z) :
  3 <= maxLength ->
  strlen (truncate text maxLength) <= maxLength /\
  (strlen text <= maxLength -> truncate text maxLength = text) /\
  (maxLength < strlen text ->
   strlen (truncate text maxLength) = maxLength /\
   exists kept rest,
     text = kept +:+ rest /\ strlen kept = maxLength - 3 /\
     truncate text maxLength = kept +:+ "...") /\
  truncate (truncate text maxLength) maxLength = truncate text maxLength.
Proof.
  intros Hmax.
  assert (Hshort : strlen text <= maxLength -> truncate text maxLength = text).
  { intros H. unfold truncate. by rewrite bool_decide_eq_true_2. }
  assert (Hlong : maxLength < strlen text ->
    strlen (truncate text maxLength) = maxLength /\
    exists kept rest,
      text = kept +:+ rest /\ strlen kept = maxLength - 3 /\
      truncate text maxLength = kept +:+ "...").
  { intros H. unfold truncate. rewrite bool_decide_eq_false_2 by lia.
    unfold slice0. destruct (maxLength - 3 <? 0) eqn:E; [apply Z.ltb_lt in E; lia|].
    assert (Hk : strlen (String.substring 0 (Z.to_nat (Z.min (maxLength - 3) (strlen text)))
                           text) = maxLength - 3).
    { unfold strlen in *. rewrite substring_length. lia. }
    split.
    - unfold strlen in *. rewrite append_length. simpl. lia.
    - destruct (substring_prefix (Z.to_nat (Z.min (maxLength - 3) (strlen text))) text)
        as [rest Hrest].
      by eexists _, rest. }
  assert (Hfit : strlen (truncate text maxLength) <= maxLength).
  { destruct (decide (strlen text <= maxLength)) as [Hs|Hs].
    - by rewrite Hshort.
    - destruct Hlong as [-> _]; lia. }
  split_and!; try done.
  unfold truncate at 1. by rewrite bool_decide_eq_true_2.
Qed.

Lemma truncate_fits_witness :
  truncate "Show HN: a terminal client" 10 = "Show HN..."%string /\
  truncate (truncate "Show HN: a terminal client" 10) 10
  = truncate "Show HN: a terminal client" 10.
Proof.
  split; [reflexivity|].
  apply (truncate_fits "Show HN: a terminal client" 10). lia.
Defined.

(** [timeAgo] shows the whole seconds elapsed when under a minute (also
    when the date lies ahead of the clock), and otherwise the elapsed time
    rounded down to whole minutes, hours, days, 30-day months or 360-day
    years, in the largest unit that is not zero. *)
Theorem time_ago_rounds_down (now date : Z) :
  let s := (now - date) / 1000 in
  (s < 60 /\ timeAgo now date = pretty s +:+ "s ago") \/
  (60 <= s < 3600 /\ timeAgo now date = pretty (s / 60) +:+ "m ago") \/
  (3600 <= s < 86400 /\ timeAgo now date = pretty (s / 3600) +:+ "h ago") \/
  (86400 <= s < 2592000 /\ timeAgo now date = pretty (s / 86400) +:+ "d ago") \/
  (2592000 <= s < 31104000 /\ timeAgo now date = pretty (s / 2592000) +:+ "mo ago") \/
  (31104000 <= s /\ timeAgo now date = pretty (s / 31104000) +:+ "y ago").
Proof.
  simpl. unfold timeAgo.
  generalize ((now - date) / 1000). intros s.
  assert (H1 : s / 60 / 60 = s / 3600) by (rewrite Z.div_div by lia; done).
  assert (H2 : s / 60 / 60 / 24 = s / 86400) by (rewrite !Z.div_div by lia; done).
  assert (H3 : s / 60 / 60 / 24 / 30 = s / 2592000) by (rewrite !Z.div_div by lia; done).
  assert (H4 : s / 60 / 60 / 24 / 30 / 12 = s / 31104000)
    by (rewrite !Z.div_div by lia; done).
  rewrite H4, H3, H2, H1.
  repeat case_bool_decide.
  - left. done.
  - right; left. split; [|done]. Z.div_mod_to_equations. lia.
  - right; right; left. split; [|done]. Z.div_mod_to_equations. lia.
  - do 3 right; left. split; [|done]. Z.div_mod_to_equations. lia.
  - do 4 right; left. split; [|done]. Z.div_mod_to_equations. lia.
  - do 5 right. split; [|done]. Z.div_mod_to_equations. lia.
Qed.

End TextProperties.

Section WrapProperties.

Import UtilsText Shape.

Lemma strlen_zero (s : string) : strlen s = 0 <-> s = EmptyString.
Proof. unfold strlen. destruct s; simpl; split; intros H; try done; lia. Qed.

Lemma strlen_pos (s : string) : s <> EmptyString -> strlen s > 0.
Proof. unfold strlen. destruct s; simpl; [done | lia]. Qed.

Lemma app_assoc_string (s t u : string) : (s +:+ t) +:+ u = s +:+ t +:+ u.
Proof.
  induction s as [|a s IH]; [done|].
  change (String a ((s +:+ t) +:+ u) = String a (s +:+ t +:+ u)). by rewrite IH.
Qed.

Lemma splitSpace_nonempty text : splitSpace text <> [].
Proof.
  destruct text as [|a rest]; simpl; [done|].
  case_bool_decide; [done|]. by destruct (splitSpace rest).
Qed.

Lemma concat_cons_cons sep (x y : string) l :
  String.concat sep (x :: y :: l) = x +:+ sep +:+ String.concat sep (y :: l).
Proof. reflexivity. Qed.

(** [text.split(' ').join(' ')] is [text]. *)
Lemma split_join text : String.concat " " (splitSpace text) = text.
Proof.
  induction text as [|a rest IH]; [done|]. simpl.
  pose proof (splitSpace_nonempty rest) as Hne.
  destruct (splitSpace rest) as [|w ws] eqn:Hws; [done|].
  case_bool_decide as Ha.
  - rewrite concat_cons_cons, IH, Ha. reflexivity.
  - destruct ws as [|w' ws].
    + simpl in IH |- *. by rewrite IH.
    + rewrite concat_cons_cons in IH |- *.
      change (String a (w +:+ " " +:+ String.concat " " (w' :: ws)) = String a rest).
      by rewrite IH.
Qed.

Lemma concat_snoc (l : list string) (w : string) :
  l <> [] -> String.concat " " (l ++ [w]) = String.concat " " l +:+ " " +:+ w.
Proof.
  induction l as [|x l IH]; [done|]. intros _.
  destruct l as [|y l]; [reflexivity|].
  change (x +:+ " " +:+ String.concat " " ((y :: l) ++ [w])
          = (x +:+ " " +:+ String.concat " " (y :: l)) +:+ " " +:+ w).
  rewrite IH by done. by rewrite !app_assoc_string.
Qed.

Lemma concat_snoc_append (l : list string) (x y : string) :
  String.concat " " (l ++ [x +:+ y]) = String.concat " " (l ++ [x]) +:+ y.
Proof.
  induction l as [|z l IH]; [reflexivity|].
  destruct l as [|z' l]; simpl in *.
  - by rewrite !app_assoc_string.
  - rewrite IH. by rewrite !app_assoc_string.
Qed.

Lemma wrapStep_fits maxWidth words lines cur word :
  word ∈ words ->
  Forall (fun l => l <> EmptyString /\ fits maxWidth words l) lines ->
  cur = EmptyString \/ fits maxWidth words cur ->
  Forall (fun l => l <> EmptyString /\ fits maxWidth words l)
         (wrapStep maxWidth (lines, cur) word).1 /\
  ((wrapStep maxWidth (lines, cur) word).2 = EmptyString \/
   fits maxWidth words (wrapStep maxWidth (lines, cur) word).2).
Proof.
  intros Hw Hlines Hcur. unfold wrapStep.
  case_bool_decide as Hfit; simpl.
  - split; [done|]. right. by left.
  - split; [|right; by right].
    destruct (bool_decide (strlen cur > 0)) eqn:Hpos; [|done].
    apply bool_decide_eq_true in Hpos.
    apply Forall_app. split; [done|]. apply Forall_singleton.
    assert (Hne : cur <> EmptyString).
    { intros ->. unfold strlen in Hpos. simpl in Hpos. lia. }
    split; [done|]. by destruct Hcur.
Qed.

Lemma wrapLoop_fits maxWidth words : forall ws lines cur,
  (forall w, w ∈ ws -> w ∈ words) ->
  Forall (fun l => l <> EmptyString /\ fits maxWidth words l) lines ->
  cur = EmptyString \/ fits maxWidth words cur ->
  Forall (fun l => l <> EmptyString /\ fits maxWidth words l)
         (fold_left (wrapStep maxWidth) ws (lines, cur)).1 /\
  ((fold_left (wrapStep maxWidth) ws (lines, cur)).2 = EmptyString \/
   fits maxWidth words (fold_left (wrapStep maxWidth) ws (lines, cur)).2).
Proof.
  induction ws as [|w ws IH]; intros lines cur Hin Hlines Hcur; [done|].
  cbn [fold_left].
  destruct (wrapStep_fits maxWidth words lines cur w) as [H1 H2];
    [apply Hin; by left | done | done |].
  destruct (wrapStep maxWidth (lines, cur) w) as [lines' cur'] eqn:Hstep.
  apply IH; [|done..]. intros w' Hw'. apply Hin. by right.
Qed.

(** Every line [wrapText] returns is non-empty and is at most [maxWidth]
    code units long, unless it is a single piece of the text that is by
    itself longer than that. *)
Theorem wrap_lines_fit (text : string) (maxWidth : Z) (line : string) :
  line ∈ wrapText text maxWidth ->
  line <> EmptyString /\
  (strlen line <= maxWidth \/ line ∈ splitSpace text).
Proof.
  unfold wrapText.
  destruct (wrapLoop_fits maxWidth (splitSpace text) (splitSpace text) [] EmptyString)
    as [H1 H2]; [done | constructor | by left |].
  destruct (fold_left _ _ _) as [lines cur]. simpl in *.
  case_bool_decide as Hpos; intros Hin.
  - apply elem_of_app in Hin as [Hin|Hin].
    + by apply (proj1 (Forall_forall _ _) H1).
    + apply list_elem_of_singleton in Hin as ->.
      assert (Hne : cur <> EmptyString).
      { intros ->. unfold strlen in Hpos. simpl in Hpos. lia. }
      split; [done|]. by destruct H2.
  - by apply (proj1 (Forall_forall _ _) H1).
Qed.

Lemma wrap_lines_fit_witness :
  "alpha beta"%string <> EmptyString /\
  (strlen "alpha beta" <= 10 \/ "alpha beta"%string ∈ splitSpace "alpha beta gamma").
Proof.
  apply (wrap_lines_fit "alpha beta gamma" 10 "alpha beta").
  vm_compute. by left.
Defined.

(** The loop invariant of [wrapText] for content: once a word has been
    read, the current line is not empty and the lines with the current line,
    joined by spaces, spell the words read. *)
Lemma wrapLoop_joins maxWidth : forall ws read lines cur,
  (forall w, w ∈ ws -> w <> EmptyString) ->
  (read = [] /\ lines = [] /\ cur = EmptyString) \/
  (read <> [] /\ cur <> EmptyString /\
   String.concat " " (lines ++ [cur]) = String.concat " " read) ->
  let st := fold_left (wrapStep maxWidth) ws (lines, cur) in
  (read ++ ws = [] /\ st = ([], EmptyString)) \/
  (st.2 <> EmptyString /\
   String.concat " " (st.1 ++ [st.2]) = String.concat " " (read ++ ws)).
Proof.
  induction ws as [|w ws IH]; intros read lines cur Hne Hinv; cbv zeta; cbn [fold_left].
  - rewrite app_nil_r. cbn [fst snd]. destruct Hinv as [(-> & -> & ->)|(Hr & Hc & Hj)]; [by left | by right].
  - assert (Hw : w <> EmptyString) by (apply Hne; by left).
    assert (Hws : forall w', w' ∈ ws -> w' <> EmptyString)
      by (intros w' Hw'; apply Hne; by right).
    replace (read ++ w :: ws) with ((read ++ [w]) ++ ws) by (by rewrite <- app_assoc).
    destruct (wrapStep maxWidth (lines, cur) w) as [lines' cur'] eqn:Hstep.
    apply (IH (read ++ [w]) lines' cur' Hws). right.
    split; [by destruct read|].
    unfold wrapStep in Hstep.
    destruct Hinv as [(-> & -> & ->)|(Hr & Hc & Hj)].
    + rewrite (bool_decide_eq_true_2 (strlen EmptyString = 0)) in Hstep by done.
      rewrite (bool_decide_eq_false_2 (strlen EmptyString > 0)) in Hstep
        by (unfold strlen; simpl; lia).
      case_bool_decide; injection Hstep as <- <-; by split.
    + rewrite (bool_decide_eq_false_2 (strlen cur = 0)) in Hstep
        by (by rewrite strlen_zero).
      rewrite (bool_decide_eq_true_2 (strlen cur > 0)) in Hstep
        by (by apply strlen_pos).
      case_bool_decide; injection Hstep as <- <-.
      * split; [by destruct cur|].
        rewrite concat_snoc_append, Hj. by rewrite concat_snoc.
      * split; [done|].
        rewrite concat_snoc by (by destruct lines). rewrite Hj.
        by rewrite concat_snoc.
Qed.

(** When the text has no empty piece (no leading, trailing or doubled
    space), [wrapText] only moves line breaks: its lines joined by single
    spaces are the text again. *)
Theorem wrap_then_join_is_identity (text : string) (maxWidth : Z) :
  (forall w, w ∈ splitSpace text -> w <> EmptyString) ->
  String.concat " " (wrapText text maxWidth) = text.
Proof.
  intros Hne. unfold wrapText.
  pose proof (wrapLoop_joins maxWidth (splitSpace text) [] [] EmptyString Hne
                (or_introl (conj eq_refl (conj eq_refl eq_refl)))) as H.
  simpl in H.
  destruct (fold_left _ _ _) as [lines cur]. simpl in H.
  destruct H as [[Hnil _]|[Hcur Hjoin]].
  - by destruct (splitSpace_nonempty text).
  - rewrite bool_decide_eq_true_2
      by (by apply strlen_pos).
    by rewrite Hjoin, split_join.
Qed.

Lemma wrap_then_join_is_identity_witness :
  String.concat " " (wrapText "alpha beta gamma" 10) = "alpha beta gamma"%string.
Proof.
  apply (wrap_then_join_is_identity "alpha beta gamma" 10).
  intros w Hw. vm_compute in Hw.
  repeat (apply elem_of_cons in Hw as [->|Hw]; [done|]).
  by apply elem_of_nil in Hw.
Defined.

End WrapProperties.

(** ** The event logger *)

Section LoggerProperties.

Import EventLogger LogFilter.

Context {Metadata : Type}.

Implicit Types (lg : Logger Metadata) (e : AppEvent Metadata).

Lemma lfilter_filter {A} (p q : A -> bool) (l : list A) :
  List.filter q (List.filter p l) = List.filter (fun x => p x && q x) l.
Proof.
  induction l as [|x l IH]; [done|]. simpl.
  destruct (p x); simpl; [destruct (q x); by rewrite IH | done].
Qed.

Lemma lfilter_true {A} (l : list A) : List.filter (fun _ => true) l = l.
Proof. induction l as [|x l IH]; [done|]. simpl. by rewrite IH. Qed.

Lemma lfilter_ext {A} (p q : A -> bool) (l : list A) :
  (forall x, p x = q x) -> List.filter p l = List.filter q l.
Proof. intros H. induction l as [|x l IH]; [done|]. simpl. by rewrite H, IH. Qed.

Lemma sliceFrom_suffix {A} (xs : list A) (start : Z) : sliceFrom xs start `suffix_of` xs.
Proof. unfold sliceFrom. destruct (start <? 0); apply suffix_drop. Qed.

(** The three filtering passes keep exactly the events that meet the
    filter, in order. *)
Lemma filtered_meets (filter : EventFilter) lg :
  getFilteredEvents (mkFilter (types filter) (startDate filter) (endDate filter) None) lg
  = List.filter (meets filter) (events lg).
Proof.
  unfold getFilteredEvents. simpl.
  set (p1 := fun e : AppEvent Metadata =>
    match types filter with
    | Some ts => if bool_decide (len ts > 0) then bool_decide (event_type e ∈ ts) else true
    | None => true
    end).
  set (p2 := fun e : AppEvent Metadata =>
    match startDate filter with
    | Some d => bool_decide (timestamp e >= d)
    | None => true
    end).
  set (p3 := fun e : AppEvent Metadata =>
    match endDate filter with
    | Some d => bool_decide (timestamp e <= d)
    | None => true
    end).
  assert (H1 : match types filter with
               | Some ts =>
                 if bool_decide (len ts > 0)
                 then List.filter (fun e => bool_decide (event_type e ∈ ts)) (events lg)
                 else events lg
               | None => events lg
               end = List.filter p1 (events lg)).
  { unfold p1. destruct (types filter) as [ts|]; [|by rewrite lfilter_true].
    destruct (bool_decide (len ts > 0)); [done | by rewrite lfilter_true]. }
  rewrite H1.
  assert (H2 : forall l, match startDate filter with
               | Some d => List.filter (fun e => bool_decide (timestamp e >= d)) l
               | None => l
               end = List.filter p2 l).
  { intros l. unfold p2. destruct (startDate filter); [done | by rewrite lfilter_true]. }
  rewrite H2.
  assert (H3 : forall l, match endDate filter with
               | Some d => List.filter (fun e => bool_decide (timestamp e <= d)) l
               | None => l
               end = List.filter p3 l).
  { intros l. unfold p3. destruct (endDate filter); [done | by rewrite lfilter_true]. }
  rewrite H3, !lfilter_filter. apply lfilter_ext. intros e.
  unfold meets. fold (p1 e) (p2 e) (p3 e). by rewrite andb_assoc.
Qed.

(** [getFilteredEvents] returns events of the log that meet every criterion
    given, in log order.  Without a limit, and with a limit of 0, it returns
    all of them; with a limit [n >= 1] it returns the last [n] of them (all,
    if there are fewer). *)
Theorem filtered_events_are_latest_matching (filter : EventFilter) lg :
  let matching := List.filter (meets filter) (events lg) in
  getFilteredEvents filter lg `suffix_of` matching /\
  (limit filter = None \/ limit filter = Some 0 ->
   getFilteredEvents filter lg = matching) /\
  (forall n, limit filter = Some n -> 1 <= n ->
     len (getFilteredEvents filter lg) = Z.min n (len matching)).
Proof.
  simpl. rewrite <- filtered_meets.
  set (matching := getFilteredEvents
         (mkFilter (types filter) (startDate filter) (endDate filter) None) lg).
  assert (Hget : getFilteredEvents filter lg =
                 match limit filter with
                 | Some n => sliceFrom matching (- n)
                 | None => matching
                 end).
  { unfold matching, getFilteredEvents. simpl. by destruct (limit filter). }
  rewrite Hget. split_and!.
  - destruct (limit filter); [apply sliceFrom_suffix | done].
  - intros [-> | ->]; [done|]. unfold sliceFrom. simpl. by rewrite drop_0.
  - intros n -> Hn. unfold sliceFrom, len.
    destruct (- n <? 0) eqn:E; [|apply Z.ltb_ge in E; lia].
    rewrite length_drop. lia.
Qed.

Lemma countByType_lookup (type : string) (es : list (AppEvent Metadata)) :
  forall m : gmap string Z,
    nullish (fold_left
      (fun byType e => <[event_type e := nullish (byType !! event_type e) 0 + 1]> byType)
      es m !! type) 0
    = nullish (m !! type) 0 + countOf type es.
Proof.
  induction es as [|e es IH]; intros m.
  - unfold countOf, len. simpl. lia.
  - simpl. rewrite IH. unfold countOf, len. simpl.
    destruct (decide (event_type e = type)) as [He|He].
    + rewrite bool_decide_eq_true_2 by done. rewrite He, lookup_insert_eq. simpl. lia.
    + rewrite bool_decide_eq_false_2 by done. by rewrite lookup_insert_ne.
Qed.

Lemma countByType_present (type : string) (es : list (AppEvent Metadata)) :
  forall m : gmap string Z,
    is_Some (fold_left
      (fun byType e => <[event_type e := nullish (byType !! event_type e) 0 + 1]> byType)
      es m !! type)
    <-> is_Some (m !! type) \/ exists e, e ∈ es /\ event_type e = type.
Proof.
  induction es as [|e es IH]; intros m; simpl.
  - split; [by left|]. intros [H|(e & He & _)]; [done | by apply elem_of_nil in He].
  - rewrite IH. destruct (decide (event_type e = type)) as [He|He].
    + rewrite He, lookup_insert_eq. split; intros _.
      * right. exists e. split; [by left | done].
      * left. by eexists.
    + rewrite lookup_insert_ne by done. split.
      * intros [H|(e' & He' & Ht)]; [by left|]. right. exists e'. split; [by right | done].
      * intros [H|(e' & [->|He']%elem_of_cons & Ht)]; [by left | done |].
        right. by exists e'.
Qed.

(** The statistics count every event once: the total is the length of the
    log; the table by type holds, for each type that occurs, the number of
    events of that type, and has no entry for a type that does not occur;
    and the four named counters are the entries of their types. *)
Theorem stats_count_each_event (now : Z) lg (type : string) :
  let stats := getStats now lg in
  totalEvents stats = len (events lg) /\
  nullish (eventsByType stats !! type) 0 = countOf type (events lg) /\
  (eventsByType stats !! type = None <->
   forall e, e ∈ events lg -> event_type e <> type) /\
  postsViewed stats = nullish (eventsByType stats !! "post.viewed"%string) 0 /\
  articlesOpened stats
  = nullish (eventsByType stats !! "article.opened_browser"%string) 0 /\
  commentsViewed stats = nullish (eventsByType stats !! "comment.viewed"%string) 0 /\
  feedChanges stats = nullish (eventsByType stats !! "feed.changed"%string) 0.
Proof.
  simpl. unfold countByType.
  assert (Hc : forall t, nullish (fold_left
      (fun byType e => <[event_type e := nullish (byType !! event_type e) 0 + 1]> byType)
      (events lg) (∅ : gmap string Z) !! t) 0 = countOf t (events lg)).
  { intros t. by rewrite countByType_lookup, lookup_empty. }
  split_and!; try done; try (by rewrite Hc).
  rewrite eq_None_not_Some, countByType_present, lookup_empty. split.
  - intros Hno e He Ht. apply Hno. right. by exists e.
  - intros Hno [[? H]|(e & He & Ht)]; [done | by apply (Hno e)].
Qed.

Lemma logAll_keeps_tracking (entries : list (string * Z * string * Metadata)) :
  forall lg,
    currentPostViewTime (logAll entries lg) = currentPostViewTime lg /\
    currentPostId (logAll entries lg) = currentPostId lg /\
    currentPostTitle (logAll entries lg) = currentPostTitle lg /\
    events (logAll entries lg) = events lg ++ map logged entries.
Proof.
  induction entries as [|[[[uuid now] type] m] entries IH]; intros lg.
  - simpl. by rewrite app_nil_r.
  - unfold logAll. simpl fold_left. fold (logAll entries (log uuid now type m lg)).
    destruct (IH (log uuid now type m lg)) as (Ht & Hi & Hn & He).
    rewrite Ht, Hi, Hn, He. simpl. by rewrite <- app_assoc.
Qed.

(** Closing a post returns the whole seconds since it was last opened,
    whatever was logged in between, appends no event and forgets the post:
    closing again returns 0 until another post is opened. *)
Theorem post_time_is_counted_once (opened closed later : Z) (postId : Z)
    (postTitle : string) (entries : list (string * Z * string * Metadata)) lg :
  let lg1 := logAll entries (trackPostOpened opened postId postTitle lg) in
  fst (trackPostClosed closed lg1) = (closed - opened) / 1000 /\
  fst (trackPostClosed later (snd (trackPostClosed closed lg1))) = 0 /\
  events (snd (trackPostClosed closed lg1)) = events lg ++ map logged entries.
Proof.
  intros lg1.
  destruct (logAll_keeps_tracking entries (trackPostOpened opened postId postTitle lg))
    as (Ht & Hi & Hn & He).
  fold lg1 in Ht, Hi, Hn, He. simpl in Ht, Hi, Hn, He.
  unfold trackPostClosed. rewrite Ht, Hi, Hn. simpl. by split_and!.
Qed.

End LoggerProperties.
